(** * alphapept.chem: isotope distributions by convolution

    A shallow embedding of [alphapept/chem.py] (class [IsotopeDistribution],
    [fast_add], [numba_bin], [dict_to_dist], [get_average_formula],
    [mass_to_dist], [calculate_mass]) and the properties of its
    specification that were checked against it.

    The program computes on IEEE binary64 numbers.  The embedding is written
    once over an interface of the arithmetic the program uses (class
    [Float64]) and is instantiated twice: with Rocq's primitive binary64
    floats ([binary64], executable, used to run the code on concrete inputs)
    and with the real numbers ([exact], the idealisation behind every
    "within floating tolerance" of the specification). *)

From Stdlib Require Import ZArith List Reals Lra Lia.
From Stdlib Require Import PrimFloat SpecFloat FloatOps.
From stdpp Require Import base list strings.

Set Warnings "-inexact-float".

(** ** Exceptions and results *)

(** The Python exceptions the module can raise. *)
Inductive exn : Type :=
| ValueError
| KeyError
| ZeroDivisionError
| NotImplementedError.

(** The outcome of a run: a value; a raised exception; [OutOfBounds] when
    the run indexes an array outside its bounds; or [Stuck] when the model
    itself cannot go on: a loop exhausted the iteration budget the model
    gave it, or a reference names no array of the store.  [Stuck] does not
    happen in a run of the program: the budgets are shown sufficient, and
    references come from allocation only.

    [OutOfBounds] is not an exception.  [fast_add] and the methods of the
    class are compiled by numba without bounds checking: an index outside
    an array raises nothing there, the program reads whatever the memory
    holds at that place and goes on, so that it may return a meaningless
    envelope or crash.  What it does from there on is not determined by
    the source, and the model follows the run no further.  An outcome [Ok]
    or [Raise] is the outcome of a run that stays inside its arrays.  (With
    bounds checking switched on, the same access raises [IndexError].) *)
Inductive res (A : Type) : Type :=
| Ok (a : A)
| Raise (e : exn)
| OutOfBounds
| Stuck.
Arguments Ok {A} a.
Arguments Raise {A} e.
Arguments OutOfBounds {A}.
Arguments Stuck {A}.

Definition res_bind {A B} (r : res A) (k : A → res B) : res B :=
  match r with
  | Ok a => k a
  | Raise e => Raise e
  | OutOfBounds => OutOfBounds
  | Stuck => Stuck
  end.

Declare Scope res_scope.
Delimit Scope res_scope with res.
Notation "x <- r ;; k" := (res_bind r (fun x => k))
  (at level 100, r at next level, right associativity) : res_scope.

(** ** 64-bit integers *)

(** The integers of the compiled functions are int64 values. *)
Definition in_int64 (z : Z) : Prop := (- 2 ^ 63 <= z < 2 ^ 63)%Z.

(** What an int64 operation stores when its mathematical result is [z]:
    the result wraps around. *)
Definition wrap64 (z : Z) : Z := ((z + 2 ^ 63) mod 2 ^ 64 - 2 ^ 63)%Z.

(** An int64 operation whose mathematical result is an int64 stores that
    result. *)
Lemma wrap64_small (z : Z) : in_int64 z → wrap64 z = z.
Proof.
  unfold in_int64, wrap64. intros Hz.
  rewrite Z.mod_small by lia. lia.
Qed.

(** ** The arithmetic of the program *)

(** Binary64 numbers, and the two operations that give int64 values their
    place among them. *)
Class Float64 (F : Type) : Type := {
  f_zero : F;                      (* 0.0 *)
  f_one : F;                       (* 1.0 *)
  f_add : F → F → F;               (* x + y *)
  f_sub : F → F → F;               (* x - y *)
  f_mul : F → F → F;               (* x * y *)
  f_div : F → F → F;               (* x / y on arrays: no exception *)
  f_ltb : F → F → bool;            (* x < y *)
  f_is_zero : F → bool;            (* x == 0 *)
  f_isnan : F → bool;              (* np.isnan(x) *)
  f_of_int : Z → F;                (* int64 promoted to float64 *)
  f_rint : F → Z;                  (* int(np.round(x)), an int64 *)
  i_add : Z → Z → Z;               (* int64 + int64 *)
  f_to_f32 : F → F;                (* a store into a float32 field *)
  f_prune : F;                     (* the literal 0.000001 *)
  (* an int64 addition that does not overflow is the addition *)
  i_add_in_range : ∀ a b : Z, in_int64 (a + b) → i_add a b = (a + b)%Z
}.

(** *** IEEE binary64 *)

Module B64.

(** [np.round(x)] as an integer: the nearest integer, ties to even;
    nothing for an infinity or a NaN. *)
Definition nearest (x : float) : option Z :=
  match Prim2SF x with
  | S754_finite s m e =>
      let n :=
        if (0 <=? e)%Z then (Zpos m * 2 ^ e)%Z
        else
          let d := (2 ^ (- e))%Z in
          let q := (Zpos m / d)%Z in
          let r := (Zpos m mod d)%Z in
          if (2 * r <? d)%Z then q
          else if (d <? 2 * r)%Z then (q + 1)%Z
          else if Z.even q then q else (q + 1)%Z in
      Some (if s then (- n)%Z else n)
  | S754_zero _ => Some 0%Z
  | _ => None
  end.

(** [int(np.round(x))]: the rounded number converted to int64.  A number
    outside the int64 range, an infinity and a NaN have no int64 value;
    the conversion instruction of x86-64 then gives [-2^63], and so does
    the model. *)
Definition rint (x : float) : Z :=
  match nearest x with
  | Some n => if ((- 2 ^ 63 <=? n) && (n <? 2 ^ 63))%Z then n else (- 2 ^ 63)%Z
  | None => (- 2 ^ 63)%Z
  end.

(** An integer converted to binary64 (round to nearest, ties to even). *)
Definition of_int (z : Z) : float :=
  SF2Prim (binary_normalize prec emax z 0 false).

(** A binary64 value rounded to binary32 (24 bits of precision) and
    widened again. *)
Definition to_f32 (x : float) : float :=
  match Prim2SF x with
  | S754_finite s m e =>
      SF2Prim (binary_normalize 24 128 (cond_Zopp s (Zpos m)) e s)
  | _ => x
  end.

End B64.

#[export] Instance binary64 : Float64 float := {
  f_zero := 0%float;
  f_one := 1%float;
  f_add := PrimFloat.add;
  f_sub := PrimFloat.sub;
  f_mul := PrimFloat.mul;
  f_div := PrimFloat.div;
  f_ltb := PrimFloat.ltb;
  f_is_zero := fun x => PrimFloat.eqb x 0%float;
  f_isnan := PrimFloat.is_nan;
  f_of_int := B64.of_int;
  f_rint := B64.rint;
  i_add := fun a b => wrap64 (a + b);
  f_to_f32 := B64.to_f32;
  f_prune := 0.000001%float;
  i_add_in_range := fun a b => wrap64_small (a + b)
}.

(** *** Exact arithmetic *)

(** Real numbers and unbounded integers: no rounding, no overflow. *)
Module Exact.

Definition ltb (x y : R) : bool := if Rlt_dec x y then true else false.

Definition is_zero (x : R) : bool := if Req_dec_T x 0%R then true else false.

(** Nearest integer, ties to even. *)
Definition rint (x : R) : Z :=
  let f := Int_part x in
  let r := (x - IZR f)%R in
  if Rlt_dec r (1 / 2) then f
  else if Rlt_dec (1 / 2) r then (f + 1)%Z
  else if Z.even f then f else (f + 1)%Z.

End Exact.

#[export] Instance exact : Float64 R := {
  f_zero := 0%R;
  f_one := 1%R;
  f_add := Rplus;
  f_sub := Rminus;
  f_mul := Rmult;
  f_div := Rdiv;
  f_ltb := Exact.ltb;
  f_is_zero := Exact.is_zero;
  f_isnan := fun _ => false;
  f_of_int := IZR;
  f_rint := Exact.rint;
  i_add := Z.add;
  f_to_f32 := fun x => x;
  f_prune := (1 / 1000000)%R;
  i_add_in_range := fun a b _ => eq_refl
}.

(** ** The store of arrays *)

(** A reference to a NumPy array, and the arrays allocated so far.  An
    array is never written after it has been filled: the program only
    builds new arrays and rebinds fields to them. *)
Abbreviation loc := nat (only parsing).
Abbreviation heap F := (list (list F)).

(** ** The module, over any arithmetic *)

Section Chem.

Context {F : Type} `{Float64 F}.

Local Open Scope Z_scope.
Local Open Scope res_scope.

(** *** NumPy arrays as lists *)

(** [a[k]] for an integer [k] in compiled code: a negative index counts
    from the end; an index outside [-len, len) is an access outside the
    array. *)
Definition getitem (a : list F) (k : Z) : res F :=
  let n := Z.of_nat (length a) in
  let k' := if k <? 0 then k + n else k in
  if (0 <=? k') && (k' <? n)
  then match a !! Z.to_nat k' with Some v => Ok v | None => OutOfBounds end
  else OutOfBounds.

(** [np.zeros(n)]: a negative dimension raises [ValueError]. *)
Definition np_zeros (n : Z) : res (list F) :=
  if n <? 0 then Raise ValueError else Ok (replicate (Z.to_nat n) f_zero).

(** [np.max(a)] as numba implements it for a float array: the first
    NaN met is returned, otherwise the running maximum updated by
    [v > max_value]; an empty array raises [ValueError]. *)
Fixpoint max_loop (max_value : F) (a : list F) : F :=
  match a with
  | [] => max_value
  | v :: a' =>
      if f_isnan v then v
      else max_loop (if f_ltb max_value v then v else max_value) a'
  end.

Definition np_max (a : list F) : res F :=
  match a with
  | [] => Raise ValueError
  | v :: a' => Ok (if f_isnan v then v else max_loop v a')
  end.

(** [range(n)] *)
Definition range (n : Z) : list Z := Z.of_nat <$> seq 0 (Z.to_nat n).

(** A [for] loop whose body may raise: the state is threaded through
    the iterations, the first exception ends the loop. *)
Fixpoint for_each {A S} (xs : list A) (body : S → A → res S) (s : S) : res S :=
  match xs with
  | [] => Ok s
  | x :: xs' => s' <- body s x ;; for_each xs' body s'
  end.

(** *** fast_add *)

(** [ni[i + j] += int0[i] * int1[j]] *)
Definition accumulate (int0 int1 : list F) (i j : Z) (ni : list F) : res (list F) :=
  a <- getitem int0 i ;;
  b <- getitem int1 j ;;
  c <- getitem ni (i + j) ;;
  Ok (<[Z.to_nat (i + j) := f_add c (f_mul a b)]> ni).

(** The two nested loops of [fast_add] over [range(dm0)] and [range(dm1)]. *)
Definition convolve (dm0 : Z) (int0 : list F) (dm1 : Z) (int1 : list F)
    (ni : list F) : res (list F) :=
  for_each (range dm0)
    (fun ni i => for_each (range dm1) (fun ni j => accumulate int0 int1 i j ni) ni)
    ni.

(** The loop condition [ni[dm0 - 1] < PRUNE_LEVEL]. *)
Definition prune_test (ni : list F) (PRUNE_LEVEL : F) (dm0 : Z) : res bool :=
  v <- getitem ni (dm0 - 1) ;;
  Ok (f_ltb v PRUNE_LEVEL).

(** [while ni[dm0 - 1] < PRUNE_LEVEL: dm0 -= 1] *)
Fixpoint prune_loop (fuel : nat) (ni : list F) (PRUNE_LEVEL : F) (dm0 : Z) : res Z :=
  match fuel with
  | O => Stuck
  | S fuel' =>
      c <- prune_test ni PRUNE_LEVEL dm0 ;;
      if c : bool then prune_loop fuel' ni PRUNE_LEVEL (dm0 - 1) else Ok dm0
  end.

(** [fast_add(m0, dm0, int0, m1, dm1, int1, PRUNE_LEVEL)].  The arrays
    [int0] and [int1] are only read; [ni] is local; the array returned is
    the new one made by [ni / np.max(ni)].  The loop budget covers every
    index the scan can read before it leaves the array. *)
Definition fast_add (m0 : F) (dm0 : Z) (int0 : list F)
    (m1 : F) (dm1 : Z) (int1 : list F) (PRUNE_LEVEL : F) : res (F * Z * list F) :=
  let m0 := f_add m0 m1 in
  ni <- np_zeros (dm0 + dm1 - 1) ;;
  ni <- convolve dm0 int0 dm1 int1 ni ;;
  let dm0 := dm0 + (dm1 - 1) in
  mx <- np_max ni ;;
  let int0 := (fun v => f_div v mx) <$> ni in
  dm0 <- prune_loop (2 * length ni + 2) ni PRUNE_LEVEL dm0 ;;
  Ok (m0, dm0, int0).

(** *** numba_bin *)

(** [while decimal != 0: bit = int(decimal % 2); binary.insert(0, bit);
    decimal = int(decimal / 2)].  [%] is Python's floored remainder.
    [decimal / 2] is a binary64 division and [int] truncates it toward
    zero: for [|decimal| <= 2^53] the int64 converts to binary64 without
    rounding, the half is exact and [int(decimal / 2)] is the truncated
    quotient [Z.quot decimal 2], which is what the model takes.  (Above
    [2^53] the conversion rounds, and the digits the program computes are
    those of the rounded number.) *)
Fixpoint numba_bin_loop (fuel : nat) (decimal : Z) (binary : list Z) : res (list Z) :=
  match fuel with
  | O => Stuck
  | S fuel' =>
      if decimal =? 0 then Ok binary
      else
        let bit := decimal mod 2 in
        numba_bin_loop fuel' (Z.quot decimal 2) (bit :: binary)
  end.

Definition numba_bin (decimal : Z) : res (list Z) :=
  numba_bin_loop (S (Z.abs_nat decimal)) decimal [].

(** *** The class IsotopeDistribution *)

(** The fields of an [IsotopeDistribution] object.  An object is modelled
    by the record of its fields and an assignment to a field by a new
    record bound to the same variable: no envelope object is reachable
    from two variables while one of them is assigned to.  ([m0] is a
    float32 field and [dm] an int32 field; [dm] counts array entries and
    stays far below 2^31.) *)
Record IsotopeDistribution : Type := {
  m0 : F;
  dm : Z;
  intensities : loc
}.

(** Computations that read and extend the store and may raise. *)
Definition M (A : Type) : Type := heap F → res (A * heap F).

Definition M_ret {A} (a : A) : M A := fun h => Ok (a, h).

Definition M_bind {A B} (m : M A) (k : A → M B) : M B :=
  fun h => match m h with
           | Ok (a, h') => k a h'
           | Raise e => Raise e
           | OutOfBounds => OutOfBounds
           | Stuck => Stuck
           end.

Definition lift {A} (r : res A) : M A :=
  fun h => match r with
           | Ok a => Ok (a, h)
           | Raise e => Raise e
           | OutOfBounds => OutOfBounds
           | Stuck => Stuck
           end.

(** A new array: it gets the next free reference. *)
Definition alloc (a : list F) : M loc := fun h => Ok (length h, h ++ [a]).

(** The array a reference names. *)
Definition load (l : loc) : M (list F) :=
  fun h => match h !! l with Some a => Ok (a, h) | None => Stuck end.

End Chem.

Declare Scope heap_scope.
Delimit Scope heap_scope with M.
Notation "x <- m ;; k" := (M_bind m (fun x => k))
  (at level 100, m at next level, right associativity) : heap_scope.

Arguments IsotopeDistribution F : clear implicits.
Arguments M F A : clear implicits.

(** Python dictionaries, in insertion order. *)
Module Dict.

Definition t (V : Type) : Type := list (string * V).

Definition keys {V} (d : t V) : list string := d.*1.

(** [d[k]], [KeyError] when the key is absent. *)
Fixpoint get {V} (d : t V) (k : string) : res V :=
  match d with
  | [] => Raise KeyError
  | (k', v) :: d' => if String.eqb k k' then Ok v else get d' k
  end.

(** [d[k] = v]: the value of an existing key is replaced in place, a new
    key is appended. *)
Fixpoint set {V} (d : t V) (k : string) (v : V) : t V :=
  match d with
  | [] => [(k, v)]
  | (k', v') :: d' =>
      if String.eqb k k' then (k', v) :: d' else (k', v') :: set d' k v
  end.

End Dict.

Section Envelope.

Context {F : Type} `{Float64 F}.

Local Open Scope Z_scope.
Local Open Scope heap_scope.

Abbreviation ID := (IsotopeDistribution F).

(** A [for] loop in the store. *)
Fixpoint M_for_each {A S} (xs : list A) (body : S → A → M F S) (s : S) : M F S :=
  match xs with
  | [] => M_ret s
  | x :: xs' => s' <- body s x ;; M_for_each xs' body s'
  end.

(** [IsotopeDistribution()] *)
Definition __init__ : M F ID :=
  a <- alloc [f_one] ;;
  M_ret {| m0 := f_zero; dm := 1; intensities := a |}.

(** [self.add(x)]: the three fields of [self] are rebound to the result
    of [fast_add], whose arguments are all read before.  The sum of the
    two float32 offsets is a float32. *)
Definition add (self x : ID) : M F ID :=
  int0 <- load (intensities self) ;;
  int1 <- load (intensities x) ;;
  r <- lift (fast_add (m0 self) (dm self) int0 (m0 x) (dm x) int1 f_prune) ;;
  a <- alloc r.2 ;;
  M_ret {| m0 := f_to_f32 r.1.1; dm := r.1.2; intensities := a |}.

(** [self.copy()]: a new object whose fields are assigned from [self]'s;
    [i.intensities = self.intensities] binds the same array. *)
Definition copy (self : ID) : M F ID :=
  i <- __init__ ;;
  let i := {| m0 := m0 self; dm := dm i; intensities := intensities i |} in
  let i := {| m0 := m0 i; dm := dm self; intensities := intensities i |} in
  let i := {| m0 := m0 i; dm := dm i; intensities := intensities self |} in
  M_ret i.

(** The body of the loop of [mult], for the binary digit [count]; the
    state is the pair of [i] and [multiples]. *)
Definition mult_body (s : ID * ID) (count : Z) : M F (ID * ID) :=
  let (i, multiples) := s in
  i <- (if count =? 1 then add i multiples else M_ret i) ;;
  multiples <- add multiples multiples ;;
  M_ret (i, multiples).

(** [self.mult(n)] *)
Definition mult (self : ID) (n : Z) : M F ID :=
  binary <- lift (numba_bin n) ;;
  if n =? 1 then copy self
  else
    i <- __init__ ;;
    multiples <- copy self ;;
    s <- M_for_each (rev binary) mult_body (i, multiples) ;;
    M_ret s.1.

(** The body of the loop of [dict_to_dist], for the key [AA]. *)
Definition dict_to_dist_body (counted_AA : Dict.t Z) (isotopes : Dict.t ID)
    (dist : ID) (AA : string) : M F ID :=
  x <- __init__ ;;
  iso <- lift (Dict.get isotopes AA) ;;
  x <- add x iso ;;
  n <- lift (Dict.get counted_AA AA) ;;
  x <- mult x n ;;
  add dist x.

(** [dict_to_dist(counted_AA, isotopes)] *)
Definition dict_to_dist (counted_AA : Dict.t Z) (isotopes : Dict.t ID) : M F ID :=
  dist <- __init__ ;;
  M_for_each (Dict.keys counted_AA) (dict_to_dist_body counted_AA isotopes) dist.

(** Scalar [x / y] in compiled code: a zero divisor raises
    [ZeroDivisionError]. *)
Definition truediv (x y : F) : res F :=
  if f_is_zero y then Raise ZeroDivisionError else Ok (f_div x y).

(** [get_average_formula(molecule_mass, averagine_aa, isotopes, sulphur)].
    [averagine_avg] is a constant of [alphapept.constants]; it is a
    parameter here.  The counts are int64 values: [int(np.round(x))]
    converts to int64 and [counted_AA["H"] += h_correction] is an int64
    addition. *)
Definition get_average_formula (averagine_avg : F) (molecule_mass : F)
    (averagine_aa : Dict.t F) (isotopes : Dict.t ID) (sulphur : bool)
    : res (Dict.t Z) :=
  (averagine_units <-
     (if sulphur then truediv molecule_mass averagine_avg
      else Raise NotImplementedError) ;;
   s <- for_each (Dict.keys averagine_aa)
          (fun (s : Dict.t Z * F) AA =>
             let (counted_AA, final_mass) := s in
             ratio <- Dict.get averagine_aa AA ;;
             let counted_AA :=
               Dict.set counted_AA AA (f_rint (f_mul averagine_units ratio)) in
             c <- Dict.get counted_AA AA ;;
             iso <- Dict.get isotopes AA ;;
             Ok (counted_AA, f_add final_mass (f_mul (f_of_int c) (m0 iso))))
          ([], f_zero) ;;
   let (counted_AA, final_mass) := s in
   isoH <- Dict.get isotopes "H" ;;
   q <- truediv (f_sub molecule_mass final_mass) (m0 isoH) ;;
   let h_correction := f_rint q in
   cH <- Dict.get counted_AA "H" ;;
   Ok (Dict.set counted_AA "H" (i_add cH h_correction)))%res.

(** [mass_to_dist(molecule_mass, averagine_aa, isotopes)]: the pair of the
    new array [masses] and of [dist.intensities]. *)
Definition mass_to_dist (averagine_avg : F) (molecule_mass : F)
    (averagine_aa : Dict.t F) (isotopes : Dict.t ID) : M F (loc * loc) :=
  counted_AA <- lift (get_average_formula averagine_avg molecule_mass
                        averagine_aa isotopes true) ;;
  dist <- dict_to_dist counted_AA isotopes ;;
  a <- load (intensities dist) ;;
  masses <- alloc ((fun i => f_add (m0 dist) (f_of_int i))
                     <$> range (Z.of_nat (length a))) ;;
  let ints := intensities dist in
  M_ret (masses, ints).

(** [calculate_mass(mono_mz, charge)].  [M_PROTON] is a constant of
    [alphapept.constants]; it is a parameter here.  [charge] is an int64
    and so is [abs(charge)]: the absolute value of [-2^63] wraps around to
    [-2^63]. *)
Definition calculate_mass (M_PROTON : F) (mono_mz : F) (charge : Z) : F :=
  f_sub (f_mul mono_mz (f_of_int (wrap64 (Z.abs charge))))
        (f_mul (f_of_int charge) M_PROTON).

(** *** Definitions that follow the specification *)

(** The peak count the specification describes for [fast_add]: scan
    downward from the entry below [k], discard every entry whose
    normalized intensity is under the threshold, stop at the first one
    that is not. *)
Fixpoint spec_peak_count (PRUNE_LEVEL : F) (normalized : list F) (k : nat) : nat :=
  match k with
  | O => O
  | S k' =>
      match normalized !! k' with
      | Some v => if f_ltb v PRUNE_LEVEL then spec_peak_count PRUNE_LEVEL normalized k'
                  else k
      | None => k
      end
  end.

(** The naive path of the specification for [mult]: a copy of [E], then
    [add] with [E], [n - 1] times. *)
Definition naive_mult (E : ID) (n : Z) : M F ID :=
  c <- copy E ;;
  M_for_each (seq 0 (Z.to_nat (n - 1))) (fun c _ => add c E) c.

(** The identity envelope: offset 0, one peak, intensities [[1.0]]. *)
Definition is_identity (h : heap F) (i : ID) : Prop :=
  m0 i = f_zero ∧ dm i = 1 ∧ h !! intensities i = Some [f_one].

(** An envelope is well formed in a store when its array is there and its
    peak count lies between 1 and the length of the array. *)
Definition well_formed (h : heap F) (e : ID) : Prop :=
  ∃ a, h !! intensities e = Some a ∧ 1 ≤ dm e ≤ Z.of_nat (length a).

(** The monoisotopic mass of a composition: the sum over its elements of
    count times the offset of the element's table entry. *)
Definition total_mass (counted_AA : Dict.t Z) (isotopes : Dict.t ID) : res F :=
  for_each (Dict.keys counted_AA)
    (fun total AA =>
       res_bind (Dict.get counted_AA AA) (fun c =>
       res_bind (Dict.get isotopes AA) (fun iso =>
       Ok (f_add total (f_mul (f_of_int c) (m0 iso))))))
    f_zero.

(** The normalization invariant: the maximum of the first [peak_count]
    intensities is 1.0. *)
Definition normalized (h : heap F) (e : ID) : Prop :=
  ∃ a, h !! intensities e = Some a ∧ np_max (take (Z.to_nat (dm e)) a) = Ok f_one.

(** A sound envelope: its array is in the store, its peak count lies
    between 1 and the length of the array, and its first [peak_count]
    intensities are not negative and have maximum 1.0. *)
Definition sound (h : heap F) (e : ID) : Prop :=
  ∃ a, h !! intensities e = Some a ∧
       1 ≤ dm e ≤ Z.of_nat (length a) ∧
       (∀ v, v ∈ take (Z.to_nat (dm e)) a → f_ltb v f_zero = false) ∧
       np_max (take (Z.to_nat (dm e)) a) = Ok f_one.

(** An envelope as a table of isotopes gives it, normalized or not: its
    array is in the store, its peak count lies between 1 and the length of
    the array, its first [peak_count] intensities lie between 0.0 and 1.0,
    and one of them is not under the prune threshold. *)
Definition admissible (h : heap F) (e : ID) : Prop :=
  ∃ a, h !! intensities e = Some a ∧
       1 ≤ dm e ≤ Z.of_nat (length a) ∧
       (∀ v, v ∈ take (Z.to_nat (dm e)) a →
             f_ltb v f_zero = false ∧ f_ltb f_one v = false) ∧
       (∃ v, v ∈ take (Z.to_nat (dm e)) a ∧ f_ltb v f_prune = false).

(** What an envelope holds: offset, peak count and the contents of its
    intensities array. *)
Definition value_of (h : heap F) (e : ID) : option (F * Z * list F) :=
  match h !! intensities e with
  | Some a => Some (m0 e, dm e, a)
  | None => None
  end.

(** The convolution on what envelopes hold: [fast_add] with the default
    threshold, the offset stored in a float32 field. *)
Definition conv (a b : F * Z * list F) : res (F * Z * list F) :=
  res_bind (fast_add a.1.1 a.1.2 a.2 b.1.1 b.1.2 b.2 f_prune)
    (fun r => Ok (f_to_f32 r.1.1, r.1.2, r.2)).

(** What the identity envelope holds. *)
Definition identity_value : F * Z * list F := (f_zero, 1, [f_one]).

(** The naive power on what envelopes hold: the identity for 0, [E] for 1,
    one more convolution with [E] for each further step. *)
Fixpoint power (E : F * Z * list F) (n : nat) : res (F * Z * list F) :=
  match n with
  | O => Ok identity_value
  | S n' =>
      match n' with
      | O => Ok E
      | S _ => res_bind (power E n') (fun p => conv p E)
      end
  end.

(** The number a list of binary digits stands for, least significant
    digit first. *)
Fixpoint bits_value (bits : list Z) : Z :=
  match bits with
  | [] => 0
  | b :: bits' => b + 2 * bits_value bits'
  end.

End Envelope.

(** *** Closed forms, in exact arithmetic *)

(** The offset the table gives an element (0 for an element it lacks). *)
Definition mass_of (isotopes : Dict.t (IsotopeDistribution R)) (AA : string) : R :=
  match Dict.get isotopes AA with
  | Ok iso => m0 iso
  | _ => 0%R
  end.

(** The sum of count times offset over the entries of a composition. *)
Definition weighted (isotopes : Dict.t (IsotopeDistribution R)) (d : Dict.t Z) : R :=
  foldr (fun kc acc => (IZR kc.2 * mass_of isotopes kc.1 + acc)%R) 0%R d.

(** An array without negative entries. *)
Definition nonneg (a : list R) : Prop := ∀ k v, a !! k = Some v → (0 <= v)%R.

(** The entry [k] of [ni] is at least [x]. *)
Definition at_least (ni : list R) (k : nat) (x : R) : Prop :=
  ∃ v, ni !! k = Some v ∧ (x <= v)%R.

(** The rounded counts of the averagine loop. *)
Definition counts (averagine_units : R) (averagine_aa : Dict.t R) : Dict.t Z :=
  (fun kr => (kr.1, Exact.rint (averagine_units * kr.2))) <$> averagine_aa.

(** ** Closed forms of the averagine loop, over any arithmetic *)

(** The offset the isotope table gives an element ([0.0] for an element it
    lacks). *)
Definition offset_of {F : Type} `{Float64 F} (isotopes : Dict.t (IsotopeDistribution F))
    (AA : string) : F :=
  match Dict.get isotopes AA with
  | Ok iso => m0 iso
  | _ => f_zero
  end.

(** The counts of the loop of [get_average_formula]: each ratio times the
    number of averagine units, rounded. *)
Definition rounded_counts {F : Type} `{Float64 F} (averagine_units : F)
    (averagine_aa : Dict.t F) : Dict.t Z :=
  (fun kr => (kr.1, f_rint (f_mul averagine_units kr.2))) <$> averagine_aa.

(** The mass the loop of [get_average_formula] sums up, added to [start]
    in the order of the entries. *)
Definition summed_mass {F : Type} `{Float64 F} (isotopes : Dict.t (IsotopeDistribution F))
    (start : F) (d : Dict.t Z) : F :=
  foldl (fun acc kc => f_add acc (f_mul (f_of_int kc.2) (offset_of isotopes kc.1)))
        start d.

(** A composition with every count replaced by its absolute value. *)
Definition abs_counts (d : Dict.t Z) : Dict.t Z :=
  (fun kc => (kc.1, Z.abs kc.2)) <$> d.

(** ** The raw convolution in closed form, in exact arithmetic *)

(** The sum of a list of numbers. *)
Definition sumR (l : list R) : R := foldr Rplus 0%R l.

(** What the turn [(i, j)] of the loops of [fast_add] adds to the entry
    [k] of [ni]: [int0[i] * int1[j]] when [i + j = k], nothing
    otherwise. *)
Definition conv_term (int0 int1 : list R) (k : nat) (i j : Z) : R :=
  if decide (i + j = Z.of_nat k)%Z
  then (default 0%R (int0 !! Z.to_nat i) * default 0%R (int1 !! Z.to_nat j))%R
  else 0%R.

(** The entry [k] of the raw convolution: the sum of the products
    [int0[i] * int1[j]] over the [i < dm0] and [j < dm1] with
    [i + j = k]. *)
Definition conv_entry (dm0 : Z) (int0 : list R) (dm1 : Z) (int1 : list R)
    (k : nat) : R :=
  sumR ((fun i => sumR (conv_term int0 int1 k i <$> range dm1)) <$> range dm0).

(** ** Convolution powers in closed form, in exact arithmetic *)

(** The product of two polynomials given by the lists of their
    coefficients: the raw convolution of two whole arrays. *)
Definition pmul (a b : list R) : list R :=
  (fun k => conv_entry (Z.of_nat (length a)) a (Z.of_nat (length b)) b k)
    <$> seq 0 (length a + length b - 1).

(** The coefficient of a polynomial given by the list of its
    coefficients, 0 beyond the list. *)
Definition cf (l : list R) (i : Z) : R := default 0%R (l !! Z.to_nat i).

(** The product of three polynomials, as one sum. *)
Definition triple (a b c : list R) (k : nat) : R :=
  sumR ((fun p =>
    sumR ((fun q =>
      sumR ((fun j => if decide (p + q + j = Z.of_nat k)%Z
                      then (cf a p * cf b q * cf c j)%R else 0%R)
            <$> range (Z.of_nat (length c))))
      <$> range (Z.of_nat (length b))))
    <$> range (Z.of_nat (length a))).

(** [ni / np.max(ni)] on a whole array. *)
Definition norm (l : list R) : list R :=
  match np_max l with Ok mx => (fun v => v / mx)%R <$> l | _ => l end.

(** What an envelope holds when all the entries of its array are
    significant. *)
Definition full (m : R) (l : list R) : R * Z * list R := (m, Z.of_nat (length l), l).

(** What an envelope holds, without the entries of its array beyond the
    peak count. *)
Definition trunc (v : R * Z * list R) : R * Z * list R :=
  full v.1.1 (take (Z.to_nat v.1.2) v.2).

(** The last significant intensity, [intensities[peak_count - 1]]. *)
Definition last_peak (v : R * Z * list R) : R :=
  default 0%R (v.2 !! Z.to_nat (v.1.2 - 1)).

(** The [k]-th power of a polynomial. *)
Fixpoint ppow (a : list R) (k : nat) : list R :=
  match k with
  | O => [1%R]
  | S k' => pmul (ppow a k') a
  end.

(** The [k]-fold convolution of an envelope of offset [m] and significant
    intensities [a] when nothing is pruned: offset [k * m], and all the
    coefficients of the [k]-th power of [a], divided by their maximum. *)
Definition power_closed (m : R) (a : list R) (k : nat) : R * Z * list R :=
  full (INR k * m)%R (norm (ppow a k)).

(** No convolution of two powers of [E] whose exponents add up to at most
    [n] prunes a peak: the last entry of the raw convolution of the powers
    [j] and [k], the product of their last significant intensities, is
    not under the threshold, so that the loop of [fast_add] stops at
    once. *)
Definition unpruned (E : R * Z * list R) (n : nat) : Prop :=
  ∀ (j k : nat) p q,
    (1 ≤ k)%nat → (j + k ≤ n)%nat →
    power E j = Ok p → power E k = Ok q →
    (f_prune <= last_peak p * last_peak q)%R.

(** ** The method add_from_dict *)

(** [np.int(x)] of a float: the integer part, toward zero. *)
Class Float64Int (F : Type) : Type := {
  f_int : F → Z
}.

(** The integer part of a binary64 number ([0] for an infinity or a NaN,
    for which the conversion is not defined). *)
Definition B64_int (x : float) : Z :=
  match Prim2SF x with
  | S754_finite s m e =>
      let n := if (0 <=? e)%Z then (Zpos m * 2 ^ e)%Z else (Zpos m / 2 ^ (- e))%Z in
      if s then (- n)%Z else n
  | _ => 0%Z
  end.

#[export] Instance binary64_int : Float64Int float := {
  f_int := B64_int
}.

(** The integer part of a real number, toward zero. *)
Definition Exact_int (x : R) : Z :=
  if Rlt_dec x 0 then (- Int_part (- x))%Z else Int_part x.

#[export] Instance exact_int : Float64Int R := {
  f_int := Exact_int
}.

(** [self.add_from_dict(x)]: [x] is an array that holds an offset in
    [x[0]], a peak count in [x[1]] and the intensities from [x[2]] on; the
    arguments of [fast_add] are evaluated from left to right, and the
    slice [x[2:]] is only read. *)
Definition add_from_dict {F : Type} `{Float64 F} `{Float64Int F}
    (self : IsotopeDistribution F) (x : loc) : M F (IsotopeDistribution F) :=
  (int0 <- load (intensities self) ;;
   xa <- load x ;;
   x0 <- lift (getitem xa 0) ;;
   x1 <- lift (getitem xa 1) ;;
   r <- lift (fast_add (m0 self) (dm self) int0 x0 (f_int x1) (drop 2 xa) f_prune) ;;
   a <- alloc r.2 ;;
   M_ret {| m0 := f_to_f32 r.1.1; dm := r.1.2; intensities := a |})%M.

(** ** Concrete stores, envelopes and tables on binary64 *)

(** A store of one array
    [[1.0, 0.5]] and an envelope of offset 12 with two peaks bound to it. *)
Definition store_1 : heap float := [[1; 0.5]%float].
Definition envelope_1 : IsotopeDistribution float :=
  {| m0 := 12%float; dm := 2; intensities := 0%nat |}.

(** Tables for the concrete runs of the estimator: carbon, offset 12, two
    isotopes [[1.0, 0.001]]; hydrogen, offset 1, two isotopes
    [[1.0, 0.0001]]; one atom of each per averagine unit of mass 13. *)
Definition store_2 : heap float := [[1; 0.001]; [1; 0.0001]]%float.
Definition isotopes_2 : Dict.t (IsotopeDistribution float) :=
  [("C", {| m0 := 12%float; dm := 2; intensities := 0%nat |});
   ("H", {| m0 := 1%float; dm := 2; intensities := 1%nat |})].
Definition averagine_aa_2 : Dict.t float := [("C", 1%float); ("H", 1%float)].

(** A store and an envelope of two peaks
    [[1.0, 0.00055]] at offset 12. *)
Definition store_3 : heap float := [[1; 5.5e-4]%float].
Definition envelope_3 : IsotopeDistribution float :=
  {| m0 := 12%float; dm := 2; intensities := 0%nat |}.

(** * Properties *)

(** ** Results and loops *)

Lemma res_bind_Ok {A B} (r : res A) (k : A → res B) (b : B) :
  res_bind r k = Ok b ↔ ∃ a, r = Ok a ∧ k a = Ok b.
Proof.
  destruct r as [a| | |]; simpl; split.
  - intros Hk. exists a. split; [reflexivity|exact Hk].
  - intros (a' & Ha & Hk). injection Ha as ->. exact Hk.
  - discriminate.
  - intros (a' & Ha & _). discriminate.
  - discriminate.
  - intros (a' & Ha & _). discriminate.
  - discriminate.
  - intros (a' & Ha & _). discriminate.
Qed.

Lemma for_each_inv {A S} (P : S → Prop) (xs : list A) (body : S → A → res S) :
  (∀ s x s', x ∈ xs → P s → body s x = Ok s' → P s') →
  ∀ s s', P s → for_each xs body s = Ok s' → P s'.
Proof.
  induction xs as [|x xs IH]; simpl; intros Hbody s s' Hs Hrun.
  - injection Hrun as <-. exact Hs.
  - apply res_bind_Ok in Hrun as (s1 & H1 & Hrun).
    apply (IH (fun s x s' Hx => Hbody s x s' (list_elem_of_further _ _ _ Hx)) s1 s');
      [|exact Hrun].
    apply (Hbody s x s1); [left|exact Hs|exact H1].
Qed.

Section ArrayFacts.

Context {F : Type} `{Float64 F}.

Local Open Scope Z_scope.

Lemma getitem_nonneg (a : list F) (k : Z) :
  0 ≤ k < Z.of_nat (length a) →
  ∃ v, a !! Z.to_nat k = Some v ∧ getitem a k = Ok v.
Proof.
  intros Hk. unfold getitem.
  destruct (Z.ltb_spec k 0) as [?|_]; [lia|].
  destruct (Z.leb_spec 0 k) as [_|?]; [|lia].
  destruct (Z.ltb_spec k (Z.of_nat (length a))) as [_|?]; [|lia].
  simpl. destruct (lookup_lt_is_Some_2 a (Z.to_nat k)) as [v Hv]; [lia|].
  exists v. rewrite Hv. split; reflexivity.
Qed.

(** A negative index reads the entry it wraps around to. *)
Lemma getitem_wrap (a : list F) (k : Z) :
  - Z.of_nat (length a) ≤ k < 0 →
  getitem a k = getitem a (k + Z.of_nat (length a)).
Proof.
  intros Hk. unfold getitem.
  destruct (Z.ltb_spec k 0) as [_|?]; [|lia].
  destruct (Z.ltb_spec (k + Z.of_nat (length a)) 0) as [?|_]; [lia|].
  reflexivity.
Qed.

Lemma getitem_out_of_range (a : list F) (k : Z) :
  k < - Z.of_nat (length a) ∨ Z.of_nat (length a) ≤ k →
  getitem a k = OutOfBounds.
Proof.
  intros Hk. unfold getitem.
  destruct (Z.ltb_spec k 0) as [?|?].
  - destruct (Z.leb_spec 0 (k + Z.of_nat (length a))) as [?|_]; [lia|]. reflexivity.
  - destruct (Z.ltb_spec k (Z.of_nat (length a))) as [?|_]; [lia|].
    rewrite andb_false_r. reflexivity.
Qed.

Lemma getitem_not_Stuck (a : list F) (k : Z) : getitem a k ≠ Stuck.
Proof.
  unfold getitem.
  destruct (_ && _); [|discriminate].
  destruct (a !! _); discriminate.
Qed.

Lemma prune_test_wrap (ni : list F) (P : F) (d : Z) :
  - Z.of_nat (length ni) < d ≤ 0 →
  prune_test ni P d = prune_test ni P (d + Z.of_nat (length ni)).
Proof.
  intros Hd. unfold prune_test.
  rewrite getitem_wrap by lia.
  replace (d + Z.of_nat (length ni) - 1) with (d - 1 + Z.of_nat (length ni)) by lia.
  reflexivity.
Qed.

Lemma prune_test_out_of_range (ni : list F) (P : F) (d : Z) :
  d ≤ - Z.of_nat (length ni) →
  prune_test ni P d = OutOfBounds.
Proof.
  intros Hd. unfold prune_test.
  rewrite getitem_out_of_range by lia. reflexivity.
Qed.

(** What a scan that ends says about the array: it went down from [d] to
    [r], the entry below [r] is not under the threshold and every entry
    it passed is. *)
Lemma prune_loop_Ok (fuel : nat) (ni : list F) (P : F) (d r : Z) :
  prune_loop fuel ni P d = Ok r →
  r ≤ d ∧ prune_test ni P r = Ok false ∧
  ∀ k, r < k ≤ d → prune_test ni P k = Ok true.
Proof.
  revert d. induction fuel as [|fuel IH]; simpl; intros d Hrun; [discriminate|].
  apply res_bind_Ok in Hrun as (c & Hc & Hrun).
  destruct c.
  - destruct (IH _ Hrun) as (Hle & Hstop & Hpass).
    split; [lia|]. split; [exact Hstop|].
    intros k Hk. destruct (decide (k = d)) as [->|Hne]; [exact Hc|].
    apply Hpass. lia.
  - injection Hrun as <-. split; [lia|]. split; [exact Hc|].
    intros k Hk. lia.
Qed.

(** A scan that starts at the length of the array and ends, ends at a
    peak count between 1 and the length. *)
Lemma prune_loop_range (fuel : nat) (ni : list F) (P : F) (r : Z) :
  prune_loop fuel ni P (Z.of_nat (length ni)) = Ok r →
  1 ≤ r ≤ Z.of_nat (length ni).
Proof.
  intros Hrun. apply prune_loop_Ok in Hrun as (Hle & Hstop & Hpass).
  split; [|exact Hle].
  destruct (Z.le_gt_cases 1 r) as [?|Hr]; [assumption|exfalso].
  destruct (Z.le_gt_cases r (- Z.of_nat (length ni))) as [Hlow|Hlow].
  - rewrite prune_test_out_of_range in Hstop by lia. discriminate.
  - rewrite prune_test_wrap in Hstop by lia.
    rewrite Hpass in Hstop by lia. discriminate.
Qed.

(** The budget [fast_add] gives the scan is never exhausted. *)
Lemma prune_loop_not_Stuck (fuel : nat) (ni : list F) (P : F) (d : Z) :
  (0 < fuel)%nat →
  d + Z.of_nat (length ni) < Z.of_nat fuel →
  prune_loop fuel ni P d ≠ Stuck.
Proof.
  revert d. induction fuel as [|fuel IH]; simpl; intros d Hpos Hfuel; [lia|].
  destruct (Z.le_gt_cases d (- Z.of_nat (length ni))) as [Hlow|Hlow].
  - rewrite prune_test_out_of_range by lia. discriminate.
  - unfold prune_test.
    destruct (getitem ni (d - 1)) as [v| | |] eqn:Hv; simpl; [|discriminate|discriminate|].
    + destruct (f_ltb v P); [|discriminate]. apply IH; lia.
    + exfalso. exact (getitem_not_Stuck _ _ Hv).
Qed.

End ArrayFacts.

(** ** The class: copy, mult(0) *)

Section EnvelopeFacts.

Context {F : Type} `{Float64 F}.

Local Open Scope Z_scope.

Abbreviation ID := (IsotopeDistribution F).

Lemma M_bind_Ok {A B} (m : M F A) (k : A → M F B) (h : heap F) (b : B) (h' : heap F) :
  M_bind m k h = Ok (b, h') ↔ ∃ a h1, m h = Ok (a, h1) ∧ k a h1 = Ok (b, h').
Proof.
  unfold M_bind. destruct (m h) as [[a h1]| | |]; split.
  - intros Hk. exists a, h1. split; [reflexivity|exact Hk].
  - intros (a' & h1' & Ha & Hk). injection Ha as -> ->. exact Hk.
  - discriminate.
  - intros (a' & h1' & Ha & _). discriminate.
  - discriminate.
  - intros (a' & h1' & Ha & _). discriminate.
  - discriminate.
  - intros (a' & h1' & Ha & _). discriminate.
Qed.

Lemma init_eq (h : heap F) :
  __init__ h = Ok ({| m0 := f_zero; dm := 1; intensities := length h |}, h ++ [[f_one]]).
Proof. reflexivity. Qed.

Lemma copy_eq (self : ID) (h : heap F) :
  copy self h = Ok (self, h ++ [[f_one]]).
Proof. destruct self. reflexivity. Qed.

Lemma numba_bin_0 : numba_bin 0 = Ok [].
Proof. reflexivity. Qed.

Lemma mult_0_eq (E : ID) (h : heap F) :
  mult E 0 h =
  Ok ({| m0 := f_zero; dm := 1; intensities := length h |},
      (h ++ [[f_one]]) ++ [[f_one]]).
Proof. reflexivity. Qed.

Lemma lookup_alloc (h : heap F) (a : list F) : (h ++ [a]) !! length h = Some a.
Proof. rewrite lookup_app_r by lia. rewrite Nat.sub_diag. reflexivity. Qed.

Lemma lookup_alloc_old (h : heap F) (a b : list F) (l : loc) :
  h !! l = Some b → (h ++ [a]) !! l = Some b.
Proof. intros Hl. rewrite lookup_app_l; [exact Hl|]. eapply lookup_lt_Some, Hl. Qed.

End EnvelopeFacts.

Section CopyAndMult0.

Context {F : Type} `{Float64 F}.

Local Open Scope Z_scope.

(** C5 (as amended): for every envelope [E], [E.copy()] returns an
    envelope with [E]'s offset and peak count whose [intensities] field is
    bound to the very array [E.intensities] is bound to (a shallow copy:
    the intensity values are equal because the storage is shared); the
    only allocation is the one-element array of the constructor, and
    every array of the store is left as it was. *)
Theorem copy_is_shallow (E : IsotopeDistribution F) (h : heap F) :
  ∃ c h',
    copy E h = Ok (c, h') ∧
    m0 c = m0 E ∧ dm c = dm E ∧
    intensities c = intensities E ∧
    value_of h' c = value_of h' E ∧
    h' = h ++ [[f_one]] ∧
    ∀ l a, h !! l = Some a → h' !! l = Some a.
Proof.
  exists E, (h ++ [[f_one]]).
  split; [apply copy_eq|].
  repeat (split; [reflexivity|]).
  intros l a Hl. apply lookup_alloc_old. exact Hl.
Qed.

(** C10: [numba_bin(0)] is the empty list, so [E.mult(0)] is the identity
    envelope (offset 0, peak count 1, intensities [[1.0]]) for every [E];
    and in [dict_to_dist] an element whose count is 0 contributes
    [dist.add(i)] for an identity envelope [i], once the single-atom
    envelope [x.add(isotopes[AA])] has been built. *)
Theorem mult_0_is_identity (E : IsotopeDistribution F) (h : heap F) :
  numba_bin 0 = Ok [] ∧
  (∃ i h', mult E 0 h = Ok (i, h') ∧ is_identity h' i) ∧
  ∀ counted_AA isotopes dist AA iso x h1,
    Dict.get counted_AA AA = Ok 0 →
    Dict.get isotopes AA = Ok iso →
    M_bind __init__ (fun x0 => add x0 iso) h = Ok (x, h1) →
    ∃ i h2,
      is_identity h2 i ∧
      (∀ l a, h !! l = Some a → h2 !! l = Some a) ∧
      dict_to_dist_body counted_AA isotopes dist AA h = add dist i h2.
Proof.
  split; [reflexivity|]. split.
  - eexists _, _. split; [apply mult_0_eq|].
    split; [reflexivity|]. split; [reflexivity|]. cbn [intensities].
    apply lookup_alloc_old, lookup_alloc.
  - intros counted_AA isotopes dist AA iso x h1 Hcount Hiso Hx.
    exists {| m0 := f_zero; dm := 1; intensities := length h1 |},
           ((h1 ++ [[f_one]]) ++ [[f_one]]).
    split; [|split].
    + split; [reflexivity|]. split; [reflexivity|]. cbn [intensities].
      apply lookup_alloc_old, lookup_alloc.
    + intros l a Hl.
      apply M_bind_Ok in Hx as (x0 & h0 & Hinit & Hadd).
      rewrite init_eq in Hinit. injection Hinit as <- <-.
      unfold add in Hadd.
      apply M_bind_Ok in Hadd as (a0 & h3 & Hload0 & Hadd).
      unfold load in Hload0. destruct (_ !! _) in Hload0; [|discriminate].
      injection Hload0 as <- <-.
      apply M_bind_Ok in Hadd as (a1 & h3 & Hload1 & Hadd).
      unfold load in Hload1. destruct (_ !! _) in Hload1; [|discriminate].
      injection Hload1 as <- <-.
      apply M_bind_Ok in Hadd as (r & h3 & Hfast & Hadd).
      unfold lift in Hfast. destruct (fast_add _ _ _ _ _ _ _); try discriminate.
      injection Hfast as <- <-.
      apply M_bind_Ok in Hadd as (l' & h3 & Halloc & Hret).
      unfold alloc in Halloc. injection Halloc as <- <-.
      unfold M_ret in Hret. injection Hret as <- <-.
      do 4 apply lookup_alloc_old. exact Hl.
    + unfold dict_to_dist_body.
      unfold M_bind at 1. rewrite init_eq.
      unfold M_bind at 1. unfold lift at 1. rewrite Hiso.
      apply M_bind_Ok in Hx as (x0 & h0 & Hinit & Hadd).
      rewrite init_eq in Hinit. injection Hinit as <- <-.
      unfold M_bind at 1. rewrite Hadd.
      unfold M_bind at 1. unfold lift at 1. rewrite Hcount.
      unfold M_bind at 1. rewrite mult_0_eq. reflexivity.
Qed.

End CopyAndMult0.

(** C5 (as stated) fails: the copy's [intensities] is the array of the
    original, so a write through the copy is seen through the original. *)
Lemma copy_independent_counterexample :
  ¬ (∀ c h', copy envelope_1 store_1 = Ok (c, h') →
             intensities c ≠ intensities envelope_1).
Proof.
  intros Hclaim.
  apply (Hclaim envelope_1 (store_1 ++ [[1%float]])); reflexivity.
Qed.

Lemma copy_write_through :
  ∃ c h', copy envelope_1 store_1 = Ok (c, h') ∧
          <[intensities c := [0.25; 0.5]%float]> h' !! intensities envelope_1
          = Some [0.25; 0.5]%float.
Proof. eexists _, _. split; [apply copy_eq|reflexivity]. Qed.

(** An element of count 0 in [dict_to_dist], on binary64. *)
Lemma mult_0_is_identity_witness :
  ∃ i h2,
    is_identity h2 i ∧
    (∀ l a, store_1 !! l = Some a → h2 !! l = Some a) ∧
    dict_to_dist_body [("H", 0%Z)] [("H", envelope_1)] envelope_1 "H" store_1
    = add envelope_1 i h2.
Proof.
  refine (proj2 (proj2 (mult_0_is_identity envelope_1 store_1))
            [("H", 0%Z)] [("H", envelope_1)] envelope_1 "H" envelope_1 _ _ _ _ _).
  - reflexivity.
  - reflexivity.
  - vm_compute. reflexivity.
Defined.

(** ** fast_add: the shape of a result and the pruning scan *)

Section FastAddFacts.

Context {F : Type} `{Float64 F}.

Local Open Scope Z_scope.

Lemma np_zeros_length (n : Z) (z : list F) :
  np_zeros n = Ok z → length z = Z.to_nat n ∧ 0 ≤ n.
Proof.
  unfold np_zeros. destruct (Z.ltb_spec n 0); [discriminate|].
  intros [= <-]. rewrite length_replicate. split; [reflexivity|assumption].
Qed.

Lemma accumulate_length (int0 int1 : list F) (i j : Z) (ni ni' : list F) :
  accumulate int0 int1 i j ni = Ok ni' → length ni' = length ni.
Proof.
  unfold accumulate. intros Hacc.
  apply res_bind_Ok in Hacc as (a & _ & Hacc).
  apply res_bind_Ok in Hacc as (b & _ & Hacc).
  apply res_bind_Ok in Hacc as (c & _ & Hacc).
  injection Hacc as <-. apply length_insert.
Qed.

Lemma convolve_length (dm0 : Z) (int0 : list F) (dm1 : Z) (int1 ni ni' : list F) :
  convolve dm0 int0 dm1 int1 ni = Ok ni' → length ni' = length ni.
Proof.
  unfold convolve.
  apply (for_each_inv (fun s => length s = length ni)); [|reflexivity].
  intros s i s' _ Hs.
  apply (for_each_inv (fun s => length s = length ni)); [|exact Hs].
  intros t j t' _ Ht Hacc. rewrite (accumulate_length _ _ _ _ _ _ Hacc). exact Ht.
Qed.

(** The steps a successful [fast_add] went through. *)
Lemma fast_add_Ok (m0 : F) (dm0 : Z) (int0 : list F) (m1 : F) (dm1 : Z)
    (int1 : list F) (P : F) (m : F) (d : Z) (ints : list F) :
  fast_add m0 dm0 int0 m1 dm1 int1 P = Ok (m, d, ints) →
  ∃ z ni mx,
    np_zeros (dm0 + dm1 - 1) = Ok z ∧
    convolve dm0 int0 dm1 int1 z = Ok ni ∧
    np_max ni = Ok mx ∧
    Z.of_nat (length ni) = dm0 + (dm1 - 1) ∧
    prune_loop (2 * length ni + 2) ni P (Z.of_nat (length ni)) = Ok d ∧
    m = f_add m0 m1 ∧
    ints = (fun v => f_div v mx) <$> ni.
Proof.
  unfold fast_add. intros Hrun.
  apply res_bind_Ok in Hrun as (z & Hz & Hrun).
  apply res_bind_Ok in Hrun as (ni & Hni & Hrun).
  apply res_bind_Ok in Hrun as (mx & Hmx & Hrun).
  apply res_bind_Ok in Hrun as (d' & Hd & Hrun).
  injection Hrun as <- <- <-.
  assert (Hlen : Z.of_nat (length ni) = dm0 + (dm1 - 1)).
  { destruct (np_zeros_length _ _ Hz) as [Hlz Hpos].
    rewrite (convolve_length _ _ _ _ _ _ Hni), Hlz. lia. }
  exists z, ni, mx. rewrite Hlen. repeat (split; [assumption || reflexivity|]).
  reflexivity.
Qed.

(** A result of [fast_add] has between 1 and [len(intensities)] peaks,
    and [len(intensities)] is [dm0 + dm1 - 1]. *)
Lemma fast_add_peak_count (m0 : F) (dm0 : Z) (int0 : list F) (m1 : F) (dm1 : Z)
    (int1 : list F) (P : F) (m : F) (d : Z) (ints : list F) :
  fast_add m0 dm0 int0 m1 dm1 int1 P = Ok (m, d, ints) →
  1 ≤ d ≤ Z.of_nat (length ints) ∧ Z.of_nat (length ints) = dm0 + dm1 - 1.
Proof.
  intros Hrun.
  apply fast_add_Ok in Hrun as (z & ni & mx & _ & _ & _ & Hlen & Hd & _ & ->).
  rewrite length_fmap. split; [|lia].
  exact (prune_loop_range _ _ _ _ Hd).
Qed.

(** [fast_add] never exhausts the budget of its scan. *)
Lemma fast_add_not_Stuck (m0 : F) (dm0 : Z) (int0 : list F) (m1 : F) (dm1 : Z)
    (int1 : list F) (P : F) :
  fast_add m0 dm0 int0 m1 dm1 int1 P ≠ Stuck.
Proof.
  unfold fast_add.
  destruct (np_zeros (dm0 + dm1 - 1)) as [z| | |] eqn:Hz; simpl; [|discriminate|discriminate|].
  - destruct (convolve dm0 int0 dm1 int1 z) as [ni| | |] eqn:Hni; simpl;
      [|discriminate|discriminate|].
    + destruct (np_max ni) as [mx| | |] eqn:Hmx; simpl; [|discriminate|discriminate|].
      * destruct (np_zeros_length _ _ Hz) as [Hlz Hpos].
        pose proof (convolve_length _ _ _ _ _ _ Hni) as Hl.
        pose proof (prune_loop_not_Stuck (2 * length ni + 2) ni P (dm0 + (dm1 - 1))) as Hfuel.
        destruct (prune_loop _ ni P _); simpl; [discriminate|discriminate|discriminate|].
        exfalso. apply Hfuel; [lia|lia|reflexivity].
      * destruct ni; discriminate.
    + exfalso. revert Hni. unfold convolve.
      generalize (range dm0) z. clear.
      intros xs. induction xs as [|i xs IH]; simpl; intros z; [discriminate|].
      destruct (for_each (range dm1) _ z) as [s| | |] eqn:Hin; simpl;
        [apply IH|discriminate|discriminate|].
      intros _. revert Hin. generalize (range dm1) z. clear.
      intros ys. induction ys as [|j ys IH]; simpl; intros z; [discriminate|].
      destruct (accumulate int0 int1 i j z) as [s| | |] eqn:Hacc; simpl;
        [apply IH|discriminate|discriminate|].
      intros _. revert Hacc. unfold accumulate.
      destruct (getitem int0 i) eqn:H0; simpl; [|discriminate|discriminate|];
        [|exfalso; exact (getitem_not_Stuck _ _ H0)].
      destruct (getitem int1 j) eqn:H1; simpl; [|discriminate|discriminate|];
        [|exfalso; exact (getitem_not_Stuck _ _ H1)].
      destruct (getitem z (i + j)) eqn:H2; simpl; [discriminate|discriminate|discriminate|].
      exfalso; exact (getitem_not_Stuck _ _ H2).
  - unfold np_zeros in Hz. destruct (_ <? _); discriminate.
Qed.

(** When every entry of [ni] is under the threshold the scan tests true
    at every peak count from [len(ni)] down to [-len(ni) + 1], zero and
    the negative ones included, and then reads outside the array. *)
Lemma prune_test_all_below (ni : list F) (P : F) :
  (∀ v, v ∈ ni → f_ltb v P = true) →
  ∀ d, - Z.of_nat (length ni) < d ≤ Z.of_nat (length ni) →
       prune_test ni P d = Ok true.
Proof.
  intros Hall d Hd.
  assert (Hpos : ∀ k, 0 < k ≤ Z.of_nat (length ni) → prune_test ni P k = Ok true).
  { intros k Hk. unfold prune_test.
    destruct (getitem_nonneg ni (k - 1)) as (v & Hv & ->); [lia|]. simpl.
    rewrite (Hall v); [reflexivity|]. eapply list_elem_of_lookup_2, Hv. }
  destruct (Z.le_gt_cases d 0) as [Hle|Hgt].
  - rewrite prune_test_wrap by lia. apply Hpos. lia.
  - apply Hpos. lia.
Qed.

Lemma prune_loop_all_below (ni : list F) (P : F) :
  (∀ v, v ∈ ni → f_ltb v P = true) →
  ∀ fuel d, - Z.of_nat (length ni) ≤ d ≤ Z.of_nat (length ni) →
            d + Z.of_nat (length ni) < Z.of_nat fuel →
            prune_loop fuel ni P d = OutOfBounds.
Proof.
  intros Hall. induction fuel as [|fuel IH]; intros d Hd Hfuel; [lia|]. simpl.
  destruct (decide (d = - Z.of_nat (length ni))) as [->|Hne].
  - rewrite prune_test_out_of_range by lia. reflexivity.
  - rewrite prune_test_all_below by (assumption || lia). simpl.
    apply IH; lia.
Qed.

End FastAddFacts.

Section Pruning.

Context {F : Type} `{Float64 F}.

Local Open Scope Z_scope.

(** What the scan of [fast_add] decides on: the entries of the raw
    convolution [ni], not those of the normalized array it returns.  The
    peak count [d] is the place of the highest raw entry that is not
    under the threshold. *)
Lemma fast_add_scans_raw (m0 : F) (dm0 : Z) (int0 : list F) (m1 : F) (dm1 : Z)
    (int1 : list F) (P : F) (m : F) (d : Z) (ints : list F) :
  fast_add m0 dm0 int0 m1 dm1 int1 P = Ok (m, d, ints) →
  ∃ z ni,
    np_zeros (dm0 + dm1 - 1) = Ok z ∧
    convolve dm0 int0 dm1 int1 z = Ok ni ∧
    prune_test ni P d = Ok false ∧
    ∀ k, d < k ≤ dm0 + dm1 - 1 → prune_test ni P k = Ok true.
Proof.
  intros Hrun.
  apply fast_add_Ok in Hrun as (z & ni & mx & Hz & Hni & _ & Hlen & Hd & _ & _).
  exists z, ni. split; [exact Hz|]. split; [exact Hni|].
  apply prune_loop_Ok in Hd as (_ & Hstop & Hpass).
  split; [exact Hstop|]. intros k Hk. apply Hpass. lia.
Qed.

(** C4 (as amended): [fast_add] has no guard for a convolution that is
    under the threshold everywhere, and surfaces no error.  It takes the
    maximum and divides by it as for any other input; the scan then finds
    its condition true at every peak count from [len(ni)] down to
    [-len(ni) + 1] (zero and the negative counts read the array from its
    end), and at peak count [-len(ni)] the index [dm0 - 1] leaves the
    array: the run reads outside the array.  No exception is raised there;
    what the call returns, if it returns, depends on what the memory
    beside the array holds. *)
Theorem fast_add_unguarded (m0 : F) (dm0 : Z) (int0 : list F) (m1 : F) (dm1 : Z)
    (int1 : list F) (P : F) (z ni : list F) :
  np_zeros (dm0 + dm1 - 1) = Ok z →
  convolve dm0 int0 dm1 int1 z = Ok ni →
  ni ≠ [] →
  (∀ v, v ∈ ni → f_ltb v P = true) →
  (∃ mx, np_max ni = Ok mx) ∧
  (∀ d, - Z.of_nat (length ni) < d ≤ Z.of_nat (length ni) →
        prune_test ni P d = Ok true) ∧
  prune_test ni P (- Z.of_nat (length ni)) = OutOfBounds ∧
  fast_add m0 dm0 int0 m1 dm1 int1 P = OutOfBounds.
Proof.
  intros Hz Hni Hne Hall.
  assert (Hmx : ∃ mx, np_max ni = Ok mx).
  { destruct ni as [|v ni']; [contradiction|]. eexists. reflexivity. }
  split; [exact Hmx|].
  split; [apply prune_test_all_below; exact Hall|].
  split; [apply prune_test_out_of_range; lia|].
  destruct Hmx as [mx Hmx].
  unfold fast_add. rewrite Hz. simpl. rewrite Hni. simpl. rewrite Hmx. simpl.
  destruct (np_zeros_length _ _ Hz) as [Hlz Hpos].
  pose proof (convolve_length _ _ _ _ _ _ Hni) as Hl.
  rewrite (prune_loop_all_below ni P Hall); [reflexivity| |]; lia.
Qed.

End Pruning.

(** C1 on binary64, at the envelopes [[1.0, 1.0, 1.5e-6]] (3 peaks) and
    [[1.0, 1.0]] (2 peaks): the raw convolution ends in [1.5e-6], which is
    not under [1e-6], so [fast_add] keeps 4 peaks; its normalized value
    [7.5e-7] is under the threshold, and the scan of the specification
    keeps 3. *)
Lemma fast_add_prunes_raw :
  ∃ ints v,
    fast_add 0%float 3 [1; 1; 1.5e-6]%float 0%float 2 [1; 1]%float f_prune
    = Ok (0%float, 4%Z, ints) ∧
    length ints = 4%nat ∧
    ints !! 3%nat = Some v ∧ f_ltb v f_prune = true ∧
    spec_peak_count f_prune ints 4 = 3%nat.
Proof.
  eexists _, _. split; [vm_compute; reflexivity|].
  repeat split; vm_compute; reflexivity.
Qed.

(** C4 (as stated) fails on binary64 at two envelopes of one peak of
    intensity 0.0: the maximum 0.0 is divided by (0.0 / 0.0 is a NaN), the
    scan goes on at peak counts 1 and 0 without any error, and at peak
    count -1 it reads index -2 of a one-element array, outside the array;
    no exception is raised on the way. *)
Lemma degenerate_convolution_counterexample :
  ¬ (∀ d : Z, (d < 1)%Z → prune_test [0%float] f_prune d ≠ Ok true) ∧
  res_bind (np_zeros 1) (convolve 1 [0%float] 1 [0%float]) = Ok [0%float] ∧
  np_max [0%float] = Ok 0%float ∧
  f_isnan (f_div 0%float 0%float) = true ∧
  prune_test [0%float] f_prune 1 = Ok true ∧
  prune_test [0%float] f_prune 0 = Ok true ∧
  prune_test [0%float] f_prune (-1) = OutOfBounds ∧
  fast_add 0%float 1 [0%float] 0%float 1 [0%float] f_prune = OutOfBounds ∧
  (∀ e, fast_add 0%float 1 [0%float] 0%float 1 [0%float] f_prune ≠ Raise e).
Proof.
  split.
  - intros Hclaim. apply (Hclaim 0%Z); [lia|]. vm_compute. reflexivity.
  - repeat split; try (vm_compute; reflexivity).
    intros e. vm_compute. discriminate.
Qed.

Lemma fast_add_unguarded_witness :
  (∃ mx, np_max [0%float] = Ok mx) ∧
  (∀ d, (- 1 < d ≤ 1)%Z → prune_test [0%float] f_prune d = Ok true) ∧
  prune_test [0%float] f_prune (- 1) = OutOfBounds ∧
  fast_add 0%float 1 [0%float] 0%float 1 [0%float] f_prune = OutOfBounds.
Proof.
  refine (fast_add_unguarded 0%float 1 [0%float] 0%float 1 [0%float] f_prune
            [0%float] [0%float] _ _ _ _).
  - reflexivity.
  - vm_compute. reflexivity.
  - discriminate.
  - intros v Hv. apply list_elem_of_singleton in Hv as ->. vm_compute. reflexivity.
Defined.

(** ** The averagine estimator and the mass of a precursor *)

(** C8: for every input mass and every table, [get_average_formula] with
    [sulphur=False] raises [NotImplementedError]; no composition is
    returned. *)
Theorem get_average_formula_no_sulphur {F : Type} `{Float64 F}
    (averagine_avg molecule_mass : F) (averagine_aa : Dict.t F)
    (isotopes : Dict.t (IsotopeDistribution F)) :
  get_average_formula averagine_avg molecule_mass averagine_aa isotopes false
  = Raise NotImplementedError.
Proof. reflexivity. Qed.

(** [abs] of an int64 other than [-2^63] is the absolute value. *)
Lemma wrap64_abs (charge : Z) :
  (- 2 ^ 63 < charge < 2 ^ 63)%Z → wrap64 (Z.abs charge) = Z.abs charge.
Proof. intros Hc. apply wrap64_small. unfold in_int64. lia. Qed.

(** [calculate_mass] is the formula of the docstring, in any arithmetic,
    with the [abs] of an int64. *)
Lemma calculate_mass_formula {F : Type} `{Float64 F} (M_PROTON mono_mz : F) (charge : Z) :
  calculate_mass M_PROTON mono_mz charge
  = f_sub (f_mul mono_mz (f_of_int (wrap64 (Z.abs charge))))
          (f_mul (f_of_int charge) M_PROTON).
Proof. reflexivity. Qed.

(** C9 (as amended): in exact arithmetic, for every [mono_mz] and every
    non-zero int64 charge other than [-2^63], [calculate_mass] is
    [mono_mz * |charge| - charge * proton_mass], and the [mono_mz] obtained
    from a precursor mass by the inverse formula
    [(precursor_mass + charge * proton_mass) / |charge|] gives the
    precursor mass back. *)
Theorem calculate_mass_roundtrip (M_PROTON mono_mz precursor_mass : R) (charge : Z) :
  charge ≠ 0%Z →
  (- 2 ^ 63 < charge < 2 ^ 63)%Z →
  calculate_mass M_PROTON mono_mz charge
  = (mono_mz * IZR (Z.abs charge) - IZR charge * M_PROTON)%R ∧
  calculate_mass M_PROTON
    ((precursor_mass + IZR charge * M_PROTON) / IZR (Z.abs charge))%R charge
  = precursor_mass.
Proof.
  intros Hcharge Hrange.
  unfold calculate_mass. rewrite (wrap64_abs charge Hrange). simpl.
  split; [reflexivity|].
  assert (IZR (Z.abs charge) ≠ 0%R) by (apply not_0_IZR; lia).
  field. assumption.
Qed.

Lemma calculate_mass_roundtrip_witness :
  calculate_mass 1%R 501%R 2%Z = (501 * IZR (Z.abs 2) - IZR 2 * 1)%R ∧
  calculate_mass 1%R ((1000 + IZR 2 * 1) / IZR (Z.abs 2))%R 2%Z = 1000%R.
Proof. apply (calculate_mass_roundtrip 1 501 1000 2); [discriminate|lia]. Defined.

(** C9 (as stated) fails at the charge [-2^63], a non-zero int64: its
    [abs] wraps around to [-2^63], and for [mono_mz = 2] and a proton mass
    of 1 the call returns [2 * (-2^63) + 2^63 = -2^63], where the formula
    with [|charge| = 2^63] gives [2 * 2^63 + 2^63]. *)
Lemma calculate_mass_counterexample :
  in_int64 (- 2 ^ 63) ∧
  (- 2 ^ 63)%Z ≠ 0%Z ∧
  calculate_mass 1%R 2%R (- 2 ^ 63) = IZR (- 2 ^ 63) ∧
  calculate_mass 1%R 2%R (- 2 ^ 63)
  ≠ (2 * IZR (Z.abs (- 2 ^ 63)) - IZR (- 2 ^ 63) * 1)%R.
Proof.
  assert (Hrun : calculate_mass 1%R 2%R (- 2 ^ 63) = IZR (- 2 ^ 63)).
  { unfold calculate_mass.
    replace (wrap64 (Z.abs (- 2 ^ 63))) with (- 2 ^ 63)%Z by (vm_compute; reflexivity).
    simpl f_sub. simpl f_mul. simpl f_of_int. lra. }
  split; [unfold in_int64; lia|]. split; [discriminate|]. split; [exact Hrun|].
  rewrite Hrun.
  replace (Z.abs (- 2 ^ 63)) with (2 ^ 63)%Z by (vm_compute; reflexivity).
  replace (- 2 ^ 63)%Z with (- (2 ^ 63))%Z by reflexivity.
  rewrite opp_IZR.
  assert (0 < IZR (2 ^ 63))%R by (apply IZR_lt; lia).
  lra.
Qed.

(** The round trip on binary64 for the charges 1, 2, 3 and -1, a precursor
    mass of 1000.0 and a proton mass of 1.00727646687: the mass comes back
    to within 1e-9. *)
Lemma calculate_mass_roundtrip_binary64 :
  Forall (fun charge : Z =>
            let M_PROTON := 1.00727646687%float in
            let mono_mz :=
              f_div (f_add 1000%float (f_mul (f_of_int charge) M_PROTON))
                    (f_of_int (Z.abs charge)) in
            f_ltb (PrimFloat.abs (f_sub (calculate_mass M_PROTON mono_mz charge)
                                        1000%float))
                  1e-9%float = true)
         [1; 2; 3; -1]%Z.
Proof. repeat constructor. Qed.

(** ** Envelopes in the store *)

Section StoreFacts.

Context {F : Type} `{Float64 F}.

Local Open Scope Z_scope.

Lemma M_for_each_inv {A S} (P : S → heap F → Prop) (xs : list A)
    (body : S → A → M F S) :
  (∀ s x h s' h', x ∈ xs → P s h → body s x h = Ok (s', h') → P s' h') →
  ∀ s h s' h', P s h → M_for_each xs body s h = Ok (s', h') → P s' h'.
Proof.
  induction xs as [|x xs IH]; simpl; intros Hbody s h s' h' Hs Hrun.
  - injection Hrun as <- <-. exact Hs.
  - apply M_bind_Ok in Hrun as (s1 & h1 & H1 & Hrun).
    apply (IH (fun s x h s' h' Hx => Hbody s x h s' h' (list_elem_of_further _ _ _ Hx))
              s1 h1 s' h'); [|exact Hrun].
    apply (Hbody s x h s1 h1); [left|exact Hs|exact H1].
Qed.

Lemma lift_Ok {A} (r : res A) (h : heap F) (a : A) (h' : heap F) :
  lift r h = Ok (a, h') ↔ r = Ok a ∧ h' = h.
Proof.
  unfold lift. destruct r; split; try discriminate.
  - intros [= -> ->]. split; reflexivity.
  - intros [[= ->] ->]. reflexivity.
  - intros [? _]. discriminate.
  - intros [? _]. discriminate.
  - intros [? _]. discriminate.
Qed.

Lemma load_Ok (l : loc) (h : heap F) (a : list F) (h' : heap F) :
  load l h = Ok (a, h') ↔ h !! l = Some a ∧ h' = h.
Proof.
  unfold load. destruct (h !! l); split; try discriminate.
  - intros [= -> ->]. split; reflexivity.
  - intros [[= ->] ->]. reflexivity.
  - intros [? _]. discriminate.
Qed.

(** The steps of a successful [add]: both arrays are read, [fast_add]
    succeeds, its array is stored at the next free reference. *)
Lemma add_Ok (self x r : IsotopeDistribution F) (h h' : heap F) :
  add self x h = Ok (r, h') →
  ∃ a b m d ints,
    h !! intensities self = Some a ∧
    h !! intensities x = Some b ∧
    fast_add (m0 self) (dm self) a (m0 x) (dm x) b f_prune = Ok (m, d, ints) ∧
    r = {| m0 := f_to_f32 m; dm := d; intensities := length h |} ∧
    h' = h ++ [ints].
Proof.
  unfold add. intros Hrun.
  apply M_bind_Ok in Hrun as (a & h1 & Ha & Hrun). apply load_Ok in Ha as [Ha ->].
  apply M_bind_Ok in Hrun as (b & h1 & Hb & Hrun). apply load_Ok in Hb as [Hb ->].
  apply M_bind_Ok in Hrun as ([[m d] ints] & h1 & Hf & Hrun).
  apply lift_Ok in Hf as [Hf ->].
  apply M_bind_Ok in Hrun as (l & h1 & Hl & Hrun).
  unfold alloc in Hl. injection Hl as <- <-.
  unfold M_ret in Hrun. injection Hrun as <- <-.
  exists a, b, m, d, ints. repeat (split; [assumption || reflexivity|]). reflexivity.
Qed.

(** [add] run on envelopes whose arrays are known. *)
Lemma add_eq (self x : IsotopeDistribution F) (h : heap F) (a b : list F) :
  h !! intensities self = Some a →
  h !! intensities x = Some b →
  add self x h =
  match fast_add (m0 self) (dm self) a (m0 x) (dm x) b f_prune with
  | Ok r => Ok ({| m0 := f_to_f32 r.1.1; dm := r.1.2; intensities := length h |},
                h ++ [r.2])
  | Raise e => Raise e
  | OutOfBounds => OutOfBounds
  | Stuck => Stuck
  end.
Proof.
  intros Ha Hb. unfold add, M_bind, load. rewrite Ha, Hb. unfold lift.
  destruct (fast_add _ _ _ _ _ _ _) as [r| | |]; reflexivity.
Qed.

Lemma add_well_formed (self x r : IsotopeDistribution F) (h h' : heap F) :
  add self x h = Ok (r, h') → well_formed h' r.
Proof.
  intros Hrun.
  apply add_Ok in Hrun as (a & b & m & d & ints & _ & _ & Hf & -> & ->).
  exists ints. split; [apply lookup_alloc|].
  apply fast_add_peak_count in Hf as [Hd _]. exact Hd.
Qed.

Lemma init_well_formed (r : IsotopeDistribution F) (h h' : heap F) :
  __init__ h = Ok (r, h') → well_formed h' r.
Proof.
  rewrite init_eq. intros [= <- <-].
  exists [f_one]. split; [apply lookup_alloc|]. simpl. lia.
Qed.

Lemma dict_to_dist_well_formed (counted_AA : Dict.t Z)
    (isotopes : Dict.t (IsotopeDistribution F)) (dist : IsotopeDistribution F)
    (h h' : heap F) :
  dict_to_dist counted_AA isotopes h = Ok (dist, h') → well_formed h' dist.
Proof.
  unfold dict_to_dist. intros Hrun.
  apply M_bind_Ok in Hrun as (d0 & h0 & Hinit & Hrun).
  revert Hrun.
  apply (M_for_each_inv (fun s h => well_formed h s)); [|eapply init_well_formed, Hinit].
  intros s AA h1 s' h1' _ _. unfold dict_to_dist_body. intros Hbody.
  apply M_bind_Ok in Hbody as (x & h2 & _ & Hbody).
  apply M_bind_Ok in Hbody as (iso & h3 & _ & Hbody).
  apply M_bind_Ok in Hbody as (x1 & h4 & _ & Hbody).
  apply M_bind_Ok in Hbody as (n & h5 & _ & Hbody).
  apply M_bind_Ok in Hbody as (x2 & h6 & _ & Hbody).
  eapply add_well_formed, Hbody.
Qed.

(** C2 (as amended): when [mass_to_dist] returns, its [masses] array has
    one entry [mono_offset + i] for every index [i] of the intensities
    array of the envelope built by [dict_to_dist], and the intensities it
    returns are that whole array; the array has at least [peak_count]
    entries, so every significant peak gets its mass, and so does every
    slot that pruning left behind it. *)
Theorem mass_to_dist_emits_every_slot (averagine_avg molecule_mass : F)
    (averagine_aa : Dict.t F) (isotopes : Dict.t (IsotopeDistribution F))
    (h h' : heap F) (masses ints : loc) :
  mass_to_dist averagine_avg molecule_mass averagine_aa isotopes h
  = Ok ((masses, ints), h') →
  ∃ counted_AA dist h1 a ms,
    get_average_formula averagine_avg molecule_mass averagine_aa isotopes true
    = Ok counted_AA ∧
    dict_to_dist counted_AA isotopes h = Ok (dist, h1) ∧
    ints = intensities dist ∧
    h' !! ints = Some a ∧
    h' !! masses = Some ms ∧
    length ms = length a ∧
    (∀ i : nat, (i < length a)%nat →
                ms !! i = Some (f_add (m0 dist) (f_of_int (Z.of_nat i)))) ∧
    1 ≤ dm dist ≤ Z.of_nat (length a).
Proof.
  unfold mass_to_dist. intros Hrun.
  apply M_bind_Ok in Hrun as (counted_AA & h0 & Hgaf & Hrun).
  apply lift_Ok in Hgaf as [Hgaf ->].
  apply M_bind_Ok in Hrun as (dist & h1 & Hdist & Hrun).
  apply M_bind_Ok in Hrun as (a & h2 & Ha & Hrun). apply load_Ok in Ha as [Ha ->].
  apply M_bind_Ok in Hrun as (l & h2 & Hl & Hrun).
  unfold alloc in Hl. injection Hl as <- <-.
  unfold M_ret in Hrun. injection Hrun as <- <- <-.
  destruct (dict_to_dist_well_formed _ _ _ _ _ Hdist) as (a' & Ha' & Hdm).
  rewrite Ha in Ha'. injection Ha' as <-.
  eexists counted_AA, dist, h1, a, _.
  split; [exact Hgaf|]. split; [exact Hdist|]. split; [reflexivity|].
  split; [apply lookup_alloc_old; exact Ha|].
  split; [apply lookup_alloc|].
  split; [unfold range; rewrite !length_fmap, length_seq; lia|].
  split; [|exact Hdm].
  intros i Hi. unfold range. rewrite Nat2Z.id.
  rewrite !list_lookup_fmap, lookup_seq_lt by exact Hi. reflexivity.
Qed.

End StoreFacts.

(** C2 (as stated) fails on these tables at mass 13.0: the composition is
    one carbon and one hydrogen, the last convolution has the raw entries
    [[1, 0.0011, 1e-7]] and prunes the third, so the envelope has 2 peaks
    in an array of 3; [mass_to_dist] returns the three masses 13, 14, 15
    and the three intensities. *)
Lemma mass_to_dist_counterexample :
  ∃ dist h1 masses ints h',
    get_average_formula 13%float 13%float averagine_aa_2 isotopes_2 true
    = Ok [("C", 1%Z); ("H", 1%Z)] ∧
    dict_to_dist [("C", 1%Z); ("H", 1%Z)] isotopes_2 store_2 = Ok (dist, h1) ∧
    dm dist = 2%Z ∧
    mass_to_dist 13%float 13%float averagine_aa_2 isotopes_2 store_2
    = Ok ((masses, ints), h') ∧
    h' !! masses = Some [13; 14; 15]%float ∧
    h' !! ints
    = Some [1; 0.0011000000000000001; 1.0000000000000001e-07]%float ∧
    ¬ (∀ ms, h' !! masses = Some ms → Z.of_nat (length ms) = dm dist).
Proof.
  eexists _, _, _, _, _.
  split; [vm_compute; reflexivity|].
  split; [vm_compute; reflexivity|].
  split; [reflexivity|].
  split; [vm_compute; reflexivity|].
  split; [vm_compute; reflexivity|].
  split; [vm_compute; reflexivity|].
  intros Hclaim. specialize (Hclaim [13; 14; 15]%float eq_refl). discriminate Hclaim.
Qed.

Lemma mass_to_dist_emits_every_slot_witness :
  ∃ h' masses ints,
    mass_to_dist 13%float 13%float averagine_aa_2 isotopes_2 store_2
    = Ok ((masses, ints), h') ∧
    ∃ counted_AA dist h1 a ms,
      get_average_formula 13%float 13%float averagine_aa_2 isotopes_2 true
      = Ok counted_AA ∧
      dict_to_dist counted_AA isotopes_2 store_2 = Ok (dist, h1) ∧
      ints = intensities dist ∧
      h' !! ints = Some a ∧
      h' !! masses = Some ms ∧
      length ms = length a ∧
      (∀ i : nat, (i < length a)%nat →
                  ms !! i = Some (f_add (m0 dist) (f_of_int (Z.of_nat i)))) ∧
      (1 ≤ dm dist ≤ Z.of_nat (length a))%Z.
Proof.
  eexists _, _, _. split; [vm_compute; reflexivity|].
  apply (mass_to_dist_emits_every_slot 13%float 13%float averagine_aa_2 isotopes_2
           store_2).
  vm_compute. reflexivity.
Defined.

(** ** Dictionaries *)

Section DictFacts.

Context {V : Type}.

Lemma Dict_get_elem_of (d : Dict.t V) (k : string) (v : V) :
  NoDup (Dict.keys d) → (k, v) ∈ d → Dict.get d k = Ok v.
Proof.
  unfold Dict.keys. induction d as [|[k' v'] d IH]; simpl; intros Hnd Hin.
  - apply elem_of_nil in Hin. contradiction.
  - apply NoDup_cons in Hnd as [Hk' Hnd].
    apply elem_of_cons in Hin as [[= -> ->]|Hin].
    + rewrite String.eqb_refl. reflexivity.
    + destruct (String.eqb_spec k k') as [->|_].
      * exfalso. apply Hk'. apply list_elem_of_fmap. exists (k', v). split; [reflexivity|exact Hin].
      * apply IH; assumption.
Qed.

Lemma Dict_get_Ok (d : Dict.t V) (k : string) (v : V) :
  Dict.get d k = Ok v → (k, v) ∈ d.
Proof.
  induction d as [|[k' v'] d IH]; simpl; [discriminate|].
  destruct (String.eqb_spec k k') as [->|_].
  - intros [= ->]. left.
  - intros Hget. right. apply IH, Hget.
Qed.

(** Assigning to a key the dictionary lacks appends it. *)
Lemma Dict_set_new (d : Dict.t V) (k : string) (v : V) :
  k ∉ Dict.keys d → Dict.set d k v = d ++ [(k, v)].
Proof.
  unfold Dict.keys. induction d as [|[k' v'] d IH]; simpl; intros Hk; [reflexivity|].
  apply not_elem_of_cons in Hk as [Hne Hk].
  destruct (String.eqb_spec k k') as [->|_]; [contradiction|].
  rewrite IH by exact Hk. reflexivity.
Qed.

Lemma Dict_get_snoc (d : Dict.t V) (k : string) (v : V) :
  k ∉ Dict.keys d → Dict.get (d ++ [(k, v)]) k = Ok v.
Proof.
  unfold Dict.keys. induction d as [|[k' v'] d IH]; simpl; intros Hk.
  - rewrite String.eqb_refl. reflexivity.
  - apply not_elem_of_cons in Hk as [Hne Hk].
    destruct (String.eqb_spec k k') as [->|_]; [contradiction|]. apply IH, Hk.
Qed.

(** Assigning to a key the dictionary has keeps the keys and their order. *)
Lemma Dict_keys_set (d : Dict.t V) (k : string) (v c : V) :
  Dict.get d k = Ok c → Dict.keys (Dict.set d k v) = Dict.keys d.
Proof.
  unfold Dict.keys. induction d as [|[k' v'] d IH]; simpl; [discriminate|].
  destruct (String.eqb_spec k k') as [->|_]; [reflexivity|].
  intros Hget. rewrite !fmap_cons, IH by exact Hget. reflexivity.
Qed.

End DictFacts.

(** ** Mass conservation of the averagine estimator, in exact arithmetic *)

Section Averagine.

Local Open Scope R_scope.

Abbreviation IDR := (IsotopeDistribution R).

(** Rounding to the nearest integer moves a number by at most one half. *)
Lemma rint_bound (x : R) : Rabs (IZR (Exact.rint x) - x) <= 1 / 2.
Proof.
  unfold Exact.rint.
  destruct (base_Int_part x) as [Hlo Hhi].
  destruct (Rlt_dec _ _) as [Hlt|Hge].
  - apply Rabs_le. lra.
  - assert (Hup : Rabs (IZR (Int_part x + 1) - x) <= 1 / 2)
      by (rewrite plus_IZR; apply Rabs_le; lra).
    destruct (Rlt_dec _ _) as [Hgt|Hle]; [exact Hup|].
    destruct (Z.even _); [|exact Hup].
    apply Rabs_le. lra.
Qed.

Lemma truediv_exact (x y : R) : y ≠ 0 → truediv x y = Ok (x / y).
Proof.
  intros Hy. unfold truediv. simpl. unfold Exact.is_zero.
  destruct (Req_dec_T y 0); [contradiction|reflexivity].
Qed.

Variable isotopes : Dict.t IDR.

Lemma mass_of_get (AA : string) (iso : IDR) :
  Dict.get isotopes AA = Ok iso → mass_of isotopes AA = m0 iso.
Proof. unfold mass_of. intros ->. reflexivity. Qed.

(** The loop of [get_average_formula] from any point on: the remaining
    keys are appended with their rounded counts and their masses added. *)
Lemma averagine_loop (averagine_units : R) (averagine_aa suf : Dict.t R) :
  (∀ k r, (k, r) ∈ suf → Dict.get averagine_aa k = Ok r) →
  (∀ k, k ∈ Dict.keys suf → ∃ iso, Dict.get isotopes k = Ok iso) →
  NoDup (Dict.keys suf) →
  ∀ counted_AA final_mass,
    (∀ k, k ∈ Dict.keys suf → k ∉ Dict.keys counted_AA) →
    for_each (Dict.keys suf)
      (fun (s : Dict.t Z * R) AA =>
         let (counted_AA, final_mass) := s in
         res_bind (Dict.get averagine_aa AA) (fun ratio =>
         let counted_AA :=
           Dict.set counted_AA AA (f_rint (f_mul averagine_units ratio)) in
         res_bind (Dict.get counted_AA AA) (fun c =>
         res_bind (Dict.get isotopes AA) (fun iso =>
         Ok (counted_AA, f_add final_mass (f_mul (f_of_int c) (m0 iso)))))))
      (counted_AA, final_mass)
    = Ok (counted_AA ++ counts averagine_units suf,
          final_mass + weighted isotopes (counts averagine_units suf)).
Proof.
  unfold Dict.keys.
  induction suf as [|[k r] suf IH]; simpl; intros Haa Hiso Hnd counted_AA final_mass Hfresh.
  - rewrite app_nil_r, Rplus_0_r. reflexivity.
  - apply NoDup_cons in Hnd as [Hk Hnd].
    rewrite (Haa k r) by left. simpl.
    rewrite Dict_set_new by (apply Hfresh; left).
    rewrite Dict_get_snoc by (apply Hfresh; left). simpl.
    destruct (Hiso k) as [iso Hget]; [left|]. rewrite Hget. simpl.
    rewrite IH.
    + rewrite <- app_assoc. simpl. rewrite (mass_of_get _ _ Hget).
      f_equal. f_equal. lra.
    + intros k' r' Hin. apply Haa. right. exact Hin.
    + intros k' Hin. apply Hiso. right. exact Hin.
    + exact Hnd.
    + intros k' Hin. unfold Dict.keys. rewrite fmap_app. simpl.
      intros Hin'. apply elem_of_app in Hin' as [Hin'|Hin'].
      * revert Hin'. apply Hfresh. right. exact Hin.
      * apply list_elem_of_singleton in Hin' as ->. contradiction.
Qed.

(** [total_mass] from any point on. *)
Lemma total_mass_loop (d suf : Dict.t Z) :
  (∀ k c, (k, c) ∈ suf → Dict.get d k = Ok c) →
  (∀ k, k ∈ Dict.keys suf → ∃ iso, Dict.get isotopes k = Ok iso) →
  ∀ total,
    for_each (Dict.keys suf)
      (fun total AA =>
         res_bind (Dict.get d AA) (fun c =>
         res_bind (Dict.get isotopes AA) (fun iso =>
         Ok (f_add total (f_mul (f_of_int c) (m0 iso))))))
      total
    = Ok (total + weighted isotopes suf).
Proof.
  unfold Dict.keys.
  induction suf as [|[k c] suf IH]; simpl; intros Hd Hiso total.
  - rewrite Rplus_0_r. reflexivity.
  - rewrite (Hd k c) by left. simpl.
    destruct (Hiso k) as [iso Hget]; [left|]. rewrite Hget. simpl.
    rewrite IH.
    + rewrite (mass_of_get _ _ Hget). f_equal. lra.
    + intros k' c' Hin. apply Hd. right. exact Hin.
    + intros k' Hin. apply Hiso. right. exact Hin.
Qed.

Lemma total_mass_weighted (d : Dict.t Z) :
  NoDup (Dict.keys d) →
  (∀ k, k ∈ Dict.keys d → ∃ iso, Dict.get isotopes k = Ok iso) →
  total_mass d isotopes = Ok (weighted isotopes d).
Proof.
  intros Hnd Hiso. unfold total_mass.
  rewrite (total_mass_loop d d).
  - simpl. rewrite Rplus_0_l. reflexivity.
  - intros k c Hin. apply Dict_get_elem_of; assumption.
  - exact Hiso.
Qed.

(** Changing one count changes the sum by the difference times the offset
    of that element. *)
Lemma weighted_set (d : Dict.t Z) (k : string) (c v : Z) :
  NoDup (Dict.keys d) →
  Dict.get d k = Ok c →
  weighted isotopes (Dict.set d k v)
  = weighted isotopes d + (IZR v - IZR c) * mass_of isotopes k.
Proof.
  unfold Dict.keys.
  induction d as [|[k' c'] d IH]; simpl; [discriminate|]. intros Hnd Hget.
  apply NoDup_cons in Hnd as [_ Hnd].
  destruct (String.eqb_spec k k') as [->|_].
  - injection Hget as ->. simpl. lra.
  - simpl. rewrite IH by assumption. lra.
Qed.

End Averagine.

Lemma counts_keys (averagine_units : R) (averagine_aa : Dict.t R) :
  Dict.keys (counts averagine_units averagine_aa) = Dict.keys averagine_aa.
Proof.
  unfold Dict.keys, counts. rewrite <- list_fmap_compose. reflexivity.
Qed.

(** C7 (as amended): in exact arithmetic, for every mass whose counts stay
    inside int64 (the rounded counts, the hydrogen correction and the
    corrected hydrogen count), with sulphur included, the composition
    returned by [get_average_formula] has a monoisotopic mass (the sum of
    count times element offset, the hydrogen correction included) within
    one hydrogen offset of the input mass; it is even within half of it.
    The tables are well formed: [averagine_avg] is not zero, the ratio
    table has hydrogen and distinct keys, every element of it is in the
    isotope table, and the hydrogen offset is positive. *)
Theorem averagine_mass_conservation (averagine_avg molecule_mass : R)
    (averagine_aa : Dict.t R) (isotopes : Dict.t (IsotopeDistribution R))
    (isoH : IsotopeDistribution R) :
  averagine_avg ≠ 0%R →
  NoDup (Dict.keys averagine_aa) →
  "H" ∈ Dict.keys averagine_aa →
  (∀ k, k ∈ Dict.keys averagine_aa → ∃ iso, Dict.get isotopes k = Ok iso) →
  Dict.get isotopes "H" = Ok isoH →
  (0 < m0 isoH)%R →
  let rounded := counts (molecule_mass / averagine_avg) averagine_aa in
  let h_correction :=
    Exact.rint ((molecule_mass - weighted isotopes rounded) / m0 isoH) in
  (∀ k c, (k, c) ∈ rounded → in_int64 c) →
  in_int64 h_correction →
  (∀ c, ("H", c) ∈ rounded → in_int64 (c + h_correction)) →
  ∃ counted_AA total,
    get_average_formula averagine_avg molecule_mass averagine_aa isotopes true
    = Ok counted_AA ∧
    total_mass counted_AA isotopes = Ok total ∧
    (Rabs (molecule_mass - total) <= m0 isoH / 2)%R ∧
    (Rabs (molecule_mass - total) <= m0 isoH)%R.
Proof.
  intros Havg Hnd HH Hiso HisoH Hpos rounded h_correction _ _ _.
  clear h_correction rounded.
  set (units := (molecule_mass / averagine_avg)%R).
  set (cs := counts units averagine_aa).
  assert (Hcs_keys : Dict.keys cs = Dict.keys averagine_aa) by apply counts_keys.
  assert (HcH : ∃ cH, Dict.get cs "H" = Ok cH).
  { unfold Dict.keys in HH. apply list_elem_of_fmap in HH as ([k r] & Hk & Hin).
    simpl in Hk. subst k. exists (Exact.rint (units * r)).
    apply Dict_get_elem_of; [rewrite Hcs_keys; exact Hnd|].
    unfold cs, counts. apply list_elem_of_fmap. exists ("H", r). split; [reflexivity|exact Hin]. }
  destruct HcH as [cH HcH].
  set (W := weighted isotopes cs).
  set (q := ((molecule_mass - (0 + W)) / m0 isoH)%R).
  set (result := Dict.set cs "H" (cH + Exact.rint q)%Z).
  assert (Hrun : get_average_formula averagine_avg molecule_mass averagine_aa
                   isotopes true = Ok result).
  { unfold get_average_formula.
    rewrite truediv_exact by exact Havg. simpl.
    rewrite (averagine_loop isotopes units averagine_aa averagine_aa).
    - simpl. rewrite HisoH. simpl.
      rewrite truediv_exact by lra. simpl.
      fold cs. rewrite HcH. reflexivity.
    - intros k r Hin. apply Dict_get_elem_of; assumption.
    - exact Hiso.
    - exact Hnd.
    - intros k _ Hin. apply elem_of_nil in Hin. exact Hin. }
  assert (Htotal : total_mass result isotopes
                   = Ok (W + IZR (Exact.rint q) * m0 isoH)%R).
  { rewrite total_mass_weighted.
    - unfold result. rewrite (weighted_set isotopes cs "H" cH).
      + rewrite (mass_of_get _ _ _ HisoH), plus_IZR. fold W. f_equal. lra.
      + rewrite Hcs_keys. exact Hnd.
      + exact HcH.
    - unfold result. rewrite (Dict_keys_set _ _ _ _ HcH), Hcs_keys. exact Hnd.
    - unfold result. rewrite (Dict_keys_set _ _ _ _ HcH), Hcs_keys. exact Hiso. }
  exists result, (W + IZR (Exact.rint q) * m0 isoH)%R.
  split; [exact Hrun|]. split; [exact Htotal|].
  assert (Hhalf : (Rabs (molecule_mass - (W + IZR (Exact.rint q) * m0 isoH))
                   <= m0 isoH / 2)%R).
  { pose proof (rint_bound q) as Hq.
    assert (Hq' : (- (1 / 2) <= IZR (Exact.rint q) - q <= 1 / 2)%R).
    { revert Hq. unfold Rabs. destruct (Rcase_abs _); lra. }
    assert (Hqm : (q * m0 isoH = molecule_mass - W)%R) by (unfold q; field; lra).
    apply Rabs_le. nra. }
  split; [exact Hhalf|]. lra.
Qed.

(** Rounding in exact arithmetic: a number within a half of an integer
    rounds to it. *)
Lemma rint_near (x : R) (n : Z) :
  (IZR n - 1 / 2 < x < IZR n + 1 / 2)%R → Exact.rint x = n.
Proof.
  intros Hx. pose proof (rint_bound x) as Hb.
  assert (Hb' : (- (1 / 2) <= IZR (Exact.rint x) - x <= 1 / 2)%R).
  { revert Hb. unfold Rabs. destruct (Rcase_abs _); lra. }
  assert (Hlt : (n - 1 < Exact.rint x < n + 1)%Z).
  { split; apply lt_IZR; [rewrite minus_IZR|rewrite plus_IZR]; lra. }
  lia.
Qed.

(** The rounded counts at mass 1000 for one carbon and one hydrogen per
    unit of mass 13: 77 atoms of each. *)
Lemma rint_1000_13 :
  counts (1000 / 13) [("C", 1%R); ("H", 1%R)] = [("C", 77%Z); ("H", 77%Z)].
Proof.
  unfold counts. simpl.
  rewrite (rint_near (1000 / 13 * 1) 77) by lra. reflexivity.
Qed.

(** The hydrogen correction for these counts, of mass 1001: one hydrogen
    less. *)
Lemma rint_correction :
  Exact.rint
    ((1000 - weighted [("C", {| m0 := 12%R; dm := 1; intensities := 0%nat |});
                       ("H", {| m0 := 1%R; dm := 1; intensities := 0%nat |})]
               [("C", 77%Z); ("H", 77%Z)]) / 1)
  = (-1)%Z.
Proof.
  apply rint_near. unfold weighted, mass_of. simpl. lra.
Qed.

(** The estimator at mass 1000 on exact tables: carbon of offset 12 and
    hydrogen of offset 1, one atom of each per averagine unit of mass 13. *)
Lemma averagine_mass_conservation_witness :
  ∃ counted_AA total,
    get_average_formula 13%R 1000%R [("C", 1%R); ("H", 1%R)]
      [("C", {| m0 := 12%R; dm := 1; intensities := 0%nat |});
       ("H", {| m0 := 1%R; dm := 1; intensities := 0%nat |})] true
    = Ok counted_AA ∧
    total_mass counted_AA
      [("C", {| m0 := 12%R; dm := 1; intensities := 0%nat |});
       ("H", {| m0 := 1%R; dm := 1; intensities := 0%nat |})] = Ok total ∧
    (Rabs (1000 - total) <= 1 / 2)%R ∧
    (Rabs (1000 - total) <= 1)%R.
Proof.
  apply (averagine_mass_conservation 13%R 1000%R [("C", 1%R); ("H", 1%R)]
           [("C", {| m0 := 12%R; dm := 1; intensities := 0%nat |});
            ("H", {| m0 := 1%R; dm := 1; intensities := 0%nat |})]
           {| m0 := 1%R; dm := 1; intensities := 0%nat |}).
  - lra.
  - unfold Dict.keys. simpl. apply NoDup_cons. split.
    + intros Hin. apply list_elem_of_singleton in Hin. discriminate.
    + apply NoDup_singleton.
  - unfold Dict.keys. simpl. right. left.
  - unfold Dict.keys. simpl. intros k Hk.
    apply elem_of_cons in Hk as [->|Hk]; [eexists; reflexivity|].
    apply list_elem_of_singleton in Hk as ->. eexists; reflexivity.
  - reflexivity.
  - simpl. lra.
  - intros k c Hin. rewrite rint_1000_13 in Hin.
    apply elem_of_cons in Hin as [[= -> ->]|Hin];
      [|apply list_elem_of_singleton in Hin as [= -> ->]];
      unfold in_int64; lia.
  - rewrite rint_1000_13. cbn [m0]. rewrite rint_correction. unfold in_int64; lia.
  - intros c Hin. rewrite rint_1000_13 in Hin. rewrite rint_1000_13. cbn [m0].
    rewrite rint_correction.
    apply elem_of_cons in Hin as [[=]|Hin].
    apply list_elem_of_singleton in Hin as [= ->].
    unfold in_int64; lia.
Defined.

(** C7 (as stated) fails on binary64 at the mass 1e17, with the tables
    [averagine_aa_2] and [isotopes_2] (carbon of offset 12, hydrogen of
    offset 1, one atom of each per averagine unit of mass 13): the
    estimator returns 7692307692307692 atoms of each, the sum of the two
    masses rounds to 1e17 in binary64, so the hydrogen correction is 0,
    and the mass of the composition, 99999999999999996, is 4 hydrogen
    offsets under the input mass.  (1e17, 12 and 1 are binary64 numbers,
    and the counts are far inside int64.) *)
Lemma averagine_mass_counterexample :
  ∃ c_C c_H,
    get_average_formula 13%float 1e17%float averagine_aa_2 isotopes_2 true
    = Ok [("C", c_C); ("H", c_H)] ∧
    in_int64 c_C ∧ in_int64 c_H ∧
    B64.nearest 1e17%float = Some (10 ^ 17)%Z ∧
    B64.nearest 12%float = Some 12%Z ∧
    B64.nearest 1%float = Some 1%Z ∧
    (10 ^ 17 - (c_C * 12 + c_H * 1) = 4)%Z ∧
    (1 < Z.abs (10 ^ 17 - (c_C * 12 + c_H * 1)))%Z.
Proof.
  exists 7692307692307692%Z, 7692307692307692%Z.
  split; [vm_compute; reflexivity|].
  split; [unfold in_int64; lia|]. split; [unfold in_int64; lia|].
  split; [vm_compute; reflexivity|].
  split; [vm_compute; reflexivity|].
  split; [vm_compute; reflexivity|].
  split; [reflexivity|]. vm_compute. reflexivity.
Qed.

(** The estimator on binary64 at mass 1000.0 with the tables
    [averagine_aa_2] and [isotopes_2]: 77 carbons and 76 hydrogens, of mass
    exactly 1000. *)
Lemma averagine_binary64_1000 :
  get_average_formula 13%float 1000%float averagine_aa_2 isotopes_2 true
  = Ok [("C", 77%Z); ("H", 76%Z)] ∧
  total_mass [("C", 77%Z); ("H", 76%Z)] isotopes_2 = Ok 1000%float.
Proof. split; vm_compute; reflexivity. Qed.

(** ** The normalization invariant, in exact arithmetic *)

Section Normalization.

Local Open Scope R_scope.

Lemma ltb_lt (x y : R) : Exact.ltb x y = true ↔ x < y.
Proof. unfold Exact.ltb. destruct (Rlt_dec x y); split; (discriminate || tauto). Qed.

Lemma ltb_ge (x y : R) : Exact.ltb x y = false ↔ y <= x.
Proof.
  unfold Exact.ltb. destruct (Rlt_dec x y); split; try discriminate; try lra; reflexivity.
Qed.

(** The running maximum is the start value or an entry, and bounds both. *)
Lemma max_loop_spec (a : list R) (m : R) :
  (max_loop m a = m ∨ max_loop m a ∈ a) ∧
  m <= max_loop m a ∧
  ∀ v, v ∈ a → v <= max_loop m a.
Proof.
  revert m. induction a as [|v a IH]; simpl; intros m.
  - split; [left; reflexivity|]. split; [lra|].
    intros v Hv. apply elem_of_nil in Hv. contradiction.
  - destruct (IH (if Exact.ltb m v then v else m)) as (Hin & Hle & Hall).
    destruct (Exact.ltb m v) eqn:Hmv.
    + apply ltb_lt in Hmv. split; [|split].
      * right. destruct Hin as [->|Hin]; [left|right; exact Hin].
      * lra.
      * intros w Hw. apply elem_of_cons in Hw as [->|Hw]; [exact Hle|apply Hall, Hw].
    + apply ltb_ge in Hmv. split; [|split].
      * destruct Hin as [Heq|Hin]; [left; exact Heq|right; right; exact Hin].
      * exact Hle.
      * intros w Hw. apply elem_of_cons in Hw as [->|Hw]; [lra|apply Hall, Hw].
Qed.

(** [np.max] returns an entry that bounds every entry. *)
Lemma np_max_spec (a : list R) (mx : R) :
  np_max a = Ok mx → mx ∈ a ∧ ∀ v, v ∈ a → v <= mx.
Proof.
  destruct a as [|v a]; simpl; [discriminate|]. intros [= <-].
  destruct (max_loop_spec a v) as (Hin & Hle & Hall). split.
  - destruct Hin as [->|Hin]; [left|right; exact Hin].
  - intros w Hw. apply elem_of_cons in Hw as [->|Hw]; [exact Hle|apply Hall, Hw].
Qed.

(** A list that holds 1 and nothing above it has maximum 1. *)
Lemma np_max_one (a : list R) :
  1 ∈ a → (∀ v, v ∈ a → v <= 1) → np_max a = Ok 1.
Proof.
  intros Hone Hall.
  destruct a as [|v a]; [apply elem_of_nil in Hone; contradiction|].
  destruct (np_max (v :: a)) as [mx| | |] eqn:Hmx; try discriminate.
  apply np_max_spec in Hmx as [Hin Hup].
  f_equal. apply Rle_antisym; [apply Hall, Hin|apply Hup, Hone].
Qed.

Lemma prune_test_false (ni : list R) (P : R) (d : Z) :
  (1 ≤ d ≤ Z.of_nat (length ni))%Z →
  prune_test ni P d = Ok false →
  ∃ v, ni !! Z.to_nat (d - 1) = Some v ∧ P <= v.
Proof.
  intros Hd. unfold prune_test.
  destruct (getitem_nonneg ni (d - 1)) as (v & Hv & ->); [lia|]. simpl.
  intros [= Hlt]. exists v. split; [exact Hv|]. apply ltb_ge, Hlt.
Qed.

Lemma prune_test_true (ni : list R) (P : R) (d : Z) (v : R) :
  (1 ≤ d ≤ Z.of_nat (length ni))%Z →
  ni !! Z.to_nat (d - 1) = Some v →
  prune_test ni P d = Ok true → v < P.
Proof.
  intros Hd Hv. unfold prune_test.
  destruct (getitem_nonneg ni (d - 1)) as (v' & Hv' & ->); [lia|]. simpl.
  rewrite Hv in Hv'. injection Hv' as <-.
  intros [= Hlt]. apply ltb_lt, Hlt.
Qed.

(** After a convolution the maximum of the first [peak_count] entries of
    the array [fast_add] returns is 1. *)
Lemma fast_add_normalized (m0 : R) (dm0 : Z) (int0 : list R) (m1 : R) (dm1 : Z)
    (int1 : list R) (m : R) (d : Z) (ints : list R) :
  fast_add m0 dm0 int0 m1 dm1 int1 f_prune = Ok (m, d, ints) →
  np_max (take (Z.to_nat d) ints) = Ok 1.
Proof.
  intros Hrun.
  pose proof (fast_add_Ok _ _ _ _ _ _ _ _ _ _ Hrun)
    as (z & ni & mx & _ & _ & Hmx & Hlen & Hd & _ & ->).
  pose proof (prune_loop_range _ _ _ _ Hd) as Hrange.
  apply prune_loop_Ok in Hd as (_ & Hstop & Hpass).
  apply np_max_spec in Hmx as [Hin Hup].
  destruct (prune_test_false _ _ _ Hrange Hstop) as (w & Hw & HPw).
  assert (HP : 0 < f_prune) by (simpl; lra).
  assert (Hmxpos : f_prune <= mx).
  { apply Rle_trans with w; [exact HPw|]. apply Hup. eapply list_elem_of_lookup_2, Hw. }
  apply list_elem_of_lookup_1 in Hin as [k Hk].
  assert (Hkd : (k < Z.to_nat d)%nat).
  { destruct (Nat.lt_ge_cases k (Z.to_nat d)) as [?|Hge]; [assumption|exfalso].
    pose proof (lookup_lt_Some _ _ _ Hk) as Hklen.
    assert (Hlt : mx < f_prune).
    { apply (prune_test_true ni f_prune (Z.of_nat k + 1)); [lia| |apply Hpass; lia].
      replace (Z.to_nat (Z.of_nat k + 1 - 1)) with k by lia. exact Hk. }
    lra. }
  rewrite <- fmap_take.
  apply np_max_one.
  - apply list_elem_of_fmap. exists mx. split; [change (1 = mx / mx); field; lra|].
    apply (list_elem_of_lookup_2 _ k). rewrite lookup_take_lt by exact Hkd. exact Hk.
  - intros v Hv. apply list_elem_of_fmap in Hv as (u & -> & Hu).
    apply elem_of_take in Hu as (i & Hi & _).
    assert (u <= mx) by (apply Hup; eapply list_elem_of_lookup_2, Hi).
    change (u / mx <= 1).
    apply Rmult_le_reg_r with mx; [lra|]. unfold Rdiv.
    rewrite Rmult_assoc, Rinv_l by lra. lra.
Qed.

End Normalization.

(** ** Loops that cannot fail *)

Lemma for_each_total {A S} (P : list A → S → Prop) (xs : list A)
    (body : S → A → res S) :
  (∀ pre x suf s, xs = pre ++ x :: suf → P pre s →
                  ∃ s', body s x = Ok s' ∧ P (pre ++ [x]) s') →
  ∀ s, P [] s → ∃ s', for_each xs body s = Ok s' ∧ P xs s'.
Proof.
  intros Hbody.
  assert (Hgen : ∀ suf pre s, xs = pre ++ suf → P pre s →
                              ∃ s', for_each suf body s = Ok s' ∧ P xs s').
  { induction suf as [|x suf IH]; simpl; intros pre s Hxs Hs.
    - exists s. rewrite app_nil_r in Hxs. subst pre. split; [reflexivity|exact Hs].
    - destruct (Hbody pre x suf s Hxs Hs) as (s1 & -> & Hs1). simpl.
      apply (IH (pre ++ [x])); [|exact Hs1].
      rewrite <- app_assoc. exact Hxs. }
  intros s Hs. apply (Hgen xs []); [reflexivity|exact Hs].
Qed.

Lemma M_for_each_total {F A S} (P : S → heap F → Prop) (xs : list A)
    (body : S → A → M F S) :
  (∀ s x h, x ∈ xs → P s h → ∃ s' h', body s x h = Ok (s', h') ∧ P s' h') →
  ∀ s h, P s h → ∃ s' h', M_for_each xs body s h = Ok (s', h') ∧ P s' h'.
Proof.
  induction xs as [|x xs IH]; simpl; intros Hbody s h Hs.
  - exists s, h. split; [reflexivity|exact Hs].
  - destruct (Hbody s x h) as (s1 & h1 & H1 & Hs1); [left|exact Hs|].
    unfold M_bind. rewrite H1.
    apply IH; [|exact Hs1].
    intros s2 y h2 Hy. apply Hbody. right. exact Hy.
Qed.

Lemma elem_of_range (n x : Z) : x ∈ range n ↔ (0 ≤ x < n)%Z.
Proof.
  unfold range. rewrite list_elem_of_fmap. split.
  - intros (k & -> & Hk). apply elem_of_seq in Hk. lia.
  - intros Hx. exists (Z.to_nat x). split; [lia|]. apply elem_of_seq. lia.
Qed.

(** [numba_bin] ends within its budget. *)
Lemma numba_bin_loop_total (fuel : nat) (decimal : Z) (binary : list Z) :
  (Z.abs decimal < Z.of_nat fuel)%Z →
  ∃ bs, numba_bin_loop fuel decimal binary = Ok bs.
Proof.
  revert decimal binary. induction fuel as [|fuel IH]; intros decimal binary Hfuel; [lia|].
  simpl. destruct (Z.eqb_spec decimal 0) as [_|Hne]; [eexists; reflexivity|].
  apply IH.
  assert (Z.abs (Z.quot decimal 2) < Z.abs decimal)%Z; [|lia].
  rewrite <- Z.quot_abs by lia. apply Z.quot_lt; lia.
Qed.

Lemma numba_bin_total (decimal : Z) : ∃ bs, numba_bin decimal = Ok bs.
Proof. apply numba_bin_loop_total. lia. Qed.

(** ** Convolutions of sound envelopes, in exact arithmetic *)

Section SoundConvolution.

Local Open Scope R_scope.

Lemma getitem_lookup (a : list R) (k : Z) (v : R) :
  (0 ≤ k)%Z → a !! Z.to_nat k = Some v → getitem a k = Ok v.
Proof.
  intros Hk Hv. pose proof (lookup_lt_Some _ _ _ Hv) as Hlt.
  destruct (getitem_nonneg a k) as (v' & Hv' & ->); [lia|].
  rewrite Hv in Hv'. injection Hv' as <-. reflexivity.
Qed.

Lemma accumulate_step (int0 int1 ni : list R) (i j : Z) (a b : R) :
  (0 ≤ i)%Z → (0 ≤ j)%Z →
  int0 !! Z.to_nat i = Some a →
  int1 !! Z.to_nat j = Some b →
  (i + j < Z.of_nat (length ni))%Z →
  ∃ c, ni !! Z.to_nat (i + j) = Some c ∧
       accumulate int0 int1 i j ni = Ok (<[Z.to_nat (i + j) := c + a * b]> ni).
Proof.
  intros Hi Hj Ha Hb Hlen.
  destruct (lookup_lt_is_Some_2 ni (Z.to_nat (i + j))) as [c Hc]; [lia|].
  exists c. split; [exact Hc|]. unfold accumulate.
  rewrite (getitem_lookup _ _ _ Hi Ha). simpl.
  rewrite (getitem_lookup _ _ _ Hj Hb). simpl.
  rewrite (getitem_lookup ni (i + j) c) by (lia || exact Hc). reflexivity.
Qed.

Lemma nonneg_insert (ni : list R) (k : nat) (x : R) :
  nonneg ni → 0 <= x → nonneg (<[k := x]> ni).
Proof.
  intros Hni Hx k' v Hv.
  destruct (decide (k = k')) as [->|Hne].
  - destruct (Nat.lt_ge_cases k' (length ni)) as [Hlt|Hge].
    + rewrite list_lookup_insert_eq in Hv by exact Hlt. injection Hv as <-. exact Hx.
    + rewrite list_insert_ge in Hv by exact Hge. apply (Hni _ _ Hv).
  - rewrite list_lookup_insert_ne in Hv by exact Hne. apply (Hni _ _ Hv).
Qed.

Lemma at_least_insert (ni : list R) (k k' : nat) (c x y : R) :
  ni !! k' = Some c → 0 <= y →
  at_least ni k x → at_least (<[k' := c + y]> ni) k x.
Proof.
  intros Hc Hy (v & Hv & Hxv).
  destruct (decide (k' = k)) as [->|Hne].
  - exists (c + y). rewrite list_lookup_insert_eq by (eapply lookup_lt_Some, Hc).
    split; [reflexivity|]. rewrite Hc in Hv. injection Hv as <-. lra.
  - exists v. rewrite list_lookup_insert_ne by exact Hne. split; [exact Hv|exact Hxv].
Qed.

Lemma take_lookup_nonneg (a : list R) (d : Z) (k : Z) (v : R) :
  (∀ v, v ∈ take (Z.to_nat d) a → Exact.ltb v 0 = false) →
  (0 ≤ k < d)%Z → a !! Z.to_nat k = Some v → 0 <= v.
Proof.
  intros Hall Hk Hv. apply ltb_ge, Hall.
  apply (list_elem_of_lookup_2 _ (Z.to_nat k)).
  rewrite lookup_take_lt by lia. exact Hv.
Qed.

(** The two loops of [fast_add] on arrays whose first [dm0] and [dm1]
    entries are not negative: they end, the entries of [ni] are not
    negative, and the entry [i + j] is at least [int0[i] * int1[j]]. *)
Lemma convolve_total (dm0 dm1 : Z) (int0 int1 z : list R) (i0 j0 : Z) (a b : R) :
  (1 ≤ dm0 ≤ Z.of_nat (length int0))%Z →
  (1 ≤ dm1 ≤ Z.of_nat (length int1))%Z →
  (∀ v, v ∈ take (Z.to_nat dm0) int0 → Exact.ltb v 0 = false) →
  (∀ v, v ∈ take (Z.to_nat dm1) int1 → Exact.ltb v 0 = false) →
  Z.of_nat (length z) = (dm0 + dm1 - 1)%Z →
  nonneg z →
  (0 ≤ i0 < dm0)%Z → (0 ≤ j0 < dm1)%Z →
  int0 !! Z.to_nat i0 = Some a →
  int1 !! Z.to_nat j0 = Some b →
  ∃ ni, convolve dm0 int0 dm1 int1 z = Ok ni ∧
        length ni = length z ∧ nonneg ni ∧
        at_least ni (Z.to_nat (i0 + j0)) (a * b).
Proof.
  intros Hdm0 Hdm1 Hpos0 Hpos1 Hlen Hz Hi0 Hj0 Ha Hb.
  unfold convolve.
  destruct (for_each_total
              (fun pre ni => length ni = length z ∧ nonneg ni ∧
                             (i0 ∈ pre → at_least ni (Z.to_nat (i0 + j0)) (a * b)))
              (range dm0)
              (fun ni i => for_each (range dm1)
                             (fun ni j => accumulate int0 int1 i j ni) ni))
    with (s := z) as (ni & Hrun & Hl & Hnn & Hbound).
  - intros pre i suf ni Hxs (Hl & Hnn & Hbound).
    assert (Hi : (0 ≤ i < dm0)%Z).
    { apply elem_of_range. rewrite Hxs. apply elem_of_app. right. left. }
    destruct (for_each_total
                (fun pre' ni => length ni = length z ∧ nonneg ni ∧
                                (i0 ∈ pre ∨ (i = i0 ∧ j0 ∈ pre') →
                                 at_least ni (Z.to_nat (i0 + j0)) (a * b)))
                (range dm1)
                (fun ni j => accumulate int0 int1 i j ni))
      with (s := ni) as (ni' & Hrun' & Hl' & Hnn' & Hbound').
    + intros pre' j suf' t Hys (Hlt & Hnnt & Hboundt).
      assert (Hj : (0 ≤ j < dm1)%Z).
      { apply elem_of_range. rewrite Hys. apply elem_of_app. right. left. }
      destruct (lookup_lt_is_Some_2 int0 (Z.to_nat i)) as [ai Hai]; [lia|].
      destruct (lookup_lt_is_Some_2 int1 (Z.to_nat j)) as [bj Hbj]; [lia|].
      pose proof (take_lookup_nonneg _ _ _ _ Hpos0 Hi Hai) as Hai0.
      pose proof (take_lookup_nonneg _ _ _ _ Hpos1 Hj Hbj) as Hbj0.
      destruct (accumulate_step int0 int1 t i j ai bj) as (c & Hc & ->);
        [lia|lia|exact Hai|exact Hbj|lia|].
      pose proof (Hnnt _ _ Hc) as Hc0.
      assert (Hprod : 0 <= ai * bj) by (apply Rmult_le_pos; assumption).
      eexists. split; [reflexivity|].
      split; [rewrite length_insert; exact Hlt|].
      split; [apply nonneg_insert; [exact Hnnt|lra]|].
      intros Hcase.
      assert (Hold : i0 ∈ pre ∨ (i = i0 ∧ j0 ∈ pre') ∨ (i = i0 ∧ j = j0)).
      { destruct Hcase as [?|[-> Hin]]; [left; assumption|].
        apply elem_of_app in Hin as [?|Hin]; [right; left; split; [reflexivity|assumption]|].
        apply list_elem_of_singleton in Hin. right. right. split; [reflexivity|congruence]. }
      destruct Hold as [Hold|[Hold|[-> ->]]].
      * apply at_least_insert; [exact Hc|exact Hprod|]. apply Hboundt. left. exact Hold.
      * apply at_least_insert; [exact Hc|exact Hprod|]. apply Hboundt. right. exact Hold.
      * exists (c + ai * bj).
        rewrite list_lookup_insert_eq by (eapply lookup_lt_Some, Hc).
        split; [reflexivity|].
        rewrite Ha in Hai. injection Hai as <-.
        rewrite Hb in Hbj. injection Hbj as <-. lra.
    + split; [exact Hl|]. split; [exact Hnn|].
      intros [Hin|[_ Hin]]; [apply Hbound, Hin|].
      apply elem_of_nil in Hin. contradiction.
    + exists ni'. split; [exact Hrun'|]. split; [exact Hl'|]. split; [exact Hnn'|].
      intros Hin. apply Hbound'.
      apply elem_of_app in Hin as [Hin|Hin]; [left; exact Hin|].
      apply list_elem_of_singleton in Hin. right. split; [congruence|].
      apply elem_of_range. exact Hj0.
  - split; [reflexivity|]. split; [exact Hz|].
    intros Hin. apply elem_of_nil in Hin. contradiction.
  - exists ni. split; [exact Hrun|]. split; [exact Hl|]. split; [exact Hnn|].
    apply Hbound. apply elem_of_range. exact Hi0.
Qed.

End SoundConvolution.

Section SoundEnvelopes.

Local Open Scope R_scope.

(** The scan ends when some entry is not under the threshold. *)
Lemma prune_loop_stops (ni : list R) (P : R) (k : nat) (v : R) :
  ni !! k = Some v → P <= v →
  ∀ fuel d, (Z.of_nat k < d ≤ Z.of_nat (length ni))%Z →
            (d ≤ Z.of_nat fuel)%Z →
            ∃ r, prune_loop fuel ni P d = Ok r.
Proof.
  intros Hk HP. induction fuel as [|fuel IH]; intros d Hd Hfuel; [lia|]. simpl.
  unfold prune_test.
  destruct (getitem_nonneg ni (d - 1)) as (w & Hw & ->); [lia|]. simpl.
  destruct (Exact.ltb w P) eqn:Hlt; [|eexists; reflexivity].
  apply IH; [|lia].
  assert (Z.of_nat k ≠ d - 1)%Z; [|lia].
  intros Heq. replace (Z.to_nat (d - 1)) with k in Hw by lia.
  rewrite Hk in Hw. injection Hw as <-. apply ltb_lt in Hlt. lra.
Qed.

Lemma np_max_one_inv (a : list R) :
  np_max a = Ok 1 → ∃ k, a !! k = Some 1.
Proof.
  intros Hmax. apply np_max_spec in Hmax as [Hin _].
  apply list_elem_of_lookup_1 in Hin. exact Hin.
Qed.

(** [fast_add] on two arrays whose significant entries are not negative
    and have maximum 1: it returns, and so has its result. *)
Lemma fast_add_total (m0 : R) (dm0 : Z) (int0 : list R) (m1 : R) (dm1 : Z)
    (int1 : list R) :
  (1 ≤ dm0 ≤ Z.of_nat (length int0))%Z →
  (∀ v, v ∈ take (Z.to_nat dm0) int0 → Exact.ltb v 0 = false) →
  np_max (take (Z.to_nat dm0) int0) = Ok 1 →
  (1 ≤ dm1 ≤ Z.of_nat (length int1))%Z →
  (∀ v, v ∈ take (Z.to_nat dm1) int1 → Exact.ltb v 0 = false) →
  np_max (take (Z.to_nat dm1) int1) = Ok 1 →
  ∃ d ints,
    fast_add m0 dm0 int0 m1 dm1 int1 f_prune = Ok (m0 + m1, d, ints) ∧
    (1 ≤ d ≤ Z.of_nat (length ints))%Z ∧
    (∀ v, v ∈ take (Z.to_nat d) ints → Exact.ltb v 0 = false) ∧
    np_max (take (Z.to_nat d) ints) = Ok 1.
Proof.
  intros Hdm0 Hpos0 Hmax0 Hdm1 Hpos1 Hmax1.
  destruct (np_max_one_inv _ Hmax0) as [i0 Hi0].
  destruct (np_max_one_inv _ Hmax1) as [j0 Hj0].
  pose proof (lookup_lt_Some _ _ _ Hi0) as Hi0lt. rewrite length_take in Hi0lt.
  pose proof (lookup_lt_Some _ _ _ Hj0) as Hj0lt. rewrite length_take in Hj0lt.
  rewrite lookup_take_lt in Hi0 by lia. rewrite lookup_take_lt in Hj0 by lia.
  set (z := replicate (Z.to_nat (dm0 + dm1 - 1)) 0 : list R).
  assert (Hz : np_zeros (dm0 + dm1 - 1) = Ok z).
  { unfold np_zeros. destruct (Z.ltb_spec (dm0 + dm1 - 1) 0); [lia|reflexivity]. }
  destruct (convolve_total dm0 dm1 int0 int1 z (Z.of_nat i0) (Z.of_nat j0) 1 1)
    as (ni & Hni & Hl & Hnn & (w & Hw & Hw1)).
  - exact Hdm0.
  - exact Hdm1.
  - exact Hpos0.
  - exact Hpos1.
  - unfold z. rewrite length_replicate. lia.
  - intros k v Hv. unfold z in Hv. apply lookup_replicate in Hv as [-> _]. lra.
  - lia.
  - lia.
  - rewrite Nat2Z.id. exact Hi0.
  - rewrite Nat2Z.id. exact Hj0.
  - assert (Hlz : length z = Z.to_nat (dm0 + dm1 - 1))
      by (unfold z; apply length_replicate).
    destruct ni as [|n0 ni'] eqn:Hnieq; [simpl in Hl; lia|]. rewrite <- Hnieq in *.
    assert (Hmx : ∃ mx, np_max ni = Ok mx) by (rewrite Hnieq; eexists; reflexivity).
    destruct Hmx as [mx Hmx].
    destruct (prune_loop_stops ni f_prune _ w Hw) with
      (fuel := (2 * length ni + 2)%nat) (d := (dm0 + (dm1 - 1))%Z) as [d Hd].
    + simpl. lra.
    + pose proof (lookup_lt_Some _ _ _ Hw). lia.
    + lia.
    + assert (Hrun : fast_add m0 dm0 int0 m1 dm1 int1 f_prune
                     = Ok (m0 + m1, d, (fun v => f_div v mx) <$> ni)).
      { unfold fast_add. rewrite Hz. cbn [res_bind]. rewrite Hni. cbn [res_bind].
        rewrite Hmx. cbn [res_bind]. rewrite Hd. reflexivity. }
      exists d, ((fun v => f_div v mx) <$> ni).
      split; [exact Hrun|].
      split; [apply (fast_add_peak_count _ _ _ _ _ _ _ _ _ _ Hrun)|].
      split; [|apply (fast_add_normalized _ _ _ _ _ _ _ _ _ Hrun)].
      intros v Hv. apply elem_of_take in Hv as (k & Hk & _).
      rewrite list_lookup_fmap in Hk.
      destruct (ni !! k) as [u|] eqn:Hu; [|discriminate]. injection Hk as <-.
      apply ltb_ge. change (0 <= u / mx).
      apply np_max_spec in Hmx as [_ Hup].
      assert (1 <= mx).
      { apply Rle_trans with w; [lra|]. apply Hup. eapply list_elem_of_lookup_2, Hw. }
      pose proof (Hnn _ _ Hu) as Hu0.
      unfold Rdiv. apply Rmult_le_pos; [exact Hu0|].
      apply Rlt_le, Rinv_0_lt_compat. lra.
Qed.

(** [fast_add] on two arrays whose significant entries are not negative,
    when the product of two of them is not under the threshold: it
    returns, and its result is sound. *)
Lemma fast_add_total_ge (m0 : R) (dm0 : Z) (int0 : list R) (m1 : R) (dm1 : Z)
    (int1 : list R) (i0 j0 : Z) (a b : R) :
  (1 ≤ dm0 ≤ Z.of_nat (length int0))%Z →
  (∀ v, v ∈ take (Z.to_nat dm0) int0 → Exact.ltb v 0 = false) →
  (1 ≤ dm1 ≤ Z.of_nat (length int1))%Z →
  (∀ v, v ∈ take (Z.to_nat dm1) int1 → Exact.ltb v 0 = false) →
  (0 ≤ i0 < dm0)%Z → (0 ≤ j0 < dm1)%Z →
  int0 !! Z.to_nat i0 = Some a →
  int1 !! Z.to_nat j0 = Some b →
  f_prune <= a * b →
  ∃ d ints,
    fast_add m0 dm0 int0 m1 dm1 int1 f_prune = Ok (m0 + m1, d, ints) ∧
    (1 ≤ d ≤ Z.of_nat (length ints))%Z ∧
    (∀ v, v ∈ take (Z.to_nat d) ints → Exact.ltb v 0 = false) ∧
    np_max (take (Z.to_nat d) ints) = Ok 1.
Proof.
  intros Hdm0 Hpos0 Hdm1 Hpos1 Hi0 Hj0 Ha Hb Hab.
  set (z := replicate (Z.to_nat (dm0 + dm1 - 1)) 0 : list R).
  assert (Hz : np_zeros (dm0 + dm1 - 1) = Ok z).
  { unfold np_zeros. destruct (Z.ltb_spec (dm0 + dm1 - 1) 0); [lia|reflexivity]. }
  destruct (convolve_total dm0 dm1 int0 int1 z i0 j0 a b)
    as (ni & Hni & Hl & Hnn & (w & Hw & Hwab)); try assumption.
  - unfold z. rewrite length_replicate. lia.
  - intros k v Hv. unfold z in Hv. apply lookup_replicate in Hv as [-> _]. lra.
  - assert (Hlz : length z = Z.to_nat (dm0 + dm1 - 1))
      by (unfold z; apply length_replicate).
    assert (HP : 0 < f_prune) by (simpl; lra).
    destruct ni as [|n0 ni'] eqn:Hnieq; [simpl in Hl; lia|]. rewrite <- Hnieq in *.
    assert (Hmx : ∃ mx, np_max ni = Ok mx) by (rewrite Hnieq; eexists; reflexivity).
    destruct Hmx as [mx Hmx].
    destruct (prune_loop_stops ni f_prune _ w Hw) with
      (fuel := (2 * length ni + 2)%nat) (d := (dm0 + (dm1 - 1))%Z) as [d Hd].
    + lra.
    + pose proof (lookup_lt_Some _ _ _ Hw). lia.
    + lia.
    + assert (Hrun : fast_add m0 dm0 int0 m1 dm1 int1 f_prune
                     = Ok (m0 + m1, d, (fun v => f_div v mx) <$> ni)).
      { unfold fast_add. rewrite Hz. cbn [res_bind]. rewrite Hni. cbn [res_bind].
        rewrite Hmx. cbn [res_bind]. rewrite Hd. reflexivity. }
      exists d, ((fun v => f_div v mx) <$> ni).
      split; [exact Hrun|].
      split; [apply (fast_add_peak_count _ _ _ _ _ _ _ _ _ _ Hrun)|].
      split; [|apply (fast_add_normalized _ _ _ _ _ _ _ _ _ Hrun)].
      intros v Hv. apply elem_of_take in Hv as (k & Hk & _).
      rewrite list_lookup_fmap in Hk.
      destruct (ni !! k) as [u|] eqn:Hu; [|discriminate]. injection Hk as <-.
      apply ltb_ge. change (0 <= u / mx).
      apply np_max_spec in Hmx as [_ Hup].
      assert (f_prune <= mx).
      { apply Rle_trans with w; [lra|]. apply Hup. eapply list_elem_of_lookup_2, Hw. }
      pose proof (Hnn _ _ Hu) as Hu0.
      unfold Rdiv. apply Rmult_le_pos; [exact Hu0|].
      apply Rlt_le, Rinv_0_lt_compat. lra.
Qed.

End SoundEnvelopes.

Lemma Dict_get_total {V} (d : Dict.t V) (k : string) :
  k ∈ Dict.keys d → ∃ v, Dict.get d k = Ok v.
Proof.
  unfold Dict.keys. induction d as [|[k' v'] d IH]; simpl; intros Hk.
  - apply elem_of_nil in Hk. contradiction.
  - destruct (String.eqb_spec k k') as [->|Hne]; [eexists; reflexivity|].
    apply elem_of_cons in Hk as [?|Hk]; [contradiction|]. apply IH, Hk.
Qed.

Section SoundStore.

Local Open Scope R_scope.

Abbreviation IDR := (IsotopeDistribution R).

Lemma sound_prefix (h h' : heap R) (e : IDR) :
  sound h e → h `prefix_of` h' → sound h' e.
Proof.
  intros (a & Ha & Hrest) Hpre. exists a. split; [|exact Hrest].
  eapply prefix_lookup_Some; eassumption.
Qed.

Lemma init_sound (h : heap R) :
  ∃ r h', __init__ h = Ok (r, h') ∧ h `prefix_of` h' ∧ sound h' r.
Proof.
  eexists _, _. split; [apply init_eq|]. split; [apply prefix_app_r; reflexivity|].
  exists [1%R]. split; [apply lookup_alloc|]. simpl. split; [lia|]. split; [|reflexivity].
  intros v Hv. apply list_elem_of_singleton in Hv as ->. apply ltb_ge. lra.
Qed.

Lemma copy_sound (E : IDR) (h : heap R) :
  sound h E →
  ∃ c h', copy E h = Ok (c, h') ∧ h `prefix_of` h' ∧ sound h' c.
Proof.
  intros HE. eexists _, _. split; [apply copy_eq|].
  assert (Hpre : h `prefix_of` h ++ [[f_one]]) by (apply prefix_app_r; reflexivity).
  split; [exact Hpre|]. eapply sound_prefix; eassumption.
Qed.

(** The convolution of two sound envelopes returns a sound envelope. *)
Lemma add_sound (self x : IDR) (h : heap R) :
  sound h self → sound h x →
  ∃ r h', add self x h = Ok (r, h') ∧ h `prefix_of` h' ∧ sound h' r.
Proof.
  intros (a & Ha & Hda & Hpa & Hma) (b & Hb & Hdb & Hpb & Hmb).
  destruct (fast_add_total (m0 self) (dm self) a (m0 x) (dm x) b)
    as (d & ints & Hrun & Hd & Hp & Hm); try assumption.
  eexists _, _. split; [rewrite (add_eq self x h a b Ha Hb), Hrun; reflexivity|].
  split; [apply prefix_app_r; reflexivity|].
  exists ints. split; [apply lookup_alloc|]. simpl.
  split; [exact Hd|]. split; [exact Hp|exact Hm].
Qed.

(** A sound envelope is admissible. *)
Lemma sound_admissible (h : heap R) (e : IDR) : sound h e → admissible h e.
Proof.
  intros (a & Ha & Hd & Hp & Hm). exists a. split; [exact Ha|]. split; [exact Hd|].
  pose proof (np_max_spec _ _ Hm) as [Hin Hup].
  split.
  - intros v Hv. split; [apply Hp, Hv|]. apply ltb_ge. apply Hup, Hv.
  - exists 1. split; [exact Hin|]. apply ltb_ge. simpl. lra.
Qed.

Lemma admissible_prefix (h h' : heap R) (e : IDR) :
  admissible h e → h `prefix_of` h' → admissible h' e.
Proof.
  intros (a & Ha & Hrest) Hpre. exists a. split; [|exact Hrest].
  eapply prefix_lookup_Some; eassumption.
Qed.

(** An entry of the first [d] ones, with its place. *)
Lemma elem_of_take_lookup (a : list R) (d : Z) (v : R) :
  v ∈ take (Z.to_nat d) a → ∃ k, (0 ≤ k < d)%Z ∧ a !! Z.to_nat k = Some v.
Proof.
  intros Hv. apply elem_of_take in Hv as (k & Hk & Hlt).
  exists (Z.of_nat k). split; [lia|]. rewrite Nat2Z.id. exact Hk.
Qed.

(** The convolution of a sound envelope with an admissible one returns a
    sound envelope. *)
Lemma add_admissible (self x : IDR) (h : heap R) :
  sound h self → admissible h x →
  ∃ r h', add self x h = Ok (r, h') ∧ h `prefix_of` h' ∧ sound h' r.
Proof.
  intros (a & Ha & Hda & Hpa & Hma) (b & Hb & Hdb & Hpb & (v & Hv & HvP)).
  apply ltb_ge in HvP.
  pose proof (np_max_spec _ _ Hma) as [Hone _].
  apply elem_of_take_lookup in Hone as (i0 & Hi0 & Hai0).
  apply elem_of_take_lookup in Hv as (j0 & Hj0 & Hbj0).
  destruct (fast_add_total_ge (m0 self) (dm self) a (m0 x) (dm x) b i0 j0 1 v)
    as (d & ints & Hrun & Hd & Hp & Hm); try assumption.
  - intros u Hu. apply Hpb, Hu.
  - lra.
  - eexists _, _. split; [rewrite (add_eq self x h a b Ha Hb), Hrun; reflexivity|].
    split; [apply prefix_app_r; reflexivity|].
    exists ints. split; [apply lookup_alloc|]. simpl.
    split; [exact Hd|]. split; [exact Hp|exact Hm].
Qed.

(** And so does the convolution of an admissible envelope with a sound
    one. *)
Lemma add_admissible_l (self x : IDR) (h : heap R) :
  admissible h self → sound h x →
  ∃ r h', add self x h = Ok (r, h') ∧ h `prefix_of` h' ∧ sound h' r.
Proof.
  intros (a & Ha & Hda & Hpa & (v & Hv & HvP)) (b & Hb & Hdb & Hpb & Hmb).
  apply ltb_ge in HvP.
  pose proof (np_max_spec _ _ Hmb) as [Hone _].
  apply elem_of_take_lookup in Hone as (j0 & Hj0 & Hbj0).
  apply elem_of_take_lookup in Hv as (i0 & Hi0 & Hai0).
  destruct (fast_add_total_ge (m0 self) (dm self) a (m0 x) (dm x) b i0 j0 v 1)
    as (d & ints & Hrun & Hd & Hp & Hm); try assumption.
  - intros u Hu. apply Hpa, Hu.
  - lra.
  - eexists _, _. split; [rewrite (add_eq self x h a b Ha Hb), Hrun; reflexivity|].
    split; [apply prefix_app_r; reflexivity|].
    exists ints. split; [apply lookup_alloc|]. simpl.
    split; [exact Hd|]. split; [exact Hp|exact Hm].
Qed.

Lemma mult_body_sound (s : IDR * IDR) (count : Z) (h : heap R) :
  sound h s.1 → sound h s.2 →
  ∃ s' h', mult_body s count h = Ok (s', h') ∧ h `prefix_of` h' ∧
           sound h' s'.1 ∧ sound h' s'.2.
Proof.
  destruct s as [i multiples]. simpl. intros Hi Hm.
  assert (Hfirst : ∃ i1 h1, (if (count =? 1)%Z then add i multiples else M_ret i) h
                            = Ok (i1, h1) ∧ h `prefix_of` h1 ∧ sound h1 i1).
  { destruct (count =? 1)%Z.
    - apply add_sound; assumption.
    - exists i, h. split; [reflexivity|]. split; [reflexivity|exact Hi]. }
  destruct Hfirst as (i1 & h1 & Hrun1 & Hpre1 & Hi1).
  destruct (add_sound multiples multiples h1) as (m2 & h2 & Hrun2 & Hpre2 & Hm2);
    try (eapply sound_prefix; eassumption).
  exists (i1, m2), h2. unfold M_bind. rewrite Hrun1, Hrun2.
  split; [reflexivity|]. split; [etrans; eassumption|].
  split; [eapply sound_prefix; eassumption|exact Hm2].
Qed.

(** [mult] of a sound envelope returns a sound envelope, for every [n]. *)
Lemma mult_sound (E : IDR) (n : Z) (h : heap R) :
  sound h E →
  ∃ r h', mult E n h = Ok (r, h') ∧ h `prefix_of` h' ∧ sound h' r.
Proof.
  intros HE. unfold mult.
  destruct (numba_bin_total n) as [bs Hbs].
  unfold M_bind at 1. unfold lift. rewrite Hbs.
  destruct (n =? 1)%Z; [apply copy_sound, HE|].
  destruct (init_sound h) as (i & h1 & Hinit & Hpre1 & Hi).
  unfold M_bind at 1. rewrite Hinit.
  destruct (copy_sound E h1) as (m & h2 & Hcopy & Hpre2 & Hm);
    [eapply sound_prefix; eassumption|].
  unfold M_bind at 1. rewrite Hcopy.
  destruct (M_for_each_total
              (fun (s : IDR * IDR) h' => h2 `prefix_of` h' ∧ sound h' s.1 ∧ sound h' s.2)
              (rev bs) mult_body) with (s := (i, m)) (h := h2)
    as (s' & h3 & Hloop & Hpre3 & Hs1 & _).
  - intros s count h' _ (Hpre & H1 & H2).
    destruct (mult_body_sound s count h' H1 H2) as (s' & h'' & Hrun & Hpre' & H1' & H2').
    exists s', h''. split; [exact Hrun|]. split; [etrans; eassumption|].
    split; assumption.
  - split; [reflexivity|]. split; [eapply sound_prefix; eassumption|exact Hm].
  - exists s'.1, h3. unfold M_bind. rewrite Hloop.
    split; [reflexivity|]. split; [|exact Hs1].
    etrans; [exact Hpre1|]. etrans; eassumption.
Qed.

(** [dict_to_dist] on a table of sound envelopes that has every element of
    the composition returns a sound envelope. *)
Lemma dict_to_dist_sound (counted_AA : Dict.t Z) (isotopes : Dict.t IDR)
    (h : heap R) :
  (∀ k, k ∈ Dict.keys counted_AA →
        ∃ iso, Dict.get isotopes k = Ok iso ∧ sound h iso) →
  ∃ r h', dict_to_dist counted_AA isotopes h = Ok (r, h') ∧
          h `prefix_of` h' ∧ sound h' r.
Proof.
  intros Htable. unfold dict_to_dist.
  destruct (init_sound h) as (dist & h1 & Hinit & Hpre1 & Hdist).
  unfold M_bind. rewrite Hinit.
  destruct (M_for_each_total
              (fun (s : IDR) h' => h `prefix_of` h' ∧ sound h' s)
              (Dict.keys counted_AA) (dict_to_dist_body counted_AA isotopes))
    with (s := dist) (h := h1) as (r & h2 & Hloop & Hpre2 & Hr).
  - intros s AA h' HAA (Hpre & Hs).
    destruct (Htable AA HAA) as (iso & Hiso & Hsiso).
    destruct (Dict_get_total counted_AA AA HAA) as [n Hn].
    unfold dict_to_dist_body.
    destruct (init_sound h') as (x & h3 & Hx & Hpre3 & Hsx).
    unfold M_bind at 1. rewrite Hx.
    unfold M_bind at 1. unfold lift at 1. rewrite Hiso.
    destruct (add_sound x iso h3) as (x1 & h4 & Hx1 & Hpre4 & Hsx1);
      [exact Hsx|eapply sound_prefix; [exact Hsiso|etrans; eassumption]|].
    unfold M_bind at 1. rewrite Hx1.
    unfold M_bind at 1. unfold lift at 1. rewrite Hn.
    destruct (mult_sound x1 n h4 Hsx1) as (x2 & h5 & Hx2 & Hpre5 & Hsx2).
    unfold M_bind at 1. rewrite Hx2.
    assert (Hpre' : h' `prefix_of` h5) by (etrans; [exact Hpre3|]; etrans; eassumption).
    destruct (add_sound s x2 h5) as (r & h6 & Hr & Hpre6 & Hsr);
      [eapply sound_prefix; eassumption|exact Hsx2|].
    exists r, h6. split; [exact Hr|]. split; [|exact Hsr].
    etrans; [exact Hpre|]. etrans; eassumption.
  - split; [exact Hpre1|exact Hdist].
  - exists r, h2. split; [exact Hloop|]. split; [exact Hpre2|exact Hr].
Qed.

(** [dict_to_dist] on a table of admissible envelopes that has every
    element of the composition returns a sound envelope: the first
    convolution of an element, with the identity envelope, normalizes
    it. *)
Lemma dict_to_dist_admissible (counted_AA : Dict.t Z) (isotopes : Dict.t IDR)
    (h : heap R) :
  (∀ k, k ∈ Dict.keys counted_AA →
        ∃ iso, Dict.get isotopes k = Ok iso ∧ admissible h iso) →
  ∃ r h', dict_to_dist counted_AA isotopes h = Ok (r, h') ∧
          h `prefix_of` h' ∧ sound h' r.
Proof.
  intros Htable. unfold dict_to_dist.
  destruct (init_sound h) as (dist & h1 & Hinit & Hpre1 & Hdist).
  unfold M_bind. rewrite Hinit.
  destruct (M_for_each_total
              (fun (s : IDR) h' => h `prefix_of` h' ∧ sound h' s)
              (Dict.keys counted_AA) (dict_to_dist_body counted_AA isotopes))
    with (s := dist) (h := h1) as (r & h2 & Hloop & Hpre2 & Hr).
  - intros s AA h' HAA (Hpre & Hs).
    destruct (Htable AA HAA) as (iso & Hiso & Hsiso).
    destruct (Dict_get_total counted_AA AA HAA) as [n Hn].
    unfold dict_to_dist_body.
    destruct (init_sound h') as (x & h3 & Hx & Hpre3 & Hsx).
    unfold M_bind at 1. rewrite Hx.
    unfold M_bind at 1. unfold lift at 1. rewrite Hiso.
    destruct (add_admissible x iso h3) as (x1 & h4 & Hx1 & Hpre4 & Hsx1);
      [exact Hsx|eapply admissible_prefix; [exact Hsiso|etrans; eassumption]|].
    unfold M_bind at 1. rewrite Hx1.
    unfold M_bind at 1. unfold lift at 1. rewrite Hn.
    destruct (mult_sound x1 n h4 Hsx1) as (x2 & h5 & Hx2 & Hpre5 & Hsx2).
    unfold M_bind at 1. rewrite Hx2.
    assert (Hpre' : h' `prefix_of` h5) by (etrans; [exact Hpre3|]; etrans; eassumption).
    destruct (add_sound s x2 h5) as (r & h6 & Hr & Hpre6 & Hsr);
      [eapply sound_prefix; eassumption|exact Hsx2|].
    exists r, h6. split; [exact Hr|]. split; [|exact Hsr].
    etrans; [exact Hpre|]. etrans; eassumption.
  - split; [exact Hpre1|exact Hdist].
  - exists r, h2. split; [exact Hloop|]. split; [exact Hpre2|exact Hr].
Qed.

End SoundStore.

Lemma sound_normalized (h : heap R) (e : IsotopeDistribution R) :
  sound h e → normalized h e.
Proof. intros (a & Ha & _ & _ & Hmax). exists a. split; assumption. Qed.

Lemma add_normalized (self x r : IsotopeDistribution R) (h h' : heap R) :
  add self x h = Ok (r, h') → normalized h' r.
Proof.
  intros Hrun.
  apply add_Ok in Hrun as (a & b & m & d & ints & _ & _ & Hf & -> & ->).
  exists ints. split; [apply lookup_alloc|].
  apply (fast_add_normalized _ _ _ _ _ _ _ _ _ Hf).
Qed.

(** A sound envelope in exact arithmetic: two peaks [[1, 1/2]]. *)
Lemma sound_example :
  sound [[1%R; (1 / 2)%R]] {| m0 := 12%R; dm := 2; intensities := 0%nat |}.
Proof.
  exists [1%R; (1 / 2)%R]. split; [reflexivity|]. simpl. split; [lia|]. split.
  - intros v Hv. apply ltb_ge.
    apply elem_of_cons in Hv as [->|Hv]; [lra|].
    apply list_elem_of_singleton in Hv as ->. lra.
  - destruct (Exact.ltb 1 (1 / 2)) eqn:Hlt; [|reflexivity].
    apply ltb_lt in Hlt. lra.
Qed.

(** ** mult against the naive path *)

Section BinaryDigits.

Local Open Scope Z_scope.

(** The digits [numba_bin] prepends are those of [decimal], most
    significant first: read backwards they are worth [decimal]. *)
Lemma numba_bin_loop_digits (fuel : nat) (decimal : Z) (binary : list Z) :
  0 ≤ decimal < Z.of_nat fuel →
  ∃ ds, numba_bin_loop fuel decimal binary = Ok (rev ds ++ binary) ∧
        bits_value ds = decimal ∧
        Forall (fun b => b = 0 ∨ b = 1) ds.
Proof.
  revert decimal binary. induction fuel as [|fuel IH]; intros decimal binary Hd; [lia|].
  simpl. destruct (Z.eqb_spec decimal 0) as [->|Hne].
  - exists []. split; [reflexivity|]. split; [reflexivity|constructor].
  - destruct (IH (Z.quot decimal 2) (decimal mod 2 :: binary)) as (ds & Hrun & Hval & Hbits).
    + split; [apply Z.quot_pos; lia|].
      assert (Z.quot decimal 2 < decimal) by (apply Z.quot_lt; lia). lia.
    + exists (decimal mod 2 :: ds). split; [|split].
      * rewrite Hrun. simpl. rewrite <- app_assoc. reflexivity.
      * simpl. rewrite Hval. rewrite Z.quot_div_nonneg by lia.
        pose proof (Z.div_mod decimal 2). lia.
      * constructor; [|exact Hbits].
        pose proof (Z.mod_pos_bound decimal 2). lia.
Qed.

Lemma numba_bin_digits (n : Z) :
  0 ≤ n →
  ∃ ds, numba_bin n = Ok (rev ds) ∧ bits_value ds = n ∧
        Forall (fun b => b = 0 ∨ b = 1) ds.
Proof.
  intros Hn. destruct (numba_bin_loop_digits (S (Z.abs_nat n)) n []) as (ds & Hrun & Hrest);
    [lia|].
  exists ds. rewrite app_nil_r in Hrun. split; [exact Hrun|exact Hrest].
Qed.

End BinaryDigits.

Section MultRefinesNaive.

Context {F : Type} `{Float64 F}.

Local Open Scope Z_scope.

Abbreviation value := (F * Z * list F)%type.

Lemma value_of_prefix (h h' : heap F) (e : IsotopeDistribution F) (v : value) :
  value_of h e = Some v → h `prefix_of` h' → value_of h' e = Some v.
Proof.
  unfold value_of. intros Hv Hpre.
  destruct (h !! intensities e) as [a|] eqn:Ha; [|discriminate].
  rewrite (prefix_lookup_Some _ _ _ _ Ha Hpre). exact Hv.
Qed.

(** [add] is [conv] on what the envelopes hold. *)
Lemma add_conv (self x : IsotopeDistribution F) (h : heap F) (a b c : value) :
  value_of h self = Some a → value_of h x = Some b →
  conv a b = Ok c →
  ∃ r h', add self x h = Ok (r, h') ∧ h `prefix_of` h' ∧ value_of h' r = Some c.
Proof.
  unfold value_of. intros Ha Hb Hc.
  destruct (h !! intensities self) as [ia|] eqn:Hia; [|discriminate].
  destruct (h !! intensities x) as [ib|] eqn:Hib; [|discriminate].
  injection Ha as <-. injection Hb as <-. unfold conv in Hc. simpl in Hc.
  apply res_bind_Ok in Hc as (r & Hr & Hc). injection Hc as <-.
  eexists _, _. split; [rewrite (add_eq self x h ia ib Hia Hib), Hr; reflexivity|].
  split; [apply prefix_app_r; reflexivity|].
  simpl. rewrite lookup_alloc. reflexivity.
Qed.

Lemma power_succ (E : value) (n : nat) :
  (1 ≤ n)%nat → power E (S n) = res_bind (power E n) (fun p => conv p E).
Proof. destruct n; [lia|reflexivity]. Qed.

(** A power that is defined has all the smaller ones defined. *)
Lemma power_Ok_le (E : value) (m k : nat) (v : value) :
  (1 ≤ m)%nat → power E (m + k) = Ok v → ∃ p, power E m = Ok p.
Proof.
  intros Hm. revert v. induction k as [|k IH]; intros v Hv.
  - rewrite Nat.add_0_r in Hv. exists v. exact Hv.
  - replace (m + S k)%nat with (S (m + k)) in Hv by lia.
    rewrite power_succ in Hv by lia.
    apply res_bind_Ok in Hv as (p & Hp & _). apply (IH p Hp).
Qed.

(** The naive path computes [power]. *)
Lemma naive_loop_power (E : IsotopeDistribution F) (vE : value) (k : nat) :
  ∀ (m : nat) (c : IsotopeDistribution F) (h : heap F) (vc v : value),
    (1 ≤ m)%nat →
    value_of h E = Some vE → value_of h c = Some vc →
    power vE m = Ok vc → power vE (m + k) = Ok v →
    ∀ start,
    ∃ r h', M_for_each (seq start k) (fun c _ => add c E) c h = Ok (r, h') ∧
            h `prefix_of` h' ∧ value_of h' r = Some v.
Proof.
  induction k as [|k IH]; intros m c h vc v Hm HE Hc Hpm Hpv start.
  - rewrite Nat.add_0_r, Hpm in Hpv. injection Hpv as <-.
    exists c, h. split; [reflexivity|]. split; [reflexivity|exact Hc].
  - replace (m + S k)%nat with (S m + k)%nat in Hpv by lia.
    destruct (power_Ok_le vE (S m) k v) as [v1 Hp1]; [lia|exact Hpv|].
    pose proof Hp1 as Hstep. rewrite power_succ, Hpm in Hstep by exact Hm.
    simpl in Hstep.
    destruct (add_conv c E h vc vE v1 Hc HE Hstep) as (c1 & h1 & Hadd & Hpre1 & Hc1).
    destruct (IH (S m) c1 h1 v1 v) with (start := S start)
      as (r & h' & Hloop & Hpre' & Hr);
      [lia|eapply value_of_prefix; eassumption|exact Hc1|exact Hp1|exact Hpv|].
    exists r, h'. simpl. unfold M_bind. rewrite Hadd.
    split; [exact Hloop|]. split; [etrans; eassumption|exact Hr].
Qed.

End MultRefinesNaive.

(** C3 (as stated) fails on binary64 at [n = 4]: [mult] squares twice and
    keeps the third peak, [4 * 0.00055^2 = 1.21e-6]; the naive path prunes
    the third peak at every step and ends with [3 * 0.00055^2 = 9.075e-7]
    under the threshold.  The peak counts are 3 and 2.  (The maximum of
    every raw convolution of this run is 1.0, so the raw and the
    normalized intensities are the same numbers.) *)
Lemma mult_naive_counterexample :
  ∃ r1 h1 r2 h2,
    mult envelope_3 4 store_3 = Ok (r1, h1) ∧
    naive_mult envelope_3 4 store_3 = Ok (r2, h2) ∧
    value_of h1 r1
    = Some (48, 3%Z, [1; 0.0022000000000000001; 1.2100000000000001e-06])%float ∧
    value_of h2 r2
    = Some (48, 2%Z, [1; 0.0022000000000000001; 9.075000000000001e-07])%float ∧
    dm r1 ≠ dm r2.
Proof.
  eexists _, _, _, _.
  split; [vm_compute; reflexivity|].
  split; [vm_compute; reflexivity|].
  split; [vm_compute; reflexivity|].
  split; [vm_compute; reflexivity|].
  discriminate.
Qed.

(** The normalization invariant on binary64 at the envelopes of the runs
    above: the maximum of the first [peak_count] intensities of [mult(4)]
    and of the naive path is exactly 1.0. *)
Lemma normalization_binary64 :
  ∃ r1 h1 r2 h2,
    mult envelope_3 4 store_3 = Ok (r1, h1) ∧
    naive_mult envelope_3 4 store_3 = Ok (r2, h2) ∧
    normalized h1 r1 ∧ normalized h2 r2.
Proof.
  eexists _, _, _, _.
  split; [vm_compute; reflexivity|].
  split; [vm_compute; reflexivity|].
  split; eexists; (split; [vm_compute; reflexivity|]); vm_compute; reflexivity.
Qed.

(** * Further properties of the module *)

(** ** fast_add: outcomes *)

Lemma for_each_Raise {A S} (xs : list A) (body : S → A → res S) (s : S) (e : exn) :
  for_each xs body s = Raise e → ∃ s' x, x ∈ xs ∧ body s' x = Raise e.
Proof.
  revert s. induction xs as [|x xs IH]; simpl; intros s Hrun; [discriminate|].
  destruct (body s x) as [s1| | |] eqn:Hb; simpl in Hrun.
  - destruct (IH s1 Hrun) as (s' & y & Hy & Hbody).
    exists s', y. split; [right; exact Hy|exact Hbody].
  - injection Hrun as ->. exists s, x. split; [left|exact Hb].
  - discriminate.
  - discriminate.
Qed.

Section FastAddOutcomes.

Context {F : Type} `{Float64 F}.

Local Open Scope Z_scope.

(** Indexing raises nothing. *)
Lemma getitem_Raise (a : list F) (k : Z) (e : exn) : getitem a k ≠ Raise e.
Proof.
  unfold getitem. destruct (_ && _); [destruct (a !! _)|]; discriminate.
Qed.

Lemma accumulate_Raise (int0 int1 ni : list F) (i j : Z) (e : exn) :
  accumulate int0 int1 i j ni ≠ Raise e.
Proof.
  unfold accumulate.
  destruct (getitem int0 i) eqn:H0; simpl; try discriminate;
    [|exfalso; exact (getitem_Raise _ _ _ H0)].
  destruct (getitem int1 j) eqn:H1; simpl; try discriminate;
    [|exfalso; exact (getitem_Raise _ _ _ H1)].
  destruct (getitem ni (i + j)) eqn:H2; simpl; try discriminate.
  exfalso; exact (getitem_Raise _ _ _ H2).
Qed.

Lemma convolve_Raise (dm0 : Z) (int0 : list F) (dm1 : Z) (int1 ni : list F) (e : exn) :
  convolve dm0 int0 dm1 int1 ni ≠ Raise e.
Proof.
  unfold convolve. intros Hrun.
  apply for_each_Raise in Hrun as (s & i & _ & Hrun).
  apply for_each_Raise in Hrun as (t & j & _ & Hrun).
  exact (accumulate_Raise _ _ _ _ _ _ Hrun).
Qed.

Lemma prune_loop_Raise (fuel : nat) (ni : list F) (P : F) (d : Z) (e : exn) :
  prune_loop fuel ni P d ≠ Raise e.
Proof.
  revert d. induction fuel as [|fuel IH]; simpl; intros d; [discriminate|].
  unfold prune_test.
  destruct (getitem ni (d - 1)) as [v| | |] eqn:Hv; simpl; try discriminate.
  - destruct (f_ltb v P); [apply IH|discriminate].
  - exfalso; exact (getitem_Raise _ _ _ Hv).
Qed.

(** The scan stops above an entry that is not under the threshold. *)
Lemma prune_loop_stops_above (ni : list F) (P : F) (k : nat) (v : F) :
  ni !! k = Some v → f_ltb v P = false →
  ∀ fuel d, Z.of_nat k < d ≤ Z.of_nat (length ni) →
            d ≤ Z.of_nat fuel →
            ∃ r, prune_loop fuel ni P d = Ok r ∧ Z.of_nat k < r.
Proof.
  intros Hk HP. induction fuel as [|fuel IH]; intros d Hd Hfuel; [lia|]. simpl.
  unfold prune_test.
  destruct (getitem_nonneg ni (d - 1)) as (w & Hw & ->); [lia|]. simpl.
  destruct (f_ltb w P) eqn:Hlt; [|exists d; split; [reflexivity|lia]].
  apply IH; [|lia].
  assert (Z.of_nat k ≠ d - 1); [|lia].
  intros Heq. replace (Z.to_nat (d - 1)) with k in Hw by lia.
  rewrite Hk in Hw. injection Hw as <-. congruence.
Qed.

(** X1: when the raw convolution, the array [ni] that the two loops of
    [fast_add] fill, has an entry that is not under the threshold,
    [fast_add] returns: the sum of the offsets, the array of the
    [dm0 + dm1 - 1] raw entries divided by their maximum, and a peak count
    [d] placed just above the highest raw entry that is not under the
    threshold, so that [1 <= d <= len(ni)]. *)
Theorem fast_add_result_shape (m0 : F) (dm0 : Z) (int0 : list F) (m1 : F) (dm1 : Z)
    (int1 : list F) (P : F) (z ni : list F) (k : nat) (v : F) :
  np_zeros (dm0 + dm1 - 1) = Ok z →
  convolve dm0 int0 dm1 int1 z = Ok ni →
  ni !! k = Some v →
  f_ltb v P = false →
  ∃ mx d,
    np_max ni = Ok mx ∧
    fast_add m0 dm0 int0 m1 dm1 int1 P
    = Ok (f_add m0 m1, d, (fun v => f_div v mx) <$> ni) ∧
    Z.of_nat (length ni) = dm0 + dm1 - 1 ∧
    Z.of_nat k < d ≤ Z.of_nat (length ni) ∧
    prune_test ni P d = Ok false ∧
    ∀ j, d < j ≤ Z.of_nat (length ni) → prune_test ni P j = Ok true.
Proof.
  intros Hz Hni Hk HP.
  destruct (np_zeros_length _ _ Hz) as [Hlz Hpos].
  pose proof (convolve_length _ _ _ _ _ _ Hni) as Hl.
  pose proof (lookup_lt_Some _ _ _ Hk) as Hklt.
  assert (Hmx : ∃ mx, np_max ni = Ok mx).
  { destruct ni as [|n0 ni']; [simpl in Hklt; lia|]. eexists. reflexivity. }
  destruct Hmx as [mx Hmx].
  destruct (prune_loop_stops_above ni P k v Hk HP (2 * length ni + 2)%nat
              (dm0 + (dm1 - 1))) as (d & Hd & Hkd); [lia|lia|].
  exists mx, d. split; [exact Hmx|].
  split.
  { unfold fast_add. rewrite Hz. cbn [res_bind]. rewrite Hni. cbn [res_bind].
    rewrite Hmx. cbn [res_bind]. rewrite Hd. reflexivity. }
  split; [lia|].
  apply prune_loop_Ok in Hd as (Hle & Hstop & Hpass).
  split; [lia|]. split; [exact Hstop|].
  intros j Hj. apply Hpass. lia.
Qed.

(** X2: every run of [fast_add] ends in one of three ways: it returns an
    envelope; it raises [ValueError] (a negative array length, the maximum
    of an empty array); or it reaches an access outside an array.  Inside
    the array the pruning loop cannot run on for ever, and no other
    exception is raised. *)
Theorem fast_add_outcomes (m0 : F) (dm0 : Z) (int0 : list F) (m1 : F) (dm1 : Z)
    (int1 : list F) (P : F) :
  (∃ r, fast_add m0 dm0 int0 m1 dm1 int1 P = Ok r) ∨
  fast_add m0 dm0 int0 m1 dm1 int1 P = OutOfBounds ∨
  fast_add m0 dm0 int0 m1 dm1 int1 P = Raise ValueError.
Proof.
  pose proof (fast_add_not_Stuck m0 dm0 int0 m1 dm1 int1 P) as Hns.
  destruct (fast_add m0 dm0 int0 m1 dm1 int1 P) as [r|e| |] eqn:Hrun;
    [left; exists r; reflexivity| |right; left; reflexivity|contradiction].
  right. right. f_equal. revert Hrun. unfold fast_add.
  destruct (np_zeros (dm0 + dm1 - 1)) as [z| | |] eqn:Hz; simpl; try discriminate.
  - destruct (convolve dm0 int0 dm1 int1 z) as [ni| | |] eqn:Hni; simpl;
      try discriminate.
    + destruct (np_max ni) as [mx| | |] eqn:Hmx; simpl; try discriminate.
      * destruct (prune_loop _ ni P _) as [d| | |] eqn:Hd; simpl; try discriminate.
        intros [= <-]. exfalso. exact (prune_loop_Raise _ _ _ _ _ Hd).
      * intros [= <-]. destruct ni; [simpl in Hmx; congruence|discriminate].
    + intros [= <-]. exfalso. exact (convolve_Raise _ _ _ _ _ _ Hni).
  - intros [= <-]. unfold np_zeros in Hz.
    destruct (_ <? _); [congruence|discriminate].
Qed.



End FastAddOutcomes.

Lemma fast_add_result_shape_witness :
  ∃ mx d,
    np_max [1; 0.0011000000000000001; 1.0000000000000001e-07]%float = Ok mx ∧
    fast_add 12%float 2 [1; 0.001]%float 1%float 2 [1; 0.0001]%float f_prune
    = Ok (f_add 12%float 1%float, d,
          (fun v => f_div v mx) <$> [1; 0.0011000000000000001; 1.0000000000000001e-07]%float) ∧
    Z.of_nat (length [1; 0.0011000000000000001; 1.0000000000000001e-07]%float) = (2 + 2 - 1)%Z ∧
    (Z.of_nat 1 < d ≤ Z.of_nat (length [1; 0.0011000000000000001; 1.0000000000000001e-07]%float))%Z ∧
    prune_test [1; 0.0011000000000000001; 1.0000000000000001e-07]%float f_prune d = Ok false ∧
    ∀ j, (d < j ≤ Z.of_nat (length [1; 0.0011000000000000001; 1.0000000000000001e-07]%float))%Z →
         prune_test [1; 0.0011000000000000001; 1.0000000000000001e-07]%float f_prune j = Ok true.
Proof.
  apply (fast_add_result_shape 12%float 2 [1; 0.001]%float 1%float 2
           [1; 0.0001]%float f_prune [0; 0; 0]%float
           [1; 0.0011000000000000001; 1.0000000000000001e-07]%float 1%nat 0.0011000000000000001%float).
  - reflexivity.
  - vm_compute. reflexivity.
  - reflexivity.
  - vm_compute. reflexivity.
Defined.


(** ** numba_bin: the digits *)

Section NumbaBin.

Local Open Scope Z_scope.

Lemma bits_value_app (ds : list Z) (b : Z) :
  bits_value (ds ++ [b]) = bits_value ds + 2 ^ Z.of_nat (length ds) * b.
Proof.
  induction ds as [|d ds IH]; simpl bits_value; simpl length.
  - change (2 ^ Z.of_nat 0) with 1. lia.
  - rewrite IH, Nat2Z.inj_succ, Z.pow_succ_r by lia. lia.
Qed.

Lemma bits_value_bound (ds : list Z) :
  Forall (fun b => b = 0 ∨ b = 1) ds →
  0 ≤ bits_value ds < 2 ^ Z.of_nat (length ds).
Proof.
  induction 1 as [|b ds Hb _ IH]; simpl bits_value; simpl length.
  - change (2 ^ Z.of_nat 0) with 1. lia.
  - rewrite Nat2Z.inj_succ, Z.pow_succ_r by lia. destruct Hb; lia.
Qed.

(** The first digit of the list of a positive number is 1. *)
Lemma numba_bin_loop_head (fuel : nat) (decimal : Z) (binary : list Z) :
  0 < decimal < Z.of_nat fuel →
  ∃ tl, numba_bin_loop fuel decimal binary = Ok (1 :: tl).
Proof.
  revert decimal binary. induction fuel as [|fuel IH]; intros decimal binary Hd; [lia|].
  simpl. destruct (Z.eqb_spec decimal 0) as [?|_]; [lia|].
  destruct (decide (decimal = 1)) as [->|Hne].
  - change (Z.quot 1 2) with 0. change (1 mod 2) with 1.
    destruct fuel as [|fuel]; [lia|]. simpl. eexists. reflexivity.
  - apply IH.
    assert (Z.quot decimal 2 < decimal) by (apply Z.quot_lt; lia).
    rewrite Z.quot_div_nonneg in * by lia.
    pose proof (Z.div_mod decimal 2). pose proof (Z.mod_pos_bound decimal 2). lia.
Qed.

(** The digits of [numba_bin(n)] and their number. *)
Lemma numba_bin_digits_length (n : Z) :
  0 ≤ n →
  ∃ bs, numba_bin n = Ok bs ∧
        Forall (fun b => b = 0 ∨ b = 1) bs ∧
        bits_value (rev bs) = n ∧
        n < 2 ^ Z.of_nat (length bs) ∧
        (0 < n → head bs = Some 1 ∧ 2 ^ (Z.of_nat (length bs) - 1) ≤ n).
Proof.
  intros Hn. destruct (numba_bin_digits n Hn) as (ds & Hrun & Hval & Hbits).
  exists (rev ds). split; [exact Hrun|].
  split; [apply Forall_rev; exact Hbits|].
  rewrite rev_involutive, length_rev. split; [exact Hval|].
  pose proof (bits_value_bound ds Hbits) as Hbound. split; [lia|].
  intros Hpos.
  destruct (numba_bin_loop_head (S (Z.abs_nat n)) n []) as [tl Hhead]; [lia|].
  unfold numba_bin in Hrun. rewrite Hrun in Hhead. injection Hhead as Hhead.
  rewrite Hhead. split; [reflexivity|].
  assert (Hds : ds = rev tl ++ [1]).
  { rewrite <- (rev_involutive ds), Hhead. reflexivity. }
  rewrite Hds in Hval, Hbits |- *. rewrite bits_value_app in Hval.
  apply Forall_app in Hbits as [Hbits _].
  pose proof (bits_value_bound _ Hbits).
  rewrite length_app. simpl length.
  replace (Z.of_nat (length (rev tl) + 1) - 1) with (Z.of_nat (length (rev tl))) by lia.
  lia.
Qed.

(** The halving step of [numba_bin] on binary64, [int(decimal / 2)], at
    sample values up to [2^53] in absolute value: it is the truncated
    quotient.  Just above, at [2^53 + 3], the conversion to binary64 has
    rounded and it is not. *)
Lemma halving_binary64 :
  Forall (fun d : Z => B64_int (PrimFloat.div (B64.of_int d) 2) = Z.quot d 2)
         [0; 1; 2; 3; 6; 7; -1; -7; 1000001; 2 ^ 53 - 1; 2 ^ 53; - 2 ^ 53 + 1] ∧
  B64_int (PrimFloat.div (B64.of_int (2 ^ 53 + 3)) 2) ≠ Z.quot (2 ^ 53 + 3) 2.
Proof.
  split; [repeat constructor|]. vm_compute. discriminate.
Qed.

(** X4: for every [n] from 0 to [2^53], where the halving step is exact,
    [numba_bin(n)] is the list of the binary digits of [n], most
    significant first: every entry is 0 or 1, read as a binary number the
    list is worth [n], and for [n > 0] it starts with 1, so that its
    length [k] is the one with [2^(k-1) <= n < 2^k]. *)
Theorem numba_bin_binary (n : Z) :
  0 ≤ n ≤ 2 ^ 53 →
  ∃ bs, numba_bin n = Ok bs ∧
        Forall (fun b => b = 0 ∨ b = 1) bs ∧
        bits_value (rev bs) = n ∧
        n < 2 ^ Z.of_nat (length bs) ∧
        (0 < n → head bs = Some 1 ∧ 2 ^ (Z.of_nat (length bs) - 1) ≤ n).
Proof. intros [Hn _]. exact (numba_bin_digits_length n Hn). Qed.

Lemma numba_bin_loop_opp (fuel : nat) (decimal : Z) (binary : list Z) :
  numba_bin_loop fuel (- decimal) binary = numba_bin_loop fuel decimal binary.
Proof.
  revert decimal binary. induction fuel as [|fuel IH]; intros decimal binary; [reflexivity|].
  simpl.
  destruct (Z.eqb_spec (- decimal) 0) as [H0|H0];
    destruct (Z.eqb_spec decimal 0) as [H1|H1]; try lia; [reflexivity|].
  rewrite Z.quot_opp_l, IH by lia.
  rewrite !Zmod_odd, Z.odd_opp. reflexivity.
Qed.

(** X5: [numba_bin] drops the sign: for every integer [n],
    [numba_bin(-n)] is the list [numba_bin(n)]. *)
Theorem numba_bin_opp (n : Z) : numba_bin (- n) = numba_bin n.
Proof.
  unfold numba_bin. rewrite numba_bin_loop_opp.
  replace (Z.abs_nat (- n)) with (Z.abs_nat n) by lia. reflexivity.
Qed.

End NumbaBin.

Lemma numba_bin_binary_witness :
  ∃ bs, numba_bin 6 = Ok bs ∧
        Forall (fun b => b = 0 ∨ b = 1)%Z bs ∧
        bits_value (rev bs) = 6%Z ∧
        (6 < 2 ^ Z.of_nat (length bs))%Z ∧
        ((0 < 6)%Z → head bs = Some 1%Z ∧ (2 ^ (Z.of_nat (length bs) - 1) ≤ 6)%Z).
Proof. apply (numba_bin_binary 6). lia. Defined.

(** ** mult: negative counts and storage *)

Section MultEdges.

Context {F : Type} `{Float64 F}.

Local Open Scope Z_scope.

(** X6: [mult] does not reject a negative count: for every [n >= 2],
    [E.mult(-n)] runs as [E.mult(n)] does, on the same store, with the same
    outcome. *)
Theorem mult_negative (E : IsotopeDistribution F) (h : heap F) (n : Z) :
  2 ≤ n → mult E (- n) h = mult E n h.
Proof.
  intros Hn. unfold mult. rewrite numba_bin_opp.
  destruct (Z.eqb_spec (- n) 1) as [?|_]; [lia|].
  destruct (Z.eqb_spec n 1) as [?|_]; [lia|]. reflexivity.
Qed.

(** X7: the envelope [E.mult(1)] returns is bound to the array of [E]
    itself; for every other [n] the envelope [E.mult(n)] returns is bound
    to an array allocated during the call, and the arrays of the store
    the call started from are all still there, unchanged. *)
Theorem mult_storage (E : IsotopeDistribution F) (h h' : heap F) (n : Z)
    (r : IsotopeDistribution F) :
  mult E n h = Ok (r, h') →
  h `prefix_of` h' ∧
  (n = 1 → intensities r = intensities E) ∧
  (n ≠ 1 → h !! intensities r = None ∧ is_Some (h' !! intensities r)).
Proof.
  unfold mult. intros Hrun.
  apply M_bind_Ok in Hrun as (bs & h0 & Hbin & Hrun).
  apply lift_Ok in Hbin as [_ ->].
  destruct (Z.eqb_spec n 1) as [->|Hne].
  - rewrite copy_eq in Hrun. injection Hrun as <- <-.
    split; [apply prefix_app_r; reflexivity|]. split; [reflexivity|]. intros Hne. lia.
  - apply M_bind_Ok in Hrun as (i & h1 & Hinit & Hrun).
    rewrite init_eq in Hinit. injection Hinit as <- <-.
    apply M_bind_Ok in Hrun as (m & h2 & Hcopy & Hrun).
    rewrite copy_eq in Hcopy. injection Hcopy as <- <-.
    apply M_bind_Ok in Hrun as (s & h3 & Hloop & Hrun).
    unfold M_ret in Hrun. injection Hrun as <- <-.
    assert (Hinv : h `prefix_of` h3 ∧
                   (length h ≤ intensities s.1 < length h3)%nat).
    { revert Hloop.
      apply (M_for_each_inv
               (fun (s : IsotopeDistribution F * IsotopeDistribution F) h' =>
                  h `prefix_of` h' ∧ (length h ≤ intensities s.1 < length h')%nat)).
      - intros [i m] count h4 [i' m'] h5 _ [Hpre Hi] Hbody.
        unfold mult_body in Hbody.
        apply M_bind_Ok in Hbody as (i1 & h6 & Hfirst & Hbody).
        apply M_bind_Ok in Hbody as (m1 & h7 & Hadd & Hbody).
        unfold M_ret in Hbody. injection Hbody as <- <- <-.
        apply add_Ok in Hadd as (a2 & b2 & x2 & d2 & ints & _ & _ & _ & _ & ->).
        simpl in *.
        destruct (count =? 1).
        + apply add_Ok in Hfirst as (a1 & b1 & x1 & d1 & ints' & _ & _ & _ & -> & ->).
          simpl. split; [do 2 apply prefix_app_r; exact Hpre|].
          apply prefix_length in Hpre. rewrite !length_app. simpl. lia.
        + unfold M_ret in Hfirst. injection Hfirst as <- <-.
          split; [apply prefix_app_r; exact Hpre|].
          rewrite length_app. simpl. lia.
      - simpl. split; [do 2 apply prefix_app_r; reflexivity|].
        rewrite !length_app. simpl. lia. }
    destruct Hinv as [Hpre Hi].
    split; [exact Hpre|]. split; [intros ?; contradiction|]. intros _.
    split; [apply lookup_ge_None; lia|apply lookup_lt_is_Some; lia].
Qed.

End MultEdges.

Lemma mult_negative_witness :
  mult envelope_3 (- 4) store_3 = mult envelope_3 4 store_3.
Proof. exact (mult_negative envelope_3 store_3 4 ltac:(lia)). Defined.

Lemma mult_storage_witness :
  ∃ r h',
    mult envelope_3 4 store_3 = Ok (r, h') ∧
    store_3 `prefix_of` h' ∧
    (4%Z = 1%Z → intensities r = intensities envelope_3) ∧
    (4%Z ≠ 1%Z → store_3 !! intensities r = None ∧ is_Some (h' !! intensities r)).
Proof.
  eexists _, _. split; [vm_compute; reflexivity|].
  apply (mult_storage envelope_3 store_3 _ 4). vm_compute. reflexivity.
Defined.

(** ** mult in exact arithmetic: normalization and offset *)

Section MultExact.

Local Open Scope R_scope.

Lemma normalized_prefix (h h' : heap R) (e : IsotopeDistribution R) :
  normalized h e → h `prefix_of` h' → normalized h' e.
Proof.
  intros (a & Ha & Hmax) Hpre. exists a. split; [|exact Hmax].
  eapply prefix_lookup_Some; eassumption.
Qed.

Lemma add_prefix {F} `{Float64 F} (self x r : IsotopeDistribution F) (h h' : heap F) :
  add self x h = Ok (r, h') → h `prefix_of` h'.
Proof.
  intros Hrun. apply add_Ok in Hrun as (a & b & m & d & ints & _ & _ & _ & _ & ->).
  apply prefix_app_r. reflexivity.
Qed.

(** One turn of the loop of [mult]: its effect on the two envelopes. *)
Lemma mult_body_Ok {F} `{Float64 F} (i m i' m' : IsotopeDistribution F) (count : Z)
    (h h' : heap F) :
  mult_body (i, m) count h = Ok ((i', m'), h') →
  ∃ h1, (if (count =? 1)%Z then add i m h = Ok (i', h1) else (i' = i ∧ h1 = h)) ∧
        add m m h1 = Ok (m', h').
Proof.
  unfold mult_body. intros Hrun.
  apply M_bind_Ok in Hrun as (i1 & h1 & Hfirst & Hrun).
  apply M_bind_Ok in Hrun as (m1 & h2 & Hadd & Hrun).
  unfold M_ret in Hrun. injection Hrun as <- <- <-.
  exists h1. split; [|exact Hadd].
  destruct (count =? 1)%Z; [exact Hfirst|].
  unfold M_ret in Hfirst. injection Hfirst as <- <-. split; reflexivity.
Qed.

(** The convolution of an envelope with itself returns a sound envelope
    when the square of one of its significant intensities is not under the
    threshold. *)
Lemma add_square (E : IsotopeDistribution R) (h : heap R) (a : list R) (v : R) :
  h !! intensities E = Some a →
  (1 ≤ dm E ≤ Z.of_nat (length a))%Z →
  (∀ u, u ∈ take (Z.to_nat (dm E)) a → 0 <= u) →
  v ∈ take (Z.to_nat (dm E)) a →
  f_prune <= v * v →
  ∃ r h', add E E h = Ok (r, h') ∧ h `prefix_of` h' ∧ sound h' r.
Proof.
  intros Ha Hd Hpos Hv Hvv.
  apply elem_of_take_lookup in Hv as (i0 & Hi0 & Hai0).
  destruct (fast_add_total_ge (m0 E) (dm E) a (m0 E) (dm E) a i0 i0 v v)
    as (d & ints & Hrun & Hdr & Hp & Hm); try assumption.
  - intros u Hu. apply ltb_ge, Hpos, Hu.
  - intros u Hu. apply ltb_ge, Hpos, Hu.
  - eexists _, _. split; [rewrite (add_eq E E h a a Ha Ha), Hrun; reflexivity|].
    split; [apply prefix_app_r; reflexivity|].
    exists ints. split; [apply lookup_alloc|]. simpl.
    split; [exact Hdr|]. split; [exact Hp|exact Hm].
Qed.

(** X8: in exact arithmetic [mult] normalizes.  Let [E] be an envelope,
    normalized or not, whose peak count is within its array and whose
    significant intensities lie between 0 and 1, one of them, [v], with a
    square [v * v] that is not under the prune threshold.  For every [n]
    other than 1, [E.mult(n)] returns, and returns a sound envelope: the
    maximum of its first [peak_count] intensities is 1.  ([E.mult(1)] is
    [E] as it is.) *)
Theorem mult_normalizes (E : IsotopeDistribution R) (n : Z) (h : heap R)
    (a : list R) (v : R) :
  n ≠ 1%Z →
  h !! intensities E = Some a →
  (1 ≤ dm E ≤ Z.of_nat (length a))%Z →
  (∀ u, u ∈ take (Z.to_nat (dm E)) a → 0 <= u <= 1) →
  v ∈ take (Z.to_nat (dm E)) a →
  f_prune <= v * v →
  ∃ r h', mult E n h = Ok (r, h') ∧ sound h' r ∧ normalized h' r.
Proof.
  intros Hne Ha Hd Hrange Hv Hvv.
  assert (Hadm : admissible h E).
  { exists a. split; [exact Ha|]. split; [exact Hd|]. split.
    - intros u Hu. destruct (Hrange u Hu). split; apply ltb_ge; assumption.
    - exists v. split; [exact Hv|]. apply ltb_ge.
      destruct (Hrange v Hv). apply Rle_trans with (v * v); [exact Hvv|]. nra. }
  assert (Hgoal : ∃ r h', mult E n h = Ok (r, h') ∧ sound h' r).
  { unfold mult.
    destruct (numba_bin_total n) as [bs Hbs].
    unfold M_bind at 1. unfold lift. rewrite Hbs.
    destruct (Z.eqb_spec n 1) as [?|_]; [contradiction|].
    destruct (init_sound h) as (i & h1 & Hinit & Hpre1 & Hi).
    unfold M_bind at 1. rewrite Hinit.
    unfold M_bind at 1. rewrite copy_eq.
    assert (Hpre2 : h `prefix_of` h1 ++ [[f_one]]).
    { etrans; [exact Hpre1|]. apply prefix_app_r. reflexivity. }
    assert (Hi2 : sound (h1 ++ [[f_one]]) i).
    { eapply sound_prefix; [exact Hi|]. apply prefix_app_r. reflexivity. }
    destruct (rev bs) as [|b bits].
    - exists i, (h1 ++ [[f_one]]). split; [reflexivity|exact Hi2].
    - cbn [M_for_each].
      assert (Hfirst : ∃ i1 h3, (if (b =? 1)%Z then add i E else M_ret i) (h1 ++ [[f_one]])
                                = Ok (i1, h3) ∧
                                (h1 ++ [[f_one]]) `prefix_of` h3 ∧ sound h3 i1).
      { destruct (b =? 1)%Z.
        - apply add_admissible; [exact Hi2|]. eapply admissible_prefix; eassumption.
        - exists i, (h1 ++ [[f_one]]). split; [reflexivity|]. split; [reflexivity|exact Hi2]. }
      destruct Hfirst as (i1 & h3 & Hrun1 & Hpre3 & Hi1).
      destruct (add_square E h3 a v) as (m2 & h4 & Hrun2 & Hpre4 & Hm2); try assumption.
      { eapply prefix_lookup_Some; [exact Ha|]. etrans; eassumption. }
      { intros u Hu. apply (Hrange u Hu). }
      destruct (M_for_each_total
                  (fun (s : IsotopeDistribution R * IsotopeDistribution R) h' =>
                     sound h' s.1 ∧ sound h' s.2)
                  bits mult_body) with (s := (i1, m2)) (h := h4)
        as (s' & h5 & Hloop & Hs1 & _).
      + intros s count h' _ (H1 & H2).
        destruct (mult_body_sound s count h' H1 H2) as (s' & h'' & Hrun & _ & H1' & H2').
        exists s', h''. split; [exact Hrun|]. split; assumption.
      + split; [eapply sound_prefix; eassumption|exact Hm2].
      + exists s'.1, h5. split; [|exact Hs1].
        unfold M_bind at 1. unfold M_bind at 1. unfold mult_body at 1.
        unfold M_bind at 1. rewrite Hrun1.
        unfold M_bind at 1. rewrite Hrun2. unfold M_ret at 1.
        rewrite Hloop. reflexivity. }
  destruct Hgoal as (r & h' & Hrun & Hs).
  exists r, h'. split; [exact Hrun|]. split; [exact Hs|apply sound_normalized, Hs].
Qed.

Lemma add_offset (self x r : IsotopeDistribution R) (h h' : heap R) :
  add self x h = Ok (r, h') → m0 r = m0 self + m0 x.
Proof.
  intros Hrun. apply add_Ok in Hrun as (a & b & m & d & ints & _ & _ & Hf & -> & _).
  apply fast_add_Ok in Hf as (_ & _ & _ & _ & _ & _ & _ & _ & -> & _). reflexivity.
Qed.

(** The loop of [mult] on the offsets: the offset of [multiples] is added
    to that of [i] as many times as the digits left are worth. *)
Lemma mult_loop_offset (bits : list Z) :
  Forall (fun b => b = 0%Z ∨ b = 1%Z) bits →
  ∀ (i m : IsotopeDistribution R) h s h',
    M_for_each bits mult_body (i, m) h = Ok (s, h') →
    m0 s.1 = m0 i + m0 m * IZR (bits_value bits).
Proof.
  induction 1 as [|b bits Hb _ IH]; intros i m h s h' Hrun.
  - simpl in Hrun. injection Hrun as <- <-. simpl. ring.
  - simpl in Hrun. apply M_bind_Ok in Hrun as ([i1 m1] & h1 & Hbody & Hrun).
    apply mult_body_Ok in Hbody as (h2 & Hfirst & Hadd).
    rewrite (IH _ _ _ _ _ Hrun). rewrite (add_offset _ _ _ _ _ Hadd).
    simpl bits_value. rewrite plus_IZR, mult_IZR.
    destruct Hb as [-> | ->]; simpl in Hfirst.
    + destruct Hfirst as [-> _]. ring.
    + rewrite (add_offset _ _ _ _ _ Hfirst). ring.
Qed.

Lemma mult_offset_abs (E : IsotopeDistribution R) (n : Z) (h h' : heap R)
    (r : IsotopeDistribution R) :
  mult E n h = Ok (r, h') → m0 r = IZR (Z.abs n) * m0 E.
Proof.
  unfold mult. intros Hrun.
  apply M_bind_Ok in Hrun as (bs & h0 & Hbin & Hrun).
  apply lift_Ok in Hbin as [Hbin ->].
  destruct (Z.eqb_spec n 1) as [->|Hne].
  - rewrite copy_eq in Hrun. injection Hrun as <- <-.
    change (Z.abs 1) with 1%Z. lra.
  - apply M_bind_Ok in Hrun as (i & h1 & Hinit & Hrun).
    rewrite init_eq in Hinit. injection Hinit as <- <-.
    apply M_bind_Ok in Hrun as (m & h2 & Hcopy & Hrun).
    rewrite copy_eq in Hcopy. injection Hcopy as <- <-.
    apply M_bind_Ok in Hrun as (s & h3 & Hloop & Hrun).
    unfold M_ret in Hrun. injection Hrun as <- <-.
    assert (Habs : numba_bin (Z.abs n) = Ok bs).
    { destruct (Z.abs_spec n) as [[_ ->]|[_ ->]]; [exact Hbin|].
      rewrite numba_bin_opp. exact Hbin. }
    destruct (numba_bin_digits (Z.abs n)) as (ds & Hds & Hval & Hbits); [lia|].
    rewrite Hds in Habs. injection Habs as <-.
    rewrite rev_involutive in Hloop.
    rewrite (mult_loop_offset ds Hbits _ _ _ _ _ Hloop), Hval. simpl. ring.
Qed.

(** X9: in exact arithmetic, whenever [E.mult(n)] returns, the offset of
    the result is [|n|] times the offset of [E], for every integer [n]:
    pruning never touches the offset, and the sign of [n] is dropped. *)
Theorem mult_offset (E : IsotopeDistribution R) (n : Z) (h h' : heap R)
    (r : IsotopeDistribution R) :
  mult E n h = Ok (r, h') → m0 r = IZR (Z.abs n) * m0 E.
Proof. exact (mult_offset_abs E n h h' r). Qed.

End MultExact.

(** An envelope that is not normalized, [[1/2, 1/4]] at offset 12. *)
Lemma mult_normalizes_witness :
  ∃ r h', mult {| m0 := 12%R; dm := 2; intensities := 0%nat |} 6
               [[(1 / 2)%R; (1 / 4)%R]] = Ok (r, h') ∧
          sound h' r ∧ normalized h' r.
Proof.
  apply (mult_normalizes {| m0 := 12%R; dm := 2; intensities := 0%nat |} 6
           [[(1 / 2)%R; (1 / 4)%R]] [(1 / 2)%R; (1 / 4)%R] (1 / 2)%R).
  - discriminate.
  - reflexivity.
  - simpl. lia.
  - simpl. intros u Hu.
    apply elem_of_cons in Hu as [->|Hu]; [lra|].
    apply list_elem_of_singleton in Hu as ->. lra.
  - simpl. left.
  - simpl. lra.
Defined.

Lemma mult_offset_witness :
  ∃ r h', mult {| m0 := 12%R; dm := 2; intensities := 0%nat |} (-6)
               [[1%R; (1 / 2)%R]] = Ok (r, h') ∧
          m0 r = (IZR (Z.abs (-6)) * 12)%R.
Proof.
  destruct (mult_sound {| m0 := 12%R; dm := 2; intensities := 0%nat |} (-6)
              [[1%R; (1 / 2)%R]] sound_example) as (r & h' & Hrun & _).
  exists r, h'. split; [exact Hrun|].
  apply (mult_offset _ _ _ _ _ Hrun).
Defined.

(** ** Dictionaries: lookups after an assignment *)

Section DictSetFacts.

Context {V : Type}.

Lemma Dict_get_set_eq (d : Dict.t V) (k : string) (v : V) :
  Dict.get (Dict.set d k v) k = Ok v.
Proof.
  induction d as [|[k' v'] d IH]; simpl.
  - rewrite String.eqb_refl. reflexivity.
  - destruct (String.eqb_spec k k') as [->|Hne]; simpl.
    + rewrite String.eqb_refl. reflexivity.
    + destruct (String.eqb_spec k k') as [?|_]; [contradiction|exact IH].
Qed.

Lemma Dict_get_set_ne (d : Dict.t V) (k k' : string) (v : V) :
  k' ≠ k → Dict.get (Dict.set d k v) k' = Dict.get d k'.
Proof.
  intros Hne. induction d as [|[k1 v1] d IH]; simpl.
  - destruct (String.eqb_spec k' k) as [?|_]; [contradiction|reflexivity].
  - destruct (String.eqb_spec k k1) as [->|Hk]; simpl.
    + destruct (String.eqb_spec k' k1) as [?|_]; [contradiction|reflexivity].
    + destruct (String.eqb_spec k' k1); [reflexivity|exact IH].
Qed.

Lemma Dict_keys_set_elem (d : Dict.t V) (k k' : string) (v : V) :
  k' ∈ Dict.keys (Dict.set d k v) → k' = k ∨ k' ∈ Dict.keys d.
Proof.
  unfold Dict.keys. induction d as [|[k1 v1] d IH]; simpl.
  - intros Hin. apply list_elem_of_singleton in Hin. left. exact Hin.
  - destruct (String.eqb_spec k k1) as [->|Hk]; simpl.
    + intros Hin. right. exact Hin.
    + intros Hin. apply elem_of_cons in Hin as [->|Hin]; [right; left|].
      destruct (IH Hin) as [?|?]; [left; assumption|right; right; assumption].
Qed.

Lemma Dict_get_Raise (d : Dict.t V) (k : string) (e : exn) :
  Dict.get d k = Raise e → e = KeyError.
Proof.
  induction d as [|[k' v'] d IH]; simpl; [congruence|].
  destruct (String.eqb k k'); [discriminate|exact IH].
Qed.

Lemma Dict_get_not_Stuck (d : Dict.t V) (k : string) : Dict.get d k ≠ Stuck.
Proof.
  induction d as [|[k' v'] d IH]; simpl; [discriminate|].
  destruct (String.eqb k k'); [discriminate|exact IH].
Qed.

Lemma Dict_get_keys (d : Dict.t V) (k : string) (v : V) :
  Dict.get d k = Ok v → k ∈ Dict.keys d.
Proof.
  intros Hget. apply Dict_get_Ok in Hget.
  unfold Dict.keys. apply list_elem_of_fmap. exists (k, v). split; [reflexivity|exact Hget].
Qed.

End DictSetFacts.

Lemma for_each_Ok_all {A S} (xs : list A) (body : S → A → res S) (s s' : S) :
  for_each xs body s = Ok s' → ∀ x, x ∈ xs → ∃ s1 s2, body s1 x = Ok s2.
Proof.
  revert s. induction xs as [|x xs IH]; simpl; intros s Hrun y Hy.
  - apply elem_of_nil in Hy. contradiction.
  - apply res_bind_Ok in Hrun as (s1 & H1 & Hrun).
    apply elem_of_cons in Hy as [->|Hy]; [exists s, s1; exact H1|].
    apply (IH s1 Hrun y Hy).
Qed.

Lemma M_for_each_Ok_all {F A S} (xs : list A) (body : S → A → M F S) (s s' : S)
    (h h' : heap F) :
  M_for_each xs body s h = Ok (s', h') →
  ∀ x, x ∈ xs → ∃ s1 h1 s2 h2, body s1 x h1 = Ok (s2, h2).
Proof.
  revert s h. induction xs as [|x xs IH]; simpl; intros s h Hrun y Hy.
  - apply elem_of_nil in Hy. contradiction.
  - unfold M_bind in Hrun.
    destruct (body s x h) as [[s1 h1]| | |] eqn:H1; try discriminate.
    apply elem_of_cons in Hy as [->|Hy]; [exists s, h, s1, h1; exact H1|].
    apply (IH s1 h1 Hrun y Hy).
Qed.

(** ** The averagine estimator over any arithmetic *)

Section AveragineGeneric.

Context {F : Type} `{Float64 F}.

Local Open Scope Z_scope.

Abbreviation IDF := (IsotopeDistribution F).

Lemma offset_of_get (isotopes : Dict.t IDF) (AA : string) (iso : IDF) :
  Dict.get isotopes AA = Ok iso → offset_of isotopes AA = m0 iso.
Proof. unfold offset_of. intros ->. reflexivity. Qed.

Lemma rounded_counts_keys (averagine_units : F) (averagine_aa : Dict.t F) :
  Dict.keys (rounded_counts averagine_units averagine_aa) = Dict.keys averagine_aa.
Proof. unfold Dict.keys, rounded_counts. rewrite <- list_fmap_compose. reflexivity. Qed.

(** The loop of [get_average_formula] from any point on. *)
Lemma averagine_loop_any (isotopes : Dict.t IDF) (averagine_units : F)
    (averagine_aa suf : Dict.t F) :
  (∀ k r, (k, r) ∈ suf → Dict.get averagine_aa k = Ok r) →
  (∀ k, k ∈ Dict.keys suf → ∃ iso, Dict.get isotopes k = Ok iso) →
  NoDup (Dict.keys suf) →
  ∀ counted_AA final_mass,
    (∀ k, k ∈ Dict.keys suf → k ∉ Dict.keys counted_AA) →
    for_each (Dict.keys suf)
      (fun (s : Dict.t Z * F) AA =>
         let (counted_AA, final_mass) := s in
         res_bind (Dict.get averagine_aa AA) (fun ratio =>
         let counted_AA :=
           Dict.set counted_AA AA (f_rint (f_mul averagine_units ratio)) in
         res_bind (Dict.get counted_AA AA) (fun c =>
         res_bind (Dict.get isotopes AA) (fun iso =>
         Ok (counted_AA, f_add final_mass (f_mul (f_of_int c) (m0 iso)))))))
      (counted_AA, final_mass)
    = Ok (counted_AA ++ rounded_counts averagine_units suf,
          summed_mass isotopes final_mass (rounded_counts averagine_units suf)).
Proof.
  unfold Dict.keys.
  induction suf as [|[k r] suf IH]; simpl; intros Haa Hiso Hnd counted_AA final_mass Hfresh.
  - rewrite app_nil_r. reflexivity.
  - apply NoDup_cons in Hnd as [Hk Hnd].
    rewrite (Haa k r) by left. simpl.
    rewrite Dict_get_set_eq. simpl.
    rewrite Dict_set_new by (apply Hfresh; left).
    destruct (Hiso k) as [iso Hget]; [left|]. rewrite Hget. simpl.
    rewrite IH.
    + rewrite <- app_assoc. simpl. unfold summed_mass. simpl.
      rewrite (offset_of_get _ _ _ Hget). reflexivity.
    + intros k' r' Hin. apply Haa. right. exact Hin.
    + intros k' Hin. apply Hiso. right. exact Hin.
    + exact Hnd.
    + intros k' Hin. unfold Dict.keys. rewrite fmap_app. simpl.
      intros Hin'. apply elem_of_app in Hin' as [Hin'|Hin'].
      * revert Hin'. apply Hfresh. right. exact Hin.
      * apply list_elem_of_singleton in Hin' as ->. contradiction.
Qed.

(** X12: with a non-zero [averagine_avg], a ratio table of distinct
    elements that has hydrogen, and an isotope table that has every
    element of the ratio table with a non-zero hydrogen offset,
    [get_average_formula] returns a composition with the elements of the
    ratio table in the same order, provided the counts stay inside int64
    (the rounded counts, the hydrogen correction and the corrected
    hydrogen count); every element other than hydrogen has the rounded
    count [round(units * ratio)], and hydrogen has its rounded count plus
    the correction [round((molecule_mass - final_mass) / m0_H)], where
    [final_mass] is the mass of the rounded counts summed in table
    order. *)
Theorem get_average_formula_closed_form (averagine_avg molecule_mass : F)
    (averagine_aa : Dict.t F) (isotopes : Dict.t IDF) (isoH : IDF) :
  f_is_zero averagine_avg = false →
  NoDup (Dict.keys averagine_aa) →
  "H" ∈ Dict.keys averagine_aa →
  (∀ k, k ∈ Dict.keys averagine_aa → ∃ iso, Dict.get isotopes k = Ok iso) →
  Dict.get isotopes "H" = Ok isoH →
  f_is_zero (m0 isoH) = false →
  let units := f_div molecule_mass averagine_avg in
  let final_mass := summed_mass isotopes f_zero (rounded_counts units averagine_aa) in
  let h_correction := f_rint (f_div (f_sub molecule_mass final_mass) (m0 isoH)) in
  (∀ k r, (k, r) ∈ averagine_aa → in_int64 (f_rint (f_mul units r))) →
  in_int64 h_correction →
  (∀ r, ("H", r) ∈ averagine_aa → in_int64 (f_rint (f_mul units r) + h_correction)) →
  ∃ counted_AA,
    get_average_formula averagine_avg molecule_mass averagine_aa isotopes true
    = Ok counted_AA ∧
    Dict.keys counted_AA = Dict.keys averagine_aa ∧
    (∀ k r, (k, r) ∈ averagine_aa → k ≠ "H" →
            Dict.get counted_AA k = Ok (f_rint (f_mul units r))) ∧
    (∀ r, ("H", r) ∈ averagine_aa →
          Dict.get counted_AA "H" = Ok (f_rint (f_mul units r) + h_correction)).
Proof.
  intros Havg Hnd HH Hiso HisoH HmH units final_mass h_correction Hcounts Hcorr HsumH.
  set (cs := rounded_counts units averagine_aa).
  assert (Hcs_keys : Dict.keys cs = Dict.keys averagine_aa) by apply rounded_counts_keys.
  assert (Hcs : ∀ k r, (k, r) ∈ averagine_aa →
                       Dict.get cs k = Ok (f_rint (f_mul units r))).
  { intros k r Hin. apply Dict_get_elem_of; [rewrite Hcs_keys; exact Hnd|].
    unfold cs, rounded_counts. apply list_elem_of_fmap.
    exists (k, r). split; [reflexivity|exact Hin]. }
  assert (HcH : ∃ cH, Dict.get cs "H" = Ok cH).
  { apply Dict_get_total. rewrite Hcs_keys. exact HH. }
  destruct HcH as [cH HcH].
  assert (HrH : ∃ rH, ("H", rH) ∈ averagine_aa).
  { unfold Dict.keys in HH. apply list_elem_of_fmap in HH as ([k r] & Hk & Hin).
    simpl in Hk. subst k. exists r. exact Hin. }
  destruct HrH as [rH HrH].
  assert (HcHeq : cH = f_rint (f_mul units rH)).
  { rewrite (Hcs _ _ HrH) in HcH. injection HcH as <-. reflexivity. }
  exists (Dict.set cs "H" (cH + h_correction)).
  split; [|split; [|split]].
  - unfold get_average_formula, truediv. rewrite Havg. simpl.
    fold units.
    rewrite (averagine_loop_any isotopes units averagine_aa averagine_aa).
    + simpl. rewrite HisoH. simpl. rewrite HmH. simpl.
      fold cs. fold final_mass. rewrite HcH. cbn [res_bind].
      fold h_correction. rewrite i_add_in_range; [reflexivity|].
      rewrite HcHeq. apply HsumH, HrH.
    + intros k r Hin. apply Dict_get_elem_of; assumption.
    + exact Hiso.
    + exact Hnd.
    + intros k _ Hin. apply elem_of_nil in Hin. exact Hin.
  - rewrite (Dict_keys_set _ _ _ _ HcH). exact Hcs_keys.
  - intros k r Hin Hne. rewrite Dict_get_set_ne by exact Hne. apply Hcs, Hin.
  - intros r Hin. rewrite Dict_get_set_eq. f_equal.
    rewrite (Hcs _ _ Hin) in HcH. injection HcH as <-. reflexivity.
Qed.

(** X13: [get_average_formula] returns a composition only if [sulphur] is
    set, [averagine_avg] is not zero, every element of the ratio table is
    in the isotope table, and hydrogen is in both tables with a non-zero
    offset; otherwise it raises. *)
Theorem get_average_formula_requires (averagine_avg molecule_mass : F)
    (averagine_aa : Dict.t F) (isotopes : Dict.t IDF) (sulphur : bool)
    (counted_AA : Dict.t Z) :
  get_average_formula averagine_avg molecule_mass averagine_aa isotopes sulphur
  = Ok counted_AA →
  sulphur = true ∧
  f_is_zero averagine_avg = false ∧
  (∀ k, k ∈ Dict.keys averagine_aa → ∃ iso, Dict.get isotopes k = Ok iso) ∧
  "H" ∈ Dict.keys averagine_aa ∧
  ∃ isoH, Dict.get isotopes "H" = Ok isoH ∧ f_is_zero (m0 isoH) = false.
Proof.
  unfold get_average_formula. intros Hrun.
  apply res_bind_Ok in Hrun as (units & Hunits & Hrun).
  destruct sulphur; [|discriminate]. split; [reflexivity|].
  unfold truediv in Hunits.
  destruct (f_is_zero averagine_avg) eqn:Havg; [discriminate|]. split; [reflexivity|].
  apply res_bind_Ok in Hrun as ([cs final] & Hloop & Hrun).
  apply res_bind_Ok in Hrun as (isoH & HisoH & Hrun).
  apply res_bind_Ok in Hrun as (q & Hq & Hrun).
  apply res_bind_Ok in Hrun as (cH & HcH & _).
  split; [|split].
  - intros k Hk.
    destruct (for_each_Ok_all _ _ _ _ Hloop k Hk) as ([c1 f1] & s2 & Hbody).
    apply res_bind_Ok in Hbody as (ratio & _ & Hbody).
    apply res_bind_Ok in Hbody as (c & _ & Hbody).
    apply res_bind_Ok in Hbody as (iso & Hget & _).
    exists iso. exact Hget.
  - apply Dict_get_keys in HcH. revert HcH.
    assert (Hsub : ∀ k, k ∈ Dict.keys cs → k ∈ Dict.keys averagine_aa); [|apply Hsub].
    revert Hloop.
    apply (for_each_inv
             (fun s : Dict.t Z * F => ∀ k, k ∈ Dict.keys s.1 → k ∈ Dict.keys averagine_aa)).
    + intros [c1 f1] AA [c2 f2] HAA Hinv Hbody. simpl in *.
      apply res_bind_Ok in Hbody as (ratio & _ & Hbody).
      apply res_bind_Ok in Hbody as (c & _ & Hbody).
      apply res_bind_Ok in Hbody as (iso & _ & Hbody).
      injection Hbody as <- <-.
      intros k Hk. apply Dict_keys_set_elem in Hk as [->|Hk]; [exact HAA|apply Hinv, Hk].
    + simpl. intros k Hk. apply elem_of_nil in Hk. contradiction.
  - exists isoH. split; [exact HisoH|].
    unfold truediv in Hq. destruct (f_is_zero (m0 isoH)); [discriminate|reflexivity].
Qed.

(** X14: [dict_to_dist] returns an envelope only if every element of the
    composition is in the isotope table, whatever its count. *)
Theorem dict_to_dist_requires (counted_AA : Dict.t Z) (isotopes : Dict.t IDF)
    (h h' : heap F) (dist : IDF) :
  dict_to_dist counted_AA isotopes h = Ok (dist, h') →
  ∀ k, k ∈ Dict.keys counted_AA → ∃ iso, Dict.get isotopes k = Ok iso.
Proof.
  unfold dict_to_dist. intros Hrun k Hk.
  apply M_bind_Ok in Hrun as (d0 & h0 & _ & Hloop).
  destruct (M_for_each_Ok_all _ _ _ _ _ _ Hloop k Hk) as (s1 & h1 & s2 & h2 & Hbody).
  unfold dict_to_dist_body in Hbody.
  apply M_bind_Ok in Hbody as (x & h3 & _ & Hbody).
  apply M_bind_Ok in Hbody as (iso & h4 & Hiso & _).
  apply lift_Ok in Hiso as [Hiso _]. exists iso. exact Hiso.
Qed.

End AveragineGeneric.

Lemma get_average_formula_closed_form_witness :
  ∃ counted_AA,
    get_average_formula 13%float 1000%float averagine_aa_2 isotopes_2 true
    = Ok counted_AA ∧
    Dict.keys counted_AA = Dict.keys averagine_aa_2 ∧
    (∀ k r, (k, r) ∈ averagine_aa_2 → k ≠ "H" →
            Dict.get counted_AA k
            = Ok (f_rint (f_mul (f_div 1000%float 13%float) r))) ∧
    (∀ r, ("H", r) ∈ averagine_aa_2 →
          Dict.get counted_AA "H"
          = Ok (f_rint (f_mul (f_div 1000%float 13%float) r)
                + f_rint (f_div (f_sub 1000%float
                                   (summed_mass isotopes_2 f_zero
                                      (rounded_counts (f_div 1000%float 13%float)
                                         averagine_aa_2)))
                                1%float))%Z).
Proof.
  apply (get_average_formula_closed_form 13%float 1000%float averagine_aa_2 isotopes_2
           {| m0 := 1%float; dm := 2; intensities := 1%nat |}).
  - reflexivity.
  - unfold Dict.keys. simpl. apply NoDup_cons. split.
    + intros Hin. apply list_elem_of_singleton in Hin. discriminate.
    + apply NoDup_singleton.
  - unfold Dict.keys. simpl. right. left.
  - unfold Dict.keys. simpl. intros k Hk.
    apply elem_of_cons in Hk as [->|Hk]; [eexists; reflexivity|].
    apply list_elem_of_singleton in Hk as ->. eexists; reflexivity.
  - reflexivity.
  - reflexivity.
  - intros k r Hin. unfold averagine_aa_2 in Hin.
    apply elem_of_cons in Hin as [[= -> ->]|Hin];
      [|apply list_elem_of_singleton in Hin as [= -> ->]];
      (split; [apply Z.leb_le|apply Z.ltb_lt]; vm_compute; reflexivity).
  - split; [apply Z.leb_le|apply Z.ltb_lt]; vm_compute; reflexivity.
  - intros r Hin. unfold averagine_aa_2 in Hin.
    apply elem_of_cons in Hin as [[=]|Hin].
    apply list_elem_of_singleton in Hin as [= ->].
    split; [apply Z.leb_le|apply Z.ltb_lt]; vm_compute; reflexivity.
Defined.

Lemma get_average_formula_requires_witness :
  true = true ∧
  f_is_zero 13%float = false ∧
  (∀ k, k ∈ Dict.keys averagine_aa_2 → ∃ iso, Dict.get isotopes_2 k = Ok iso) ∧
  "H" ∈ Dict.keys averagine_aa_2 ∧
  ∃ isoH, Dict.get isotopes_2 "H" = Ok isoH ∧ f_is_zero (m0 isoH) = false.
Proof.
  apply (get_average_formula_requires 13%float 1000%float averagine_aa_2 isotopes_2 true
           [("C", 77%Z); ("H", 76%Z)]).
  vm_compute. reflexivity.
Defined.

Lemma dict_to_dist_requires_witness :
  ∃ dist h',
    dict_to_dist [("C", 1%Z); ("H", 1%Z)] isotopes_2 store_2 = Ok (dist, h') ∧
    ∀ k, k ∈ Dict.keys [("C", 1%Z); ("H", 1%Z)] →
         ∃ iso, Dict.get isotopes_2 k = Ok iso.
Proof.
  eexists _, _. split; [vm_compute; reflexivity|].
  eapply (dict_to_dist_requires [("C", 1%Z); ("H", 1%Z)] isotopes_2 store_2).
  vm_compute. reflexivity.
Defined.

(** ** From a mass to its distribution, in exact arithmetic *)

Section MassToDistExact.

Local Open Scope R_scope.

Abbreviation IDR := (IsotopeDistribution R).

(** The estimator in exact arithmetic under well formed tables: it
    returns, with the elements of the ratio table, and the mass of what it
    returns is within half a hydrogen offset of the input. *)
Lemma averagine_exact_run (averagine_avg molecule_mass : R)
    (averagine_aa : Dict.t R) (isotopes : Dict.t IDR) (isoH : IDR) :
  averagine_avg ≠ 0 →
  NoDup (Dict.keys averagine_aa) →
  "H" ∈ Dict.keys averagine_aa →
  (∀ k, k ∈ Dict.keys averagine_aa → ∃ iso, Dict.get isotopes k = Ok iso) →
  Dict.get isotopes "H" = Ok isoH →
  0 < m0 isoH →
  ∃ counted_AA,
    get_average_formula averagine_avg molecule_mass averagine_aa isotopes true
    = Ok counted_AA ∧
    Dict.keys counted_AA = Dict.keys averagine_aa ∧
    Rabs (molecule_mass - weighted isotopes counted_AA) <= m0 isoH / 2.
Proof.
  intros Havg Hnd HH Hiso HisoH Hpos.
  set (units := molecule_mass / averagine_avg).
  set (cs := counts units averagine_aa).
  assert (Hcs_keys : Dict.keys cs = Dict.keys averagine_aa) by apply counts_keys.
  destruct (Dict_get_total cs "H") as [cH HcH]; [rewrite Hcs_keys; exact HH|].
  set (W := weighted isotopes cs).
  set (q := (molecule_mass - (0 + W)) / m0 isoH).
  exists (Dict.set cs "H" (cH + Exact.rint q)%Z).
  split; [|split].
  - unfold get_average_formula.
    rewrite truediv_exact by exact Havg. simpl.
    rewrite (averagine_loop isotopes units averagine_aa averagine_aa).
    + simpl. rewrite HisoH. simpl.
      rewrite truediv_exact by lra. simpl.
      fold cs. rewrite HcH. reflexivity.
    + intros k r Hin. apply Dict_get_elem_of; assumption.
    + exact Hiso.
    + exact Hnd.
    + intros k _ Hin. apply elem_of_nil in Hin. exact Hin.
  - rewrite (Dict_keys_set _ _ _ _ HcH). exact Hcs_keys.
  - rewrite (weighted_set isotopes cs "H" cH) by (rewrite ?Hcs_keys; assumption).
    rewrite (mass_of_get _ _ _ HisoH), plus_IZR. fold W.
    pose proof (rint_bound q) as Hq.
    assert (Hq' : - (1 / 2) <= IZR (Exact.rint q) - q <= 1 / 2).
    { revert Hq. unfold Rabs. destruct (Rcase_abs _); lra. }
    assert (Hqm : q * m0 isoH = molecule_mass - W) by (unfold q; field; lra).
    apply Rabs_le. nra.
Qed.

Lemma abs_counts_nonneg (d : Dict.t Z) :
  (∀ k c, (k, c) ∈ d → (0 ≤ c)%Z) → abs_counts d = d.
Proof.
  unfold abs_counts. induction d as [|[k c] d IH]; intros Hd; [reflexivity|].
  rewrite fmap_cons, IH by (intros k' c' Hin; apply (Hd k' c'); right; exact Hin).
  cbn [fst snd]. rewrite Z.abs_eq by (apply (Hd k c); left). reflexivity.
Qed.

(** The loop of [dict_to_dist] on the offsets. *)
Lemma dict_to_dist_loop_offset (counted_AA : Dict.t Z) (isotopes : Dict.t IDR)
    (suf : Dict.t Z) :
  (∀ k c, (k, c) ∈ suf → Dict.get counted_AA k = Ok c) →
  ∀ (dist : IDR) h r h',
    M_for_each (Dict.keys suf) (dict_to_dist_body counted_AA isotopes) dist h
    = Ok (r, h') →
    m0 r = m0 dist + weighted isotopes (abs_counts suf).
Proof.
  unfold Dict.keys.
  induction suf as [|[k c] suf IH]; simpl; intros Hget dist h r h' Hrun.
  - injection Hrun as <- <-. lra.
  - apply M_bind_Ok in Hrun as (d1 & h1 & Hbody & Hrun).
    rewrite (IH (fun k' c' Hin => Hget k' c' (list_elem_of_further _ _ _ Hin))
                _ _ _ _ Hrun).
    unfold dict_to_dist_body in Hbody.
    apply M_bind_Ok in Hbody as (x & h2 & Hinit & Hbody).
    rewrite init_eq in Hinit. injection Hinit as <- <-.
    apply M_bind_Ok in Hbody as (iso & h3 & Hiso & Hbody).
    apply lift_Ok in Hiso as [Hiso ->].
    apply M_bind_Ok in Hbody as (x1 & h4 & Hx1 & Hbody).
    apply M_bind_Ok in Hbody as (n & h5 & Hn & Hbody).
    apply lift_Ok in Hn as [Hn ->].
    rewrite (Hget k c) in Hn by left. injection Hn as <-.
    apply M_bind_Ok in Hbody as (x2 & h6 & Hx2 & Hbody).
    rewrite (add_offset _ _ _ _ _ Hbody), (mult_offset_abs _ _ _ _ _ Hx2),
      (add_offset _ _ _ _ _ Hx1), (mass_of_get _ _ _ Hiso).
    simpl. lra.
Qed.

(** The offset of the envelope [dict_to_dist] returns. *)
Lemma dict_to_dist_offset_abs (counted_AA : Dict.t Z) (isotopes : Dict.t IDR)
    (h h' : heap R) (r : IDR) :
  NoDup (Dict.keys counted_AA) →
  dict_to_dist counted_AA isotopes h = Ok (r, h') →
  m0 r = weighted isotopes (abs_counts counted_AA) ∧
  ((∀ k c, (k, c) ∈ counted_AA → (0 ≤ c)%Z) →
   total_mass counted_AA isotopes = Ok (m0 r)).
Proof.
  intros Hnd Hrun.
  assert (Hm : m0 r = weighted isotopes (abs_counts counted_AA)).
  { unfold dict_to_dist in Hrun.
    apply M_bind_Ok in Hrun as (d0 & h0 & Hinit & Hloop).
    rewrite init_eq in Hinit. injection Hinit as <- <-.
    rewrite (dict_to_dist_loop_offset counted_AA isotopes counted_AA
               (fun k c Hin => Dict_get_elem_of _ _ _ Hnd Hin) _ _ _ _ Hloop).
    simpl. lra. }
  split; [exact Hm|]. intros Hpos.
  rewrite Hm, abs_counts_nonneg by exact Hpos.
  apply total_mass_weighted; [exact Hnd|].
  unfold dict_to_dist in Hrun.
  apply M_bind_Ok in Hrun as (d0 & h0 & _ & Hloop).
  intros k Hk.
  destruct (M_for_each_Ok_all _ _ _ _ _ _ Hloop k Hk) as (s1 & h1 & s2 & h2 & Hbody).
  unfold dict_to_dist_body in Hbody.
  apply M_bind_Ok in Hbody as (x & h3 & _ & Hbody).
  apply M_bind_Ok in Hbody as (iso & h4 & Hiso & _).
  apply lift_Ok in Hiso as [Hiso _]. exists iso. exact Hiso.
Qed.

(** X10: in exact arithmetic, whenever [dict_to_dist] returns on a
    composition of distinct elements, the offset of the envelope is the
    sum over the elements of [|count|] times the offset of the element:
    the monoisotopic mass of the composition when no count is negative. *)
Theorem dict_to_dist_offset (counted_AA : Dict.t Z) (isotopes : Dict.t IDR)
    (h h' : heap R) (r : IDR) :
  NoDup (Dict.keys counted_AA) →
  dict_to_dist counted_AA isotopes h = Ok (r, h') →
  m0 r = weighted isotopes (abs_counts counted_AA) ∧
  ((∀ k c, (k, c) ∈ counted_AA → (0 ≤ c)%Z) →
   total_mass counted_AA isotopes = Ok (m0 r)).
Proof. exact (dict_to_dist_offset_abs counted_AA isotopes h h' r). Qed.

(** X11: in exact arithmetic, on well formed tables (non-zero
    [averagine_avg], distinct elements with hydrogen among them, every
    element in the isotope table with a sound envelope, a positive
    hydrogen offset), [mass_to_dist] returns for every mass; the masses it
    returns are as many as the intensities, at least one, and go up by 1
    from the offset of the composition; and when no count of the estimated
    composition is negative, that lowest mass is within half a hydrogen
    offset of the input mass. *)
Theorem mass_to_dist_exact (averagine_avg molecule_mass : R)
    (averagine_aa : Dict.t R) (isotopes : Dict.t IDR) (isoH : IDR) (h : heap R) :
  averagine_avg ≠ 0 →
  NoDup (Dict.keys averagine_aa) →
  "H" ∈ Dict.keys averagine_aa →
  (∀ k, k ∈ Dict.keys averagine_aa →
        ∃ iso, Dict.get isotopes k = Ok iso ∧ sound h iso) →
  Dict.get isotopes "H" = Ok isoH →
  0 < m0 isoH →
  ∃ counted_AA masses ints h' ms a,
    get_average_formula averagine_avg molecule_mass averagine_aa isotopes true
    = Ok counted_AA ∧
    mass_to_dist averagine_avg molecule_mass averagine_aa isotopes h
    = Ok ((masses, ints), h') ∧
    h' !! masses = Some ms ∧
    h' !! ints = Some a ∧
    length ms = length a ∧
    (1 ≤ length ms)%nat ∧
    (∀ i : nat, (i < length ms)%nat →
       ms !! i = Some (weighted isotopes (abs_counts counted_AA) + IZR (Z.of_nat i))) ∧
    ((∀ k c, (k, c) ∈ counted_AA → (0 ≤ c)%Z) →
     Rabs (molecule_mass - weighted isotopes (abs_counts counted_AA))
     <= m0 isoH / 2).
Proof.
  intros Havg Hnd HH Htable HisoH Hpos.
  destruct (averagine_exact_run averagine_avg molecule_mass averagine_aa isotopes isoH)
    as (counted_AA & Hgaf & Hkeys & Hbound); try assumption.
  { intros k Hk. destruct (Htable k Hk) as (iso & Hiso & _). exists iso. exact Hiso. }
  destruct (dict_to_dist_sound counted_AA isotopes h) as (dist & h1 & Hdist & Hpre & Hs).
  { rewrite Hkeys. exact Htable. }
  destruct (dict_to_dist_offset_abs counted_AA isotopes h h1 dist) as [Hm _];
    [rewrite Hkeys; exact Hnd|exact Hdist|].
  destruct Hs as (a & Ha & Hdm & _ & _).
  set (ms := (fun i => f_add (m0 dist) (f_of_int i)) <$> range (Z.of_nat (length a))).
  exists counted_AA, (length h1), (intensities dist), (h1 ++ [ms]), ms, a.
  split; [exact Hgaf|]. split.
  { unfold mass_to_dist, M_bind, lift. rewrite Hgaf, Hdist.
    unfold load. rewrite Ha. reflexivity. }
  split; [apply lookup_alloc|].
  split; [apply lookup_alloc_old; exact Ha|].
  assert (Hlen : length ms = length a).
  { unfold ms, range. rewrite !length_fmap, length_seq. lia. }
  split; [exact Hlen|]. split; [lia|]. split.
  - intros i Hi. unfold ms, range. rewrite Nat2Z.id.
    rewrite !list_lookup_fmap, lookup_seq_lt by lia. simpl. rewrite Hm. reflexivity.
  - intros Hnonneg. rewrite abs_counts_nonneg by exact Hnonneg. exact Hbound.
Qed.

End MassToDistExact.

Lemma sound_example_H :
  sound [[1%R; (1 / 2)%R]] {| m0 := 1%R; dm := 2; intensities := 0%nat |}.
Proof.
  destruct sound_example as (a & Ha & Hrest). exists a. split; [exact Ha|exact Hrest].
Qed.

Lemma dict_to_dist_offset_witness :
  ∃ r h',
    dict_to_dist [("C", 2%Z); ("H", 3%Z)]
      [("C", {| m0 := 12%R; dm := 2; intensities := 0%nat |});
       ("H", {| m0 := 1%R; dm := 2; intensities := 0%nat |})]
      [[1%R; (1 / 2)%R]] = Ok (r, h') ∧
    m0 r = weighted
             [("C", {| m0 := 12%R; dm := 2; intensities := 0%nat |});
              ("H", {| m0 := 1%R; dm := 2; intensities := 0%nat |})]
             (abs_counts [("C", 2%Z); ("H", 3%Z)]) ∧
    ((∀ k c, (k, c) ∈ [("C", 2%Z); ("H", 3%Z)] → (0 ≤ c)%Z) →
     total_mass [("C", 2%Z); ("H", 3%Z)]
       [("C", {| m0 := 12%R; dm := 2; intensities := 0%nat |});
        ("H", {| m0 := 1%R; dm := 2; intensities := 0%nat |})] = Ok (m0 r)).
Proof.
  destruct (dict_to_dist_sound [("C", 2%Z); ("H", 3%Z)]
              [("C", {| m0 := 12%R; dm := 2; intensities := 0%nat |});
               ("H", {| m0 := 1%R; dm := 2; intensities := 0%nat |})]
              [[1%R; (1 / 2)%R]]) as (r & h' & Hrun & _).
  - unfold Dict.keys. simpl. intros k Hk.
    apply elem_of_cons in Hk as [->|Hk];
      [eexists; split; [reflexivity|exact sound_example]|].
    apply list_elem_of_singleton in Hk as ->.
    eexists; split; [reflexivity|exact sound_example_H].
  - exists r, h'. split; [exact Hrun|].
    apply (dict_to_dist_offset _ _ _ _ _) in Hrun; [exact Hrun|].
    unfold Dict.keys. simpl. apply NoDup_cons. split.
    + intros Hin. apply list_elem_of_singleton in Hin. discriminate.
    + apply NoDup_singleton.
Defined.

Lemma mass_to_dist_exact_witness :
  ∃ counted_AA masses ints h' ms a,
    get_average_formula 13%R 1000%R [("C", 1%R); ("H", 1%R)]
      [("C", {| m0 := 12%R; dm := 2; intensities := 0%nat |});
       ("H", {| m0 := 1%R; dm := 2; intensities := 0%nat |})] true
    = Ok counted_AA ∧
    mass_to_dist 13%R 1000%R [("C", 1%R); ("H", 1%R)]
      [("C", {| m0 := 12%R; dm := 2; intensities := 0%nat |});
       ("H", {| m0 := 1%R; dm := 2; intensities := 0%nat |})]
      [[1%R; (1 / 2)%R]]
    = Ok ((masses, ints), h') ∧
    h' !! masses = Some ms ∧
    h' !! ints = Some a ∧
    length ms = length a ∧
    (1 ≤ length ms)%nat ∧
    (∀ i : nat, (i < length ms)%nat →
       ms !! i
       = Some (weighted
                 [("C", {| m0 := 12%R; dm := 2; intensities := 0%nat |});
                  ("H", {| m0 := 1%R; dm := 2; intensities := 0%nat |})]
                 (abs_counts counted_AA) + IZR (Z.of_nat i))%R) ∧
    ((∀ k c, (k, c) ∈ counted_AA → (0 ≤ c)%Z) →
     (Rabs (1000 - weighted
                     [("C", {| m0 := 12%R; dm := 2; intensities := 0%nat |});
                      ("H", {| m0 := 1%R; dm := 2; intensities := 0%nat |})]
                     (abs_counts counted_AA)) <= 1 / 2)%R).
Proof.
  apply (mass_to_dist_exact 13%R 1000%R [("C", 1%R); ("H", 1%R)]
           [("C", {| m0 := 12%R; dm := 2; intensities := 0%nat |});
            ("H", {| m0 := 1%R; dm := 2; intensities := 0%nat |})]
           {| m0 := 1%R; dm := 2; intensities := 0%nat |} [[1%R; (1 / 2)%R]]).
  - lra.
  - unfold Dict.keys. simpl. apply NoDup_cons. split.
    + intros Hin. apply list_elem_of_singleton in Hin. discriminate.
    + apply NoDup_singleton.
  - unfold Dict.keys. simpl. right. left.
  - unfold Dict.keys. simpl. intros k Hk.
    apply elem_of_cons in Hk as [->|Hk];
      [eexists; split; [reflexivity|exact sound_example]|].
    apply list_elem_of_singleton in Hk as ->.
    eexists; split; [reflexivity|exact sound_example_H].
  - reflexivity.
  - simpl. lra.
Defined.

(** ** The raw convolution in exact arithmetic *)

Section ConvolutionExact.

Local Open Scope R_scope.

Lemma sumR_cons (x : R) (l : list R) : sumR (x :: l) = x + sumR l.
Proof. reflexivity. Qed.

Lemma sumR_app (l1 l2 : list R) : sumR (l1 ++ l2) = sumR l1 + sumR l2.
Proof.
  induction l1 as [|x l1 IH]; [unfold sumR; simpl; lra|].
  rewrite <- app_comm_cons, !sumR_cons, IH. lra.
Qed.

Lemma sumR_snoc {A} (f : A → R) (l : list A) (x : A) :
  sumR (f <$> l ++ [x]) = sumR (f <$> l) + f x.
Proof. rewrite fmap_app, sumR_app. unfold sumR at 2. simpl. lra. Qed.

Lemma sumR_zero {A} (f : A → R) (l : list A) :
  (∀ x, x ∈ l → f x = 0) → sumR (f <$> l) = 0.
Proof.
  induction l as [|x l IH]; intros Hf; [reflexivity|].
  rewrite fmap_cons, sumR_cons, (Hf x) by left. rewrite IH; [lra|].
  intros y Hy. apply Hf. right. exact Hy.
Qed.

(** Two nested sums can be taken in either order. *)
Lemma sumR_swap {A B} (f : A → B → R) (xs : list A) (ys : list B) :
  sumR ((fun x => sumR (f x <$> ys)) <$> xs)
  = sumR ((fun y => sumR ((fun x => f x y) <$> xs)) <$> ys).
Proof.
  induction xs as [|x xs IH].
  - symmetry. apply sumR_zero. reflexivity.
  - rewrite fmap_cons, sumR_cons, IH. clear IH.
    induction ys as [|y ys IH]; [unfold sumR; simpl; lra|].
    rewrite !fmap_cons, !sumR_cons, <- IH. lra.
Qed.

Lemma sumR_ext {A} (f g : A → R) (l : list A) :
  (∀ x, f x = g x) → sumR (f <$> l) = sumR (g <$> l).
Proof.
  intros Hfg. induction l as [|x l IH]; [reflexivity|].
  rewrite !fmap_cons, !sumR_cons, Hfg, IH. reflexivity.
Qed.

Lemma conv_term_comm (int0 int1 : list R) (k : nat) (i j : Z) :
  conv_term int0 int1 k i j = conv_term int1 int0 k j i.
Proof.
  unfold conv_term.
  destruct (decide (i + j = Z.of_nat k)%Z); destruct (decide (j + i = Z.of_nat k)%Z);
    try lia; lra.
Qed.

Lemma conv_entry_comm (dm0 : Z) (int0 : list R) (dm1 : Z) (int1 : list R) (k : nat) :
  conv_entry dm0 int0 dm1 int1 k = conv_entry dm1 int1 dm0 int0 k.
Proof.
  unfold conv_entry. rewrite sumR_swap.
  apply sumR_ext. intros j. apply sumR_ext. intros i. apply conv_term_comm.
Qed.

(** The two loops of [fast_add] add to every entry [k] of [ni] the sum of
    the products [int0[i] * int1[j]] with [i + j = k]. *)
Lemma convolve_entries (dm0 dm1 : Z) (int0 int1 z : list R) :
  (0 ≤ dm0 ≤ Z.of_nat (length int0))%Z →
  (0 ≤ dm1 ≤ Z.of_nat (length int1))%Z →
  (dm0 + dm1 - 1 ≤ Z.of_nat (length z))%Z →
  ∃ ni, convolve dm0 int0 dm1 int1 z = Ok ni ∧
        length ni = length z ∧
        ∀ k v0, z !! k = Some v0 →
                ni !! k = Some (v0 + conv_entry dm0 int0 dm1 int1 k).
Proof.
  intros Hdm0 Hdm1 Hlen. unfold convolve, conv_entry.
  set (row := fun k i => sumR (conv_term int0 int1 k i <$> range dm1)).
  destruct (for_each_total
              (fun pre ni => length ni = length z ∧
                             ∀ k v0, z !! k = Some v0 →
                                     ni !! k = Some (v0 + sumR (row k <$> pre)))
              (range dm0)
              (fun ni i => for_each (range dm1)
                             (fun ni j => accumulate int0 int1 i j ni) ni))
    with (s := z) as (ni & Hrun & Hl & Hent).
  - intros pre i suf ni Hxs (Hl & Hent).
    assert (Hi : (0 ≤ i < dm0)%Z).
    { apply elem_of_range. rewrite Hxs. apply elem_of_app. right. left. }
    destruct (for_each_total
                (fun pre' ni =>
                   length ni = length z ∧
                   ∀ k v0, z !! k = Some v0 →
                           ni !! k = Some (v0 + sumR (row k <$> pre)
                                           + sumR (conv_term int0 int1 k i <$> pre')))
                (range dm1)
                (fun ni j => accumulate int0 int1 i j ni))
      with (s := ni) as (ni' & Hrun' & Hl' & Hent').
    + intros pre' j suf' t Hys (Hlt & Hentt).
      assert (Hj : (0 ≤ j < dm1)%Z).
      { apply elem_of_range. rewrite Hys. apply elem_of_app. right. left. }
      destruct (lookup_lt_is_Some_2 int0 (Z.to_nat i)) as [ai Hai]; [lia|].
      destruct (lookup_lt_is_Some_2 int1 (Z.to_nat j)) as [bj Hbj]; [lia|].
      destruct (accumulate_step int0 int1 t i j ai bj) as (c & Hc & ->);
        [lia|lia|exact Hai|exact Hbj|lia|].
      eexists. split; [reflexivity|].
      split; [rewrite length_insert; exact Hlt|].
      intros k v0 Hv0. rewrite sumR_snoc.
      unfold conv_term at 2. rewrite Hai, Hbj. simpl default.
      destruct (decide (i + j = Z.of_nat k)%Z) as [Heq|Hne].
      * replace (Z.to_nat (i + j)) with k by lia.
        rewrite list_lookup_insert_eq by (rewrite Hlt; eapply lookup_lt_Some, Hv0).
        replace (Z.to_nat (i + j)) with k in Hc by lia.
        rewrite (Hentt k v0 Hv0) in Hc. injection Hc as <-. f_equal. lra.
      * rewrite list_lookup_insert_ne by lia.
        rewrite (Hentt k v0 Hv0). f_equal. lra.
    + split; [exact Hl|]. intros k v0 Hv0. rewrite (Hent k v0 Hv0). f_equal. simpl. lra.
    + exists ni'. split; [exact Hrun'|]. split; [exact Hl'|].
      intros k v0 Hv0. rewrite (Hent' k v0 Hv0), sumR_snoc. f_equal.
      unfold row. lra.
  - split; [reflexivity|]. intros k v0 Hv0. rewrite Hv0. f_equal. simpl. lra.
  - exists ni. split; [exact Hrun|]. split; [exact Hl|exact Hent].
Qed.

(** The raw convolution does not depend on the order of the envelopes. *)
Lemma convolve_comm (dm0 dm1 : Z) (int0 int1 z : list R) :
  (0 ≤ dm0 ≤ Z.of_nat (length int0))%Z →
  (0 ≤ dm1 ≤ Z.of_nat (length int1))%Z →
  (dm0 + dm1 - 1 ≤ Z.of_nat (length z))%Z →
  convolve dm0 int0 dm1 int1 z = convolve dm1 int1 dm0 int0 z.
Proof.
  intros Hdm0 Hdm1 Hlen.
  destruct (convolve_entries dm0 dm1 int0 int1 z) as (ni & -> & Hl & Hent); try assumption.
  destruct (convolve_entries dm1 dm0 int1 int0 z) as (ni' & -> & Hl' & Hent');
    [assumption|assumption|lia|].
  f_equal. apply list_eq. intros k.
  destruct (z !! k) as [v0|] eqn:Hz.
  - rewrite (Hent k v0 Hz), (Hent' k v0 Hz), conv_entry_comm. reflexivity.
  - apply lookup_ge_None in Hz.
    rewrite (lookup_ge_None_2 ni), (lookup_ge_None_2 ni') by lia. reflexivity.
Qed.

Lemma fast_add_comm_exact (m0 : R) (dm0 : Z) (int0 : list R) (m1 : R) (dm1 : Z)
    (int1 : list R) (P : R) :
  (0 ≤ dm0 ≤ Z.of_nat (length int0))%Z →
  (0 ≤ dm1 ≤ Z.of_nat (length int1))%Z →
  fast_add m0 dm0 int0 m1 dm1 int1 P = fast_add m1 dm1 int1 m0 dm0 int0 P.
Proof.
  intros Hdm0 Hdm1. unfold fast_add.
  replace (dm1 + dm0 - 1)%Z with (dm0 + dm1 - 1)%Z by lia.
  destruct (np_zeros (dm0 + dm1 - 1)) as [z| | |] eqn:Hz; simpl; [|reflexivity..].
  apply np_zeros_length in Hz as [Hlz Hpos].
  rewrite (convolve_comm dm0 dm1 int0 int1 z) by (assumption || lia).
  replace (dm1 + (dm0 - 1))%Z with (dm0 + (dm1 - 1))%Z by lia.
  rewrite (Rplus_comm m1 m0). reflexivity.
Qed.

(** X15: in exact arithmetic convolution is commutative: for two
    envelopes whose peak counts do not exceed their arrays, [A.add(B)] and
    [B.add(A)] have the same outcome, and when they return they return the
    same offset, peak count and intensities. *)
Theorem add_commutative (A B : IsotopeDistribution R) (h : heap R) (a b : list R) :
  h !! intensities A = Some a →
  h !! intensities B = Some b →
  (0 ≤ dm A ≤ Z.of_nat (length a))%Z →
  (0 ≤ dm B ≤ Z.of_nat (length b))%Z →
  add A B h = add B A h ∧
  conv (m0 A, dm A, a) (m0 B, dm B, b) = conv (m0 B, dm B, b) (m0 A, dm A, a).
Proof.
  intros Ha Hb HdA HdB.
  pose proof (fast_add_comm_exact (m0 A) (dm A) a (m0 B) (dm B) b f_prune HdA HdB) as Hc.
  split.
  - rewrite (add_eq A B h a b Ha Hb), (add_eq B A h b a Hb Ha), Hc. reflexivity.
  - unfold conv. cbn [fst snd]. rewrite Hc. reflexivity.
Qed.

End ConvolutionExact.

Section ConvolutionExactMore.

Local Open Scope R_scope.

Lemma np_zeros_lookup (n : Z) (z : list R) (k : nat) :
  np_zeros n = Ok z → (k < length z)%nat → z !! k = Some 0.
Proof.
  unfold np_zeros. destruct (n <? 0)%Z; [discriminate|]. intros [= <-] Hk.
  rewrite length_replicate in Hk. apply lookup_replicate_2. exact Hk.
Qed.

(** X16: in exact arithmetic, for two envelopes whose peak counts do not
    exceed their arrays, a call of [fast_add] that returns gives the
    product of the two intensity polynomials divided by its largest
    coefficient: entry [k] is the sum of [int0[i] * int1[j]] over
    [i < dm0], [j < dm1] with [i + j = k], divided by the maximum of these
    sums. *)
Theorem fast_add_polynomial_product (m0 : R) (dm0 : Z) (int0 : list R) (m1 : R)
    (dm1 : Z) (int1 : list R) (P : R) (m : R) (d : Z) (ints : list R) :
  (0 ≤ dm0 ≤ Z.of_nat (length int0))%Z →
  (0 ≤ dm1 ≤ Z.of_nat (length int1))%Z →
  fast_add m0 dm0 int0 m1 dm1 int1 P = Ok (m, d, ints) →
  ∃ mx,
    (∀ k : nat, (k < length ints)%nat →
       ints !! k = Some (conv_entry dm0 int0 dm1 int1 k / mx)) ∧
    (∃ k : nat, (k < length ints)%nat ∧ conv_entry dm0 int0 dm1 int1 k = mx) ∧
    (∀ k : nat, (k < length ints)%nat → conv_entry dm0 int0 dm1 int1 k <= mx).
Proof.
  intros Hdm0 Hdm1 Hrun.
  apply fast_add_Ok in Hrun as (z & ni & mx & Hz & Hni & Hmx & Hlen & _ & _ & ->).
  pose proof (np_zeros_length _ _ Hz) as [Hlz Hpos].
  destruct (convolve_entries dm0 dm1 int0 int1 z) as (ni' & Hni' & Hl & Hent);
    [assumption|assumption|lia|].
  rewrite Hni in Hni'. injection Hni' as <-.
  assert (Hraw : ∀ k : nat, (k < length ni)%nat →
                            ni !! k = Some (conv_entry dm0 int0 dm1 int1 k)).
  { intros k Hk. rewrite (Hent k 0); [f_equal; lra|].
    apply (np_zeros_lookup _ _ _ Hz). lia. }
  apply np_max_spec in Hmx as [Hin Hup].
  exists mx. rewrite length_fmap. split; [|split].
  - intros k Hk. rewrite list_lookup_fmap, (Hraw k Hk). reflexivity.
  - apply list_elem_of_lookup_1 in Hin as [k Hk].
    pose proof (lookup_lt_Some _ _ _ Hk) as Hlt.
    exists k. split; [exact Hlt|]. rewrite (Hraw k Hlt) in Hk. injection Hk as ->.
    reflexivity.
  - intros k Hk. apply Hup. eapply list_elem_of_lookup_2, (Hraw k Hk).
Qed.

Lemma range_succ (n : Z) : (0 ≤ n)%Z → range (n + 1) = range n ++ [n].
Proof.
  intros Hn. unfold range.
  replace (Z.to_nat (n + 1)) with (S (Z.to_nat n)) by lia.
  rewrite seq_S, fmap_app. simpl. rewrite Z2Nat.id by lia. reflexivity.
Qed.

(** A sum that picks the one index [k] of a range. *)
Lemma sumR_pick (g : Z → R) (k : nat) (n : nat) :
  sumR ((fun j => if decide (j = Z.of_nat k) then g j else 0) <$> range (Z.of_nat n))
  = if decide (k < n)%nat then g (Z.of_nat k) else 0.
Proof.
  induction n as [|n IH].
  - reflexivity.
  - rewrite Nat2Z.inj_succ, <- Z.add_1_r, range_succ, sumR_snoc, IH by lia.
    destruct (decide (k < n)%nat); destruct (decide (Z.of_nat n = Z.of_nat k));
      destruct (decide (k < S n)%nat); try lia; try lra.
    replace (Z.of_nat n) with (Z.of_nat k) by lia. lra.
Qed.

Lemma conv_entry_identity (dm : Z) (a : list R) (k : nat) (v : R) :
  (0 ≤ dm)%Z → (Z.of_nat k < dm)%Z → a !! k = Some v →
  conv_entry 1 [1] dm a k = v.
Proof.
  intros Hdm Hk Hv. unfold conv_entry. change (range 1) with [0%Z].
  rewrite fmap_cons, sumR_cons. change (sumR (_ <$> [])) with 0.
  rewrite <- (Z2Nat.id dm) by lia.
  rewrite (sumR_ext _ (fun j => if decide (j = Z.of_nat k)
                                then default 0 (a !! Z.to_nat j) else 0)).
  - rewrite sumR_pick. destruct (decide (k < Z.to_nat dm)%nat); [|lia].
    rewrite Nat2Z.id, Hv. simpl. lra.
  - intros j. unfold conv_term.
    destruct (decide (0 + j = Z.of_nat k)%Z); destruct (decide (j = Z.of_nat k));
      try lia; [simpl; lra|reflexivity].
Qed.

Lemma fast_add_identity_left (m : R) (dm : Z) (a : list R) (w : R) :
  (1 ≤ dm ≤ Z.of_nat (length a))%Z →
  np_max (take (Z.to_nat dm) a) = Ok 1 →
  a !! Z.to_nat (dm - 1) = Some w →
  f_prune <= w →
  fast_add 0 1 [1] m dm a f_prune = Ok (m, dm, take (Z.to_nat dm) a).
Proof.
  intros Hdm Hmax Hw HP.
  set (z := replicate (Z.to_nat (1 + dm - 1)) 0 : list R).
  assert (Hz : np_zeros (1 + dm - 1) = Ok z).
  { unfold np_zeros. destruct (Z.ltb_spec (1 + dm - 1) 0); [lia|reflexivity]. }
  assert (Hlz : length z = Z.to_nat dm) by (unfold z; rewrite length_replicate; lia).
  destruct (convolve_entries 1 dm [1] a z) as (ni & Hni & Hl & Hent);
    [simpl; lia|lia|lia|].
  assert (Hraw : ni = take (Z.to_nat dm) a).
  { apply list_eq. intros k.
    destruct (Nat.lt_ge_cases k (Z.to_nat dm)) as [Hk|Hk].
    - destruct (lookup_lt_is_Some_2 a k) as [v Hv]; [lia|].
      rewrite lookup_take_lt, Hv by exact Hk.
      rewrite (Hent k 0) by (apply (np_zeros_lookup _ _ _ Hz); lia).
      rewrite (conv_entry_identity dm a k v) by (lia || exact Hv). f_equal. lra.
    - rewrite (lookup_ge_None_2 ni) by lia.
      symmetry. apply lookup_ge_None_2. rewrite length_take. lia. }
  subst ni.
  unfold fast_add. rewrite Hz. cbn [res_bind]. rewrite Hni. cbn [res_bind].
  rewrite Hmax. cbn [res_bind].
  assert (Hloop : prune_loop (2 * length (take (Z.to_nat dm) a) + 2)
                    (take (Z.to_nat dm) a) f_prune (1 + (dm - 1)) = Ok dm).
  { replace (2 * length (take (Z.to_nat dm) a) + 2)%nat
      with (S (2 * length (take (Z.to_nat dm) a) + 1)) by lia.
    replace (1 + (dm - 1))%Z with dm by lia.
    cbn [prune_loop]. unfold prune_test.
    rewrite (getitem_lookup (take (Z.to_nat dm) a) (dm - 1) w);
      [|lia|rewrite lookup_take_lt by lia; exact Hw].
    cbn [res_bind].
    destruct (f_ltb w f_prune) eqn:Hlt; [|reflexivity].
    apply ltb_lt in Hlt. lra. }
  rewrite Hloop. cbn [res_bind]. f_equal. f_equal; [f_equal; simpl; lra|].
  rewrite <- (list_fmap_id (take (Z.to_nat dm) a)) at 2.
  apply list_fmap_ext. intros _ x _. simpl. field.
Qed.

(** X17: in exact arithmetic the identity envelope is a unit of
    convolution on normalized envelopes whose last significant intensity
    is not under the threshold: convolving such an envelope with the
    identity, on either side, keeps its offset and its peak count and
    returns its first [peak_count] intensities (the slots behind them are
    dropped). *)
Theorem identity_is_unit (m : R) (dm : Z) (a : list R) (w : R) :
  (1 ≤ dm ≤ Z.of_nat (length a))%Z →
  np_max (take (Z.to_nat dm) a) = Ok 1 →
  a !! Z.to_nat (dm - 1) = Some w →
  f_prune <= w →
  conv identity_value (m, dm, a) = Ok (m, dm, take (Z.to_nat dm) a) ∧
  conv (m, dm, a) identity_value = Ok (m, dm, take (Z.to_nat dm) a).
Proof.
  intros Hdm Hmax Hw HP.
  pose proof (fast_add_identity_left m dm a w Hdm Hmax Hw HP) as Hleft.
  split.
  - unfold conv, identity_value. cbn [fst snd]. simpl f_zero. simpl f_one.
    rewrite Hleft. reflexivity.
  - unfold conv, identity_value. cbn [fst snd]. simpl f_zero. simpl f_one.
    rewrite (fast_add_comm_exact m dm a 0 1 [1]) by (simpl; lia).
    rewrite Hleft. reflexivity.
Qed.

End ConvolutionExactMore.

Lemma np_max_example : np_max (take (Z.to_nat 2) [1%R; (1 / 2)%R]) = Ok 1%R.
Proof.
  destruct sound_example as (a & Ha & _ & _ & Hmax).
  injection Ha as <-. exact Hmax.
Qed.

Lemma add_commutative_witness :
  add {| m0 := 12%R; dm := 2; intensities := 0%nat |}
      {| m0 := 1%R; dm := 1; intensities := 0%nat |} [[1%R; (1 / 2)%R]]
  = add {| m0 := 1%R; dm := 1; intensities := 0%nat |}
        {| m0 := 12%R; dm := 2; intensities := 0%nat |} [[1%R; (1 / 2)%R]] ∧
  conv (12%R, 2%Z, [1%R; (1 / 2)%R]) (1%R, 1%Z, [1%R; (1 / 2)%R])
  = conv (1%R, 1%Z, [1%R; (1 / 2)%R]) (12%R, 2%Z, [1%R; (1 / 2)%R]).
Proof.
  apply (add_commutative {| m0 := 12%R; dm := 2; intensities := 0%nat |}
           {| m0 := 1%R; dm := 1; intensities := 0%nat |} [[1%R; (1 / 2)%R]]
           [1%R; (1 / 2)%R] [1%R; (1 / 2)%R]).
  - reflexivity.
  - reflexivity.
  - simpl. lia.
  - simpl. lia.
Defined.

Lemma fast_add_polynomial_product_witness :
  ∃ d ints,
    fast_add 12%R 2 [1%R; (1 / 2)%R] 1%R 2 [1%R; (1 / 2)%R] f_prune
    = Ok ((12 + 1)%R, d, ints) ∧
    ∃ mx,
      (∀ k : nat, (k < length ints)%nat →
         ints !! k
         = Some (conv_entry 2 [1%R; (1 / 2)%R] 2 [1%R; (1 / 2)%R] k / mx)%R) ∧
      (∃ k : nat, (k < length ints)%nat ∧
                  conv_entry 2 [1%R; (1 / 2)%R] 2 [1%R; (1 / 2)%R] k = mx) ∧
      (∀ k : nat, (k < length ints)%nat →
         (conv_entry 2 [1%R; (1 / 2)%R] 2 [1%R; (1 / 2)%R] k <= mx)%R).
Proof.
  destruct sound_example as (a & Ha & Hdm & Hpos & Hmax).
  injection Ha as <-. simpl in Hdm, Hpos, Hmax.
  destruct (fast_add_total 12%R 2 [1%R; (1 / 2)%R] 1%R 2 [1%R; (1 / 2)%R])
    as (d & ints & Hrun & _); try assumption.
  exists d, ints. split; [exact Hrun|].
  apply (fast_add_polynomial_product _ _ _ _ _ _ _ _ _ _) in Hrun;
    [exact Hrun|simpl; lia|simpl; lia].
Defined.

Lemma identity_is_unit_witness :
  conv identity_value (12%R, 2%Z, [1%R; (1 / 2)%R])
  = Ok (12%R, 2%Z, take (Z.to_nat 2) [1%R; (1 / 2)%R]) ∧
  conv (12%R, 2%Z, [1%R; (1 / 2)%R]) identity_value
  = Ok (12%R, 2%Z, take (Z.to_nat 2) [1%R; (1 / 2)%R]).
Proof.
  apply (identity_is_unit 12%R 2 [1%R; (1 / 2)%R] (1 / 2)%R).
  - simpl. lia.
  - exact np_max_example.
  - reflexivity.
  - simpl. lra.
Defined.

(** ** calculate_mass by the sign of the charge *)

(** X18: in exact arithmetic, for an int64 charge, [calculate_mass] is
    [charge * (mono_mz - proton_mass)] for a positive charge and
    [|charge| * (mono_mz + proton_mass)] for a negative one other than
    [-2^63]; at [-2^63] the [abs] wraps around and the result is
    [2^63 * (proton_mass - mono_mz)]; a charge of 0 is not rejected and
    gives the mass 0 for every [mono_mz]. *)
Theorem calculate_mass_by_sign (M_PROTON mono_mz : R) (charge : Z) :
  ((0 < charge < 2 ^ 63)%Z →
   calculate_mass M_PROTON mono_mz charge = (IZR charge * (mono_mz - M_PROTON))%R) ∧
  ((- 2 ^ 63 < charge < 0)%Z →
   calculate_mass M_PROTON mono_mz charge
   = (IZR (Z.abs charge) * (mono_mz + M_PROTON))%R) ∧
  (charge = (- 2 ^ 63)%Z →
   calculate_mass M_PROTON mono_mz charge
   = (IZR (2 ^ 63) * (M_PROTON - mono_mz))%R) ∧
  (charge = 0%Z → calculate_mass M_PROTON mono_mz charge = 0%R).
Proof.
  unfold calculate_mass. split; [|split; [|split]].
  - intros Hc. rewrite wrap64_abs by lia. simpl. rewrite Z.abs_eq by lia. ring.
  - intros Hc. rewrite wrap64_abs by lia. simpl. rewrite Z.abs_neq by lia.
    rewrite opp_IZR. ring.
  - intros ->.
    replace (wrap64 (Z.abs (- 2 ^ 63))) with (- (2 ^ 63))%Z by (vm_compute; reflexivity).
    replace (- 2 ^ 63)%Z with (- (2 ^ 63))%Z by reflexivity.
    simpl f_sub. simpl f_mul. simpl f_of_int. rewrite opp_IZR. ring.
  - intros ->. replace (wrap64 (Z.abs 0)) with 0%Z by (vm_compute; reflexivity).
    simpl. lra.
Qed.

Lemma calculate_mass_by_sign_witness :
  calculate_mass 1%R 501%R (-2) = (IZR (Z.abs (-2)) * (501 + 1))%R.
Proof. apply (calculate_mass_by_sign 1%R 501%R (-2)). lia. Defined.

(** ** mult: the number of convolutions *)

Section MultCost.

Context {F : Type} `{Float64 F}.

Lemma add_length (self x r : IsotopeDistribution F) (h h' : heap F) :
  add self x h = Ok (r, h') → length h' = S (length h).
Proof.
  intros Hrun. apply add_Ok in Hrun as (a & b & m & d & ints & _ & _ & _ & _ & ->).
  rewrite length_app. simpl. lia.
Qed.

Lemma mult_loop_length (bits : list Z) :
  ∀ (s s' : IsotopeDistribution F * IsotopeDistribution F) (h h' : heap F),
    M_for_each bits mult_body s h = Ok (s', h') →
    (length h + length bits ≤ length h' ≤ length h + 2 * length bits)%nat.
Proof.
  induction bits as [|b bits IH]; intros s s' h h' Hrun.
  - simpl in Hrun. injection Hrun as <- <-. simpl. lia.
  - simpl in Hrun. apply M_bind_Ok in Hrun as ([i1 m1] & h1 & Hbody & Hrun).
    destruct s as [i m].
    apply mult_body_Ok in Hbody as (h2 & Hfirst & Hadd).
    apply add_length in Hadd. apply IH in Hrun. simpl length.
    destruct (b =? 1)%Z.
    + apply add_length in Hfirst. lia.
    + destruct Hfirst as [_ ->]. lia.
Qed.

(** X19: [mult] is logarithmic in [n]: for [n >= 2], a call [E.mult(n)]
    that returns has allocated two arrays for its two constructor calls and
    one array for each convolution, and the convolutions are at least
    [floor(log2 n) + 1] and at most [2 * (floor(log2 n) + 1)]. *)
Theorem mult_cost (E : IsotopeDistribution F) (n : Z) (h h' : heap F)
    (r : IsotopeDistribution F) :
  (2 ≤ n)%Z →
  mult E n h = Ok (r, h') →
  ∃ convolutions : nat,
    length h' = (length h + 2 + convolutions)%nat ∧
    (Z.log2 n + 1 ≤ Z.of_nat convolutions ≤ 2 * (Z.log2 n + 1))%Z.
Proof.
  intros Hn. unfold mult. intros Hrun.
  apply M_bind_Ok in Hrun as (bs & h0 & Hbin & Hrun).
  apply lift_Ok in Hbin as [Hbin ->].
  destruct (Z.eqb_spec n 1) as [?|_]; [lia|].
  apply M_bind_Ok in Hrun as (i & h1 & Hinit & Hrun).
  rewrite init_eq in Hinit. injection Hinit as <- <-.
  apply M_bind_Ok in Hrun as (m & h2 & Hcopy & Hrun).
  rewrite copy_eq in Hcopy. injection Hcopy as <- <-.
  apply M_bind_Ok in Hrun as (s & h3 & Hloop & Hrun).
  unfold M_ret in Hrun. injection Hrun as <- <-.
  apply mult_loop_length in Hloop. rewrite !length_app, length_rev in Hloop.
  simpl in Hloop.
  destruct (numba_bin_digits_length n) as (bs' & Hbin' & _ & _ & Hup & Hlow); [lia|].
  rewrite Hbin in Hbin'. injection Hbin' as <-.
  destruct Hlow as [_ Hlow]; [lia|].
  assert (Hlog : Z.log2 n = (Z.of_nat (length bs) - 1)%Z).
  { apply Z.log2_unique; [|split; [exact Hlow|]].
    - destruct bs; [simpl in Hup; lia|simpl length; lia].
    - replace (Z.succ (Z.of_nat (length bs) - 1)) with (Z.of_nat (length bs)) by lia.
      exact Hup. }
  exists (length h3 - length h - 2)%nat. split; lia.
Qed.

End MultCost.

Lemma mult_cost_witness :
  ∃ r h' (convolutions : nat),
    mult envelope_3 4 store_3 = Ok (r, h') ∧
    length h' = (length store_3 + 2 + convolutions)%nat ∧
    (Z.log2 4 + 1 ≤ Z.of_nat convolutions ≤ 2 * (Z.log2 4 + 1))%Z.
Proof.
  edestruct (mult_cost envelope_3 4 store_3) as (c & Hlen & Hc);
    [lia|vm_compute; reflexivity|].
  eexists _, _, c. split; [vm_compute; reflexivity|]. split; [exact Hlen|exact Hc].
Defined.

(** ** fast_add: a peak count beyond the array *)


Section PeakCountBeyondArray.

Context {F : Type} `{Float64 F}.

Local Open Scope Z_scope.



End PeakCountBeyondArray.


(** ** add_from_dict *)

Section AddFromDict.

Context {F : Type} `{Float64 F} `{Float64Int F}.

(** X21: [self.add_from_dict(x)] on an array [x] that packs an envelope
    [E] (its offset, then its peak count, then its intensities, the peak
    count being a number whose integer part is [E.dm]) has the outcome of
    [self.add(E)]. *)
Theorem add_from_dict_unpacks (self E : IsotopeDistribution F) (x : loc)
    (h : heap F) (a0 a : list F) (v : F) :
  h !! intensities self = Some a0 →
  h !! x = Some (m0 E :: v :: a) →
  h !! intensities E = Some a →
  f_int v = dm E →
  add_from_dict self x h = add self E h.
Proof.
  intros Hself Hx HE Hv.
  unfold add_from_dict, add, M_bind, load. rewrite Hself, Hx, HE.
  destruct (getitem_nonneg (m0 E :: v :: a) 0) as (x0 & Hx0 & ->); [simpl; lia|].
  destruct (getitem_nonneg (m0 E :: v :: a) 1) as (x1 & Hx1 & ->); [simpl; lia|].
  simpl in Hx0, Hx1. injection Hx0 as <-. injection Hx1 as <-.
  cbn [lift]. rewrite Hv. reflexivity.
Qed.

(** X23: [self.add_from_dict(x)] on an array [x] of fewer than two entries
    reads [x[0]] or [x[1]] outside the array, an access the compiled code
    does not check. *)
Theorem add_from_dict_short_array (self : IsotopeDistribution F) (x : loc)
    (h : heap F) (a0 xa : list F) :
  h !! intensities self = Some a0 →
  h !! x = Some xa →
  (length xa < 2)%nat →
  (getitem xa 0 = OutOfBounds ∨ getitem xa 1 = OutOfBounds) ∧
  add_from_dict self x h = OutOfBounds.
Proof.
  intros Hself Hx Hlen.
  unfold add_from_dict, M_bind, load. rewrite Hself, Hx.
  destruct xa as [|x0 [|x1 xa]]; [| |simpl in Hlen; lia].
  - split; [left; reflexivity|reflexivity].
  - split; [right; reflexivity|reflexivity].
Qed.

End AddFromDict.

Lemma add_from_dict_unpacks_witness :
  add_from_dict envelope_3 1%nat [[1; 5.5e-4]; [12; 2; 1; 5.5e-4]]%float
  = add envelope_3 envelope_3 [[1; 5.5e-4]; [12; 2; 1; 5.5e-4]]%float.
Proof.
  apply (add_from_dict_unpacks envelope_3 envelope_3 1%nat
           [[1; 5.5e-4]; [12; 2; 1; 5.5e-4]]%float [1; 5.5e-4]%float
           [1; 5.5e-4]%float 2%float); reflexivity.
Defined.

Lemma add_from_dict_short_array_witness :
  (getitem [12%float] 0 = OutOfBounds ∨ getitem [12%float] 1 = OutOfBounds) ∧
  add_from_dict envelope_3 1%nat [[1; 5.5e-4]; [12]]%float = OutOfBounds.
Proof.
  apply (add_from_dict_short_array envelope_3 1%nat [[1; 5.5e-4]; [12]]%float
           [1; 5.5e-4]%float [12%float]); [reflexivity|reflexivity|simpl; lia].
Defined.

(** ** fast_add: when nothing is pruned *)

Section NothingPruned.

Local Open Scope R_scope.

(** The last entry of the raw convolution is the product of the last
    significant intensities. *)
Lemma conv_entry_last (dm0 dm1 : Z) (int0 int1 : list R) (a b : R) :
  (1 ≤ dm0)%Z → (1 ≤ dm1)%Z →
  int0 !! Z.to_nat (dm0 - 1) = Some a →
  int1 !! Z.to_nat (dm1 - 1) = Some b →
  conv_entry dm0 int0 dm1 int1 (Z.to_nat (dm0 + dm1 - 2)) = a * b.
Proof.
  intros Hdm0 Hdm1 Ha Hb. unfold conv_entry.
  assert (Hk : Z.of_nat (Z.to_nat (dm0 + dm1 - 2)) = (dm0 + dm1 - 2)%Z) by lia.
  generalize dependent (Z.to_nat (dm0 + dm1 - 2)). intros k Hk.
  replace (range dm0) with (range (dm0 - 1) ++ [(dm0 - 1)%Z])
    by (rewrite <- range_succ by lia; f_equal; lia).
  rewrite sumR_snoc.
  rewrite sumR_zero.
  - replace (range dm1) with (range (dm1 - 1) ++ [(dm1 - 1)%Z])
      by (rewrite <- range_succ by lia; f_equal; lia).
    rewrite sumR_snoc.
    rewrite sumR_zero.
    + unfold conv_term.
      destruct (decide (dm0 - 1 + (dm1 - 1) = Z.of_nat k)%Z); [|lia].
      rewrite Ha, Hb. simpl. lra.
    + intros j Hj. apply elem_of_range in Hj. unfold conv_term.
      destruct (decide (dm0 - 1 + j = Z.of_nat k)%Z); [lia|reflexivity].
  - intros i Hi. apply elem_of_range in Hi. apply sumR_zero.
    intros j Hj. apply elem_of_range in Hj. unfold conv_term.
    destruct (decide (i + j = Z.of_nat k)%Z); [lia|reflexivity].
Qed.

(** X22: in exact arithmetic, for two envelopes in range with at least one
    peak each, a call of [fast_add] that returns keeps all the
    [dm0 + dm1 - 1] peaks exactly when the product of the two last
    significant intensities, [int0[dm0 - 1] * int1[dm1 - 1]], is not under
    the threshold; a product equal to the threshold is kept. *)
Theorem fast_add_keeps_all_iff (m0 : R) (dm0 : Z) (int0 : list R) (m1 : R)
    (dm1 : Z) (int1 : list R) (P : R) (a b : R) (m : R) (d : Z) (ints : list R) :
  (1 ≤ dm0 ≤ Z.of_nat (length int0))%Z →
  (1 ≤ dm1 ≤ Z.of_nat (length int1))%Z →
  int0 !! Z.to_nat (dm0 - 1) = Some a →
  int1 !! Z.to_nat (dm1 - 1) = Some b →
  fast_add m0 dm0 int0 m1 dm1 int1 P = Ok (m, d, ints) →
  (d = dm0 + dm1 - 1)%Z ↔ P <= a * b.
Proof.
  intros Hdm0 Hdm1 Ha Hb Hrun.
  apply fast_add_Ok in Hrun as (z & ni & mx & Hz & Hni & _ & Hlen & Hd & _ & _).
  pose proof (np_zeros_length _ _ Hz) as [Hlz Hpos].
  destruct (convolve_entries dm0 dm1 int0 int1 z) as (ni' & Hni' & Hl & Hent);
    [lia|lia|lia|].
  rewrite Hni in Hni'. injection Hni' as <-.
  assert (Hlast : ni !! Z.to_nat (Z.of_nat (length ni) - 1) = Some (a * b)).
  { replace (Z.of_nat (length ni) - 1)%Z with (dm0 + dm1 - 2)%Z by lia.
    rewrite (Hent _ 0) by (apply (np_zeros_lookup _ _ _ Hz); lia).
    rewrite (conv_entry_last dm0 dm1 int0 int1 a b) by (lia || assumption).
    f_equal. lra. }
  pose proof (prune_loop_range _ _ _ _ Hd) as Hrange.
  apply prune_loop_Ok in Hd as (_ & Hstop & Hpass).
  split.
  - intros ->.
    destruct (prune_test_false ni P (dm0 + dm1 - 1)%Z) as (w & Hw & HPw);
      [lia|exact Hstop|].
    replace (dm0 + dm1 - 1 - 1)%Z with (Z.of_nat (length ni) - 1)%Z in Hw by lia.
    rewrite Hlast in Hw. injection Hw as <-. exact HPw.
  - intros HP.
    destruct (Z.eq_dec d (dm0 + dm1 - 1)%Z) as [?|Hne]; [assumption|exfalso].
    assert (Hlt : a * b < P).
    { apply (prune_test_true ni P (Z.of_nat (length ni))); [lia|exact Hlast|].
      apply Hpass. lia. }
    lra.
Qed.

End NothingPruned.

Lemma fast_add_keeps_all_iff_witness :
  ∃ d ints,
    fast_add 12%R 2 [1%R; (1 / 2)%R] 1%R 2 [1%R; (1 / 2)%R] f_prune
    = Ok ((12 + 1)%R, d, ints) ∧
    ((d = 2 + 2 - 1)%Z ↔ (f_prune <= 1 / 2 * (1 / 2))%R).
Proof.
  destruct sound_example as (a & Ha & Hdm & Hpos & Hmax).
  injection Ha as <-. simpl in Hdm, Hpos, Hmax.
  destruct (fast_add_total 12%R 2 [1%R; (1 / 2)%R] 1%R 2 [1%R; (1 / 2)%R])
    as (d & ints & Hrun & _); try assumption.
  exists d, ints. split; [exact Hrun|].
  apply (fast_add_keeps_all_iff 12%R 2 [1%R; (1 / 2)%R] 1%R 2 [1%R; (1 / 2)%R]
           f_prune (1 / 2)%R (1 / 2)%R (12 + 1)%R d ints);
    [simpl; lia|simpl; lia|reflexivity|reflexivity|exact Hrun].
Defined.

(** ** The normalization invariant of the operations *)

(** A convolution with a raw entry that is not under the threshold, on
    peak counts within the arrays: [fast_add] returns, the scan stops
    above that entry, and the result is normalized. *)
Lemma fast_add_nondegenerate (m0 : R) (dm0 : Z) (int0 : list R) (m1 : R) (dm1 : Z)
    (int1 : list R) (k : nat) :
  (1 ≤ dm0 ≤ Z.of_nat (length int0))%Z →
  (1 ≤ dm1 ≤ Z.of_nat (length int1))%Z →
  (Z.of_nat k < dm0 + dm1 - 1)%Z →
  (f_prune <= conv_entry dm0 int0 dm1 int1 k)%R →
  ∃ d ints,
    fast_add m0 dm0 int0 m1 dm1 int1 f_prune = Ok ((m0 + m1)%R, d, ints) ∧
    (Z.of_nat k < d ≤ Z.of_nat (length ints))%Z ∧
    np_max (take (Z.to_nat d) ints) = Ok 1%R.
Proof.
  intros Hdm0 Hdm1 Hk HP.
  set (z := replicate (Z.to_nat (dm0 + dm1 - 1)) 0%R : list R).
  assert (Hz : np_zeros (dm0 + dm1 - 1) = Ok z).
  { unfold np_zeros. destruct (Z.ltb_spec (dm0 + dm1 - 1) 0); [lia|reflexivity]. }
  assert (Hlz : length z = Z.to_nat (dm0 + dm1 - 1)) by apply length_replicate.
  destruct (convolve_entries dm0 dm1 int0 int1 z) as (ni & Hni & Hl & Hent);
    [lia|lia|lia|].
  assert (Hzk : z !! k = Some 0%R) by (apply lookup_replicate_2; lia).
  pose proof (Hent k 0%R Hzk) as Hnik.
  assert (Hlt : f_ltb (0 + conv_entry dm0 int0 dm1 int1 k)%R f_prune = false).
  { apply ltb_ge. lra. }
  destruct (prune_loop_stops_above ni f_prune k _ Hnik Hlt (2 * length ni + 2)%nat
              (dm0 + (dm1 - 1))%Z) as (d & Hd & Hkd); [lia|lia|].
  assert (Hmx : ∃ mx, np_max ni = Ok mx).
  { destruct ni as [|n0 ni']; [simpl in Hl; lia|]. eexists. reflexivity. }
  destruct Hmx as [mx Hmx].
  assert (Hrun : fast_add m0 dm0 int0 m1 dm1 int1 f_prune
                 = Ok ((m0 + m1)%R, d, (fun v => f_div v mx) <$> ni)).
  { unfold fast_add. rewrite Hz. cbn [res_bind]. rewrite Hni. cbn [res_bind].
    rewrite Hmx. cbn [res_bind]. rewrite Hd. reflexivity. }
  exists d, ((fun v => f_div v mx) <$> ni). split; [exact Hrun|].
  apply prune_loop_Ok in Hd as (Hle & _ & _).
  split; [rewrite length_fmap; lia|].
  apply (fast_add_normalized _ _ _ _ _ _ _ _ _ Hrun).
Qed.

(** C6 (as amended): in exact arithmetic, a convolution that is not under
    the prune threshold everywhere is normalized, and the operations that
    produce an envelope keep the envelopes of the data model normalized.
    First, for any two arrays and peak counts within them: when an entry
    [k] of the raw convolution is not under the threshold, [fast_add]
    returns a peak count above [k], within the array, and the maximum of
    the first [peak_count] intensities is 1.  Then, on the envelopes of
    the data model.  A sound envelope has its array in the store, a peak
    count within the array, significant intensities that are not negative,
    and maximum 1; an admissible one, as an isotope table gives it, need
    not be normalized: its significant intensities lie between 0 and 1 and
    one of them is not under the prune threshold (a sound envelope is
    admissible).  [fast_add] on two sound arrays returns a sound array;
    [add] of a sound envelope and an admissible one, in either order,
    returns a sound envelope; the identity envelope is sound; a copy of a
    sound envelope is sound; [mult] of a sound envelope returns a sound
    envelope for every [n]; [dict_to_dist] on a table of admissible
    envelopes returns a sound envelope. *)
Theorem normalization_invariant :
  (∀ (m0 : R) dm0 int0 (m1 : R) dm1 int1 (k : nat),
     (1 ≤ dm0 ≤ Z.of_nat (length int0))%Z →
     (1 ≤ dm1 ≤ Z.of_nat (length int1))%Z →
     (Z.of_nat k < dm0 + dm1 - 1)%Z →
     (f_prune <= conv_entry dm0 int0 dm1 int1 k)%R →
     ∃ d ints,
       fast_add m0 dm0 int0 m1 dm1 int1 f_prune = Ok ((m0 + m1)%R, d, ints) ∧
       (Z.of_nat k < d ≤ Z.of_nat (length ints))%Z ∧
       np_max (take (Z.to_nat d) ints) = Ok 1%R) ∧
  (∀ (m0 : R) dm0 int0 (m1 : R) dm1 int1,
     (1 ≤ dm0 ≤ Z.of_nat (length int0))%Z →
     (∀ v, v ∈ take (Z.to_nat dm0) int0 → f_ltb v f_zero = false) →
     np_max (take (Z.to_nat dm0) int0) = Ok 1%R →
     (1 ≤ dm1 ≤ Z.of_nat (length int1))%Z →
     (∀ v, v ∈ take (Z.to_nat dm1) int1 → f_ltb v f_zero = false) →
     np_max (take (Z.to_nat dm1) int1) = Ok 1%R →
     ∃ d ints,
       fast_add m0 dm0 int0 m1 dm1 int1 f_prune = Ok ((m0 + m1)%R, d, ints) ∧
       (1 ≤ d ≤ Z.of_nat (length ints))%Z ∧
       (∀ v, v ∈ take (Z.to_nat d) ints → f_ltb v f_zero = false) ∧
       np_max (take (Z.to_nat d) ints) = Ok 1%R) ∧
  (∀ (self x : IsotopeDistribution R) h,
     sound h self → admissible h x →
     ∃ r h', add self x h = Ok (r, h') ∧ sound h' r ∧ normalized h' r) ∧
  (∀ (self x : IsotopeDistribution R) h,
     admissible h self → sound h x →
     ∃ r h', add self x h = Ok (r, h') ∧ sound h' r ∧ normalized h' r) ∧
  (∀ h : heap R,
     ∃ r h', __init__ h = Ok (r, h') ∧ sound h' r ∧ normalized h' r) ∧
  (∀ (E : IsotopeDistribution R) h,
     sound h E →
     ∃ c h', copy E h = Ok (c, h') ∧ sound h' c ∧ normalized h' c) ∧
  (∀ (E : IsotopeDistribution R) n h,
     sound h E →
     ∃ r h', mult E n h = Ok (r, h') ∧ sound h' r ∧ normalized h' r) ∧
  (∀ counted_AA (isotopes : Dict.t (IsotopeDistribution R)) h,
     (∀ k, k ∈ Dict.keys counted_AA →
           ∃ iso, Dict.get isotopes k = Ok iso ∧ admissible h iso) →
     ∃ r h', dict_to_dist counted_AA isotopes h = Ok (r, h') ∧
             sound h' r ∧ normalized h' r).
Proof.
  split; [exact fast_add_nondegenerate|].
  split; [exact fast_add_total|].
  split.
  { intros self x h Hs Hx.
    destruct (add_admissible self x h Hs Hx) as (r & h' & Hrun & _ & Hr).
    exists r, h'. split; [exact Hrun|]. split; [exact Hr|apply sound_normalized, Hr]. }
  split.
  { intros self x h Hs Hx.
    destruct (add_admissible_l self x h Hs Hx) as (r & h' & Hrun & _ & Hr).
    exists r, h'. split; [exact Hrun|]. split; [exact Hr|apply sound_normalized, Hr]. }
  split.
  { intros h. destruct (init_sound h) as (r & h' & Hrun & _ & Hr).
    exists r, h'. split; [exact Hrun|]. split; [exact Hr|apply sound_normalized, Hr]. }
  split.
  { intros E h HE. destruct (copy_sound E h HE) as (r & h' & Hrun & _ & Hr).
    exists r, h'. split; [exact Hrun|]. split; [exact Hr|apply sound_normalized, Hr]. }
  split.
  { intros E n h HE. destruct (mult_sound E n h HE) as (r & h' & Hrun & _ & Hr).
    exists r, h'. split; [exact Hrun|]. split; [exact Hr|apply sound_normalized, Hr]. }
  intros counted_AA isotopes h Htable.
  destruct (dict_to_dist_admissible counted_AA isotopes h Htable)
    as (r & h' & Hrun & _ & Hr).
  exists r, h'. split; [exact Hrun|]. split; [exact Hr|apply sound_normalized, Hr].
Qed.

(** C6 (as stated) fails on binary64 at the two peaks [[1e200, 1.0]]
    convolved with themselves: the first raw entry overflows to infinity,
    the maximum is infinity, and the array divided by it is
    [[nan, 0.0, 0.0]].  The last raw entry, 1.0, is not under the
    threshold, so that all three peaks are kept: the call returns, and
    the maximum of the first [peak_count] intensities is a NaN, not
    1.0. *)
Lemma normalization_counterexample :
  fast_add 0%float 2 [1e200; 1]%float 0%float 2 [1e200; 1]%float f_prune
  = Ok (0%float, 3%Z, [PrimFloat.nan; 0%float; 0%float]) ∧
  (∃ r h',
     add {| m0 := 0%float; dm := 2; intensities := 0%nat |}
         {| m0 := 0%float; dm := 2; intensities := 0%nat |} [[1e200; 1]%float]
     = Ok (r, h') ∧
     value_of h' r = Some (0%float, 3%Z, [PrimFloat.nan; 0%float; 0%float]) ∧
     ¬ normalized h' r).
Proof.
  split; [vm_compute; reflexivity|].
  eexists _, _. split; [vm_compute; reflexivity|].
  split; [vm_compute; reflexivity|].
  intros (a & Ha & Hmax). vm_compute in Ha. injection Ha as <-.
  apply (f_equal (fun r => match r with Ok v => PrimFloat.is_nan v | _ => false end))
    in Hmax.
  vm_compute in Hmax. discriminate.
Qed.

Lemma normalization_invariant_witness :
  (∃ r h', add {| m0 := 12%R; dm := 2; intensities := 0%nat |}
               {| m0 := 12%R; dm := 2; intensities := 0%nat |}
               [[1%R; (1 / 2)%R]] = Ok (r, h') ∧
           sound h' r ∧ normalized h' r) ∧
  (∃ r h', mult {| m0 := 12%R; dm := 2; intensities := 0%nat |} 6
                [[1%R; (1 / 2)%R]] = Ok (r, h') ∧
           sound h' r ∧ normalized h' r).
Proof.
  destruct normalization_invariant as (_ & _ & Hadd & _ & _ & _ & Hmult & _).
  split.
  - apply Hadd; [exact sound_example|apply sound_admissible; exact sound_example].
  - apply Hmult; exact sound_example.
Defined.

(** ** mult against the naive path, in exact arithmetic *)

(** *** Products of polynomials *)

Section Sums.

Local Open Scope R_scope.

Lemma sumR_ext_in {A} (f g : A → R) (l : list A) :
  (∀ x, x ∈ l → f x = g x) → sumR (f <$> l) = sumR (g <$> l).
Proof.
  induction l as [|x l IH]; intros Hfg; [reflexivity|].
  rewrite !fmap_cons, !sumR_cons, (Hfg x) by left. rewrite IH; [reflexivity|].
  intros y Hy. apply Hfg. right. exact Hy.
Qed.

Lemma sumR_mult_r {A} (f : A → R) (c : R) (l : list A) :
  sumR (f <$> l) * c = sumR ((fun x => f x * c) <$> l).
Proof.
  induction l as [|x l IH]; [unfold sumR; simpl; lra|].
  rewrite !fmap_cons, !sumR_cons, <- IH. lra.
Qed.

Lemma sumR_mult_l {A} (f : A → R) (c : R) (l : list A) :
  c * sumR (f <$> l) = sumR ((fun x => c * f x) <$> l).
Proof.
  induction l as [|x l IH]; [unfold sumR; simpl; lra|].
  rewrite !fmap_cons, !sumR_cons, <- IH. lra.
Qed.

(** A sum over a range that picks the one index [p]. *)
Lemma sumR_pick_Z (g : Z → R) (p n : Z) :
  (0 ≤ p)%Z → (0 ≤ n)%Z →
  sumR ((fun i => if decide (i = p) then g i else 0) <$> range n)
  = if decide (p < n)%Z then g p else 0.
Proof.
  intros Hp Hn.
  rewrite <- (Z2Nat.id n) at 1 by lia.
  rewrite (sumR_ext _ (fun i => if decide (i = Z.of_nat (Z.to_nat p)) then g i else 0)).
  - rewrite sumR_pick. rewrite Z2Nat.id by lia.
    destruct (decide (Z.to_nat p < Z.to_nat n)%nat); destruct (decide (p < n)%Z);
      try lia; reflexivity.
  - intros i. rewrite Z2Nat.id by lia. reflexivity.
Qed.

End Sums.

Section Pmul.

Local Open Scope R_scope.

Lemma length_pmul (a b : list R) : length (pmul a b) = (length a + length b - 1)%nat.
Proof. unfold pmul. rewrite length_fmap, length_seq. reflexivity. Qed.

Lemma lookup_pmul (a b : list R) (k : nat) :
  (k < length a + length b - 1)%nat →
  pmul a b !! k
  = Some (conv_entry (Z.of_nat (length a)) a (Z.of_nat (length b)) b k).
Proof.
  intros Hk. unfold pmul. rewrite list_lookup_fmap, lookup_seq_lt by exact Hk.
  reflexivity.
Qed.

Lemma cf_pmul (a b : list R) (i : Z) :
  (0 ≤ i < Z.of_nat (length a + length b - 1))%Z →
  cf (pmul a b) i
  = conv_entry (Z.of_nat (length a)) a (Z.of_nat (length b)) b (Z.to_nat i).
Proof. intros Hi. unfold cf. rewrite lookup_pmul by lia. reflexivity. Qed.

Lemma conv_term_cf (a b : list R) (k : nat) (i j : Z) :
  conv_term a b k i j = if decide (i + j = Z.of_nat k)%Z then cf a i * cf b j else 0.
Proof. reflexivity. Qed.

Lemma pmul_entry_r (a b c : list R) (k : nat) :
  b ≠ [] → c ≠ [] →
  conv_entry (Z.of_nat (length a)) a (Z.of_nat (length (pmul b c))) (pmul b c) k
  = triple a b c k.
Proof.
  intros Hb Hc.
  assert (Hlb : (1 ≤ length b)%nat) by (destruct b; [contradiction|simpl; lia]).
  assert (Hlc : (1 ≤ length c)%nat) by (destruct c; [contradiction|simpl; lia]).
  unfold conv_entry, triple. rewrite length_pmul.
  apply sumR_ext_in. intros p Hp. apply elem_of_range in Hp.
  (* Σ_s conv_term a (pmul b c) k p s *)
  rewrite (sumR_ext_in _
             (fun s => sumR ((fun q => sumR ((fun j =>
                (if decide (p + s = Z.of_nat k)%Z then cf a p else 0)
                * conv_term b c (Z.to_nat s) q j)
                <$> range (Z.of_nat (length c)))) <$> range (Z.of_nat (length b))))).
  2:{ intros s Hs. apply elem_of_range in Hs.
      rewrite conv_term_cf, cf_pmul by lia. unfold conv_entry.
      destruct (decide (p + s = Z.of_nat k)%Z).
      - rewrite sumR_mult_l. apply sumR_ext. intros q. rewrite sumR_mult_l. reflexivity.
      - symmetry. apply sumR_zero. intros q _. apply sumR_zero. intros j _. lra. }
  rewrite sumR_swap. apply sumR_ext_in. intros q Hq. apply elem_of_range in Hq.
  rewrite sumR_swap. apply sumR_ext_in. intros j Hj. apply elem_of_range in Hj.
  rewrite (sumR_ext_in _ (fun s => if decide (s = q + j)%Z
                                   then (if decide (p + q + j = Z.of_nat k)%Z
                                         then cf a p * cf b q * cf c j else 0)
                                   else 0)).
  - rewrite sumR_pick_Z by lia. destruct (decide (q + j < _)%Z); [reflexivity|lia].
  - intros s Hs. apply elem_of_range in Hs. rewrite conv_term_cf.
    rewrite Z2Nat.id by lia.
    repeat case_decide; try lia; ring.
Qed.

Lemma triple_rot (a b c : list R) (k : nat) : triple c a b k = triple a b c k.
Proof.
  unfold triple. rewrite sumR_swap. apply sumR_ext. intros q.
  rewrite sumR_swap. apply sumR_ext. intros j.
  apply sumR_ext. intros p.
  repeat case_decide; try lia; ring.
Qed.

Lemma pmul_entry_l (a b c : list R) (k : nat) :
  a ≠ [] → b ≠ [] →
  conv_entry (Z.of_nat (length (pmul a b))) (pmul a b) (Z.of_nat (length c)) c k
  = triple a b c k.
Proof.
  intros Ha Hb.
  rewrite conv_entry_comm, pmul_entry_r by assumption. apply triple_rot.
Qed.

Lemma pmul_nil (a b : list R) : a ≠ [] → b ≠ [] → pmul a b ≠ [].
Proof.
  intros Ha Hb Hnil. apply (f_equal length) in Hnil. rewrite length_pmul in Hnil.
  destruct a; [contradiction|]. destruct b; [contradiction|]. simpl in Hnil. lia.
Qed.

(** The product of polynomials is associative. *)
Lemma pmul_assoc (a b c : list R) :
  a ≠ [] → b ≠ [] → c ≠ [] → pmul (pmul a b) c = pmul a (pmul b c).
Proof.
  intros Ha Hb Hc.
  assert (Hla : (1 ≤ length a)%nat) by (destruct a; [contradiction|simpl; lia]).
  assert (Hlb : (1 ≤ length b)%nat) by (destruct b; [contradiction|simpl; lia]).
  assert (Hlc : (1 ≤ length c)%nat) by (destruct c; [contradiction|simpl; lia]).
  apply list_eq. intros k.
  destruct (Nat.lt_ge_cases k (length a + length b + length c - 2)) as [Hk|Hk].
  - rewrite !lookup_pmul by (rewrite ?length_pmul; lia).
    rewrite pmul_entry_l, pmul_entry_r by assumption. reflexivity.
  - rewrite !lookup_ge_None_2 by (rewrite !length_pmul; lia). reflexivity.
Qed.

Lemma pmul_comm (a b : list R) : pmul a b = pmul b a.
Proof.
  unfold pmul. rewrite (Nat.add_comm (length b)).
  apply list_fmap_ext. intros _ k _. apply conv_entry_comm.
Qed.

(** Scaling a factor scales the product. *)
Lemma pmul_scale_l (a b : list R) (s : R) :
  pmul ((fun v => v * s) <$> a) b = (fun v => v * s) <$> pmul a b.
Proof.
  unfold pmul. rewrite length_fmap, <- list_fmap_compose.
  apply list_fmap_ext. intros _ k _. simpl.
  unfold conv_entry. rewrite sumR_mult_r.
  apply sumR_ext. intros i. rewrite sumR_mult_r. apply sumR_ext. intros j.
  unfold conv_term. rewrite list_lookup_fmap.
  destruct (decide _); [|lra].
  destruct (a !! Z.to_nat i); simpl; ring.
Qed.

Lemma pmul_scale_r (a b : list R) (s : R) :
  pmul a ((fun v => v * s) <$> b) = (fun v => v * s) <$> pmul a b.
Proof. rewrite pmul_comm, pmul_scale_l, pmul_comm. reflexivity. Qed.

(** The polynomial 1 is the unit. *)
Lemma pmul_one_l (a : list R) : pmul [1] a = a.
Proof.
  apply list_eq. intros k.
  destruct (Nat.lt_ge_cases k (length a)) as [Hk|Hk].
  - rewrite lookup_pmul by (simpl; lia).
    destruct (lookup_lt_is_Some_2 a k Hk) as [v Hv]. rewrite Hv. f_equal.
    apply (conv_entry_identity (Z.of_nat (length a)) a k v); [lia|lia|exact Hv].
  - rewrite !lookup_ge_None_2; [reflexivity|lia|rewrite length_pmul; simpl; lia].
Qed.

Lemma pmul_one_r (a : list R) : pmul a [1] = a.
Proof. rewrite pmul_comm. apply pmul_one_l. Qed.

(** The leading coefficient of a product is the product of the leading
    coefficients. *)
Lemma pmul_last (a b : list R) (wa wb : R) :
  last a = Some wa → last b = Some wb → last (pmul a b) = Some (wa * wb).
Proof.
  intros Ha Hb. rewrite last_lookup in Ha, Hb |- *.
  assert (Hla : (1 ≤ length a)%nat).
  { destruct a; [discriminate|simpl; lia]. }
  assert (Hlb : (1 ≤ length b)%nat).
  { destruct b; [discriminate|simpl; lia]. }
  rewrite length_pmul, lookup_pmul by lia. f_equal.
  replace (Init.Nat.pred (length a + length b - 1))
    with (Z.to_nat (Z.of_nat (length a) + Z.of_nat (length b) - 2)) by lia.
  apply conv_entry_last; [lia|lia| |].
  - replace (Z.to_nat (Z.of_nat (length a) - 1)) with (Init.Nat.pred (length a)) by lia.
    exact Ha.
  - replace (Z.to_nat (Z.of_nat (length b) - 1)) with (Init.Nat.pred (length b)) by lia.
    exact Hb.
Qed.

(** The two loops of [fast_add] on whole arrays compute the product. *)
Lemma convolve_pmul (a b : list R) :
  a ≠ [] → b ≠ [] →
  convolve (Z.of_nat (length a)) a (Z.of_nat (length b)) b
    (replicate (length a + length b - 1) 0)
  = Ok (pmul a b).
Proof.
  intros Ha Hb.
  destruct (convolve_entries (Z.of_nat (length a)) (Z.of_nat (length b)) a b
              (replicate (length a + length b - 1) 0)) as (ni & Hni & Hl & Hent);
    [lia|lia|rewrite length_replicate; lia|].
  rewrite Hni. f_equal. rewrite length_replicate in Hl.
  apply list_eq. intros k.
  destruct (Nat.lt_ge_cases k (length a + length b - 1)) as [Hk|Hk].
  - rewrite (Hent k 0) by (apply lookup_replicate_2; exact Hk).
    rewrite lookup_pmul by exact Hk. f_equal. lra.
  - rewrite !lookup_ge_None_2; [reflexivity|rewrite length_pmul; lia|lia].
Qed.

End Pmul.

Section Norm.

Local Open Scope R_scope.

Lemma np_max_unique (a : list R) (mx : R) :
  mx ∈ a → (∀ v, v ∈ a → v <= mx) → np_max a = Ok mx.
Proof.
  intros Hin Hall.
  destruct a as [|v a]; [apply elem_of_nil in Hin; contradiction|].
  destruct (np_max (v :: a)) as [mx'| | |] eqn:Hmx; try discriminate.
  apply np_max_spec in Hmx as [Hin' Hup].
  f_equal. apply Rle_antisym; [apply Hall, Hin'|apply Hup, Hin].
Qed.

Lemma np_max_total (a : list R) : a ≠ [] → ∃ mx, np_max a = Ok mx.
Proof. destruct a; [contradiction|]. intros _. eexists. reflexivity. Qed.

Lemma np_max_scale (a : list R) (mx s : R) :
  0 < s → np_max a = Ok mx → np_max ((fun v => v * s) <$> a) = Ok (mx * s).
Proof.
  intros Hs Hmx. apply np_max_spec in Hmx as [Hin Hup].
  apply np_max_unique.
  - apply list_elem_of_fmap. exists mx. split; [reflexivity|exact Hin].
  - intros v Hv. apply list_elem_of_fmap in Hv as (u & -> & Hu).
    apply Rmult_le_compat_r; [lra|apply Hup, Hu].
Qed.

Lemma np_max_last (a : list R) (mx w : R) :
  np_max a = Ok mx → last a = Some w → w <= mx.
Proof.
  intros Hmx Hw. apply np_max_spec in Hmx as [_ Hup]. apply Hup.
  rewrite last_lookup in Hw. eapply list_elem_of_lookup_2, Hw.
Qed.

Lemma norm_eq (a : list R) (mx : R) :
  np_max a = Ok mx → norm a = (fun v => v * / mx) <$> a.
Proof. intros Hmx. unfold norm. rewrite Hmx. reflexivity. Qed.

Lemma length_norm (a : list R) : length (norm a) = length a.
Proof. unfold norm. destruct (np_max a); [apply length_fmap|reflexivity..]. Qed.

Lemma norm_nil (a : list R) : a ≠ [] → norm a ≠ [].
Proof.
  intros Ha Hn. apply (f_equal length) in Hn. rewrite length_norm in Hn.
  destruct a; [contradiction|discriminate].
Qed.

Lemma norm_one (a : list R) : np_max a = Ok 1 → norm a = a.
Proof.
  intros Hmx. rewrite (norm_eq a 1 Hmx).
  rewrite <- (list_fmap_id a) at 2. apply list_fmap_ext. intros _ v _. simpl. field.
Qed.

Lemma norm_scale (a : list R) (mx s : R) :
  0 < s → np_max a = Ok mx → 0 < mx → norm ((fun v => v * s) <$> a) = norm a.
Proof.
  intros Hs Hmx Hpos.
  rewrite (norm_eq _ _ (np_max_scale a mx s Hs Hmx)), (norm_eq a mx Hmx).
  rewrite <- list_fmap_compose. apply list_fmap_ext. intros _ v _. simpl.
  field. lra.
Qed.

Lemma np_max_norm (a : list R) (mx : R) :
  np_max a = Ok mx → 0 < mx → np_max (norm a) = Ok 1.
Proof.
  intros Hmx Hpos. rewrite (norm_eq a mx Hmx).
  replace 1 with (mx * / mx) by (field; lra).
  apply np_max_scale; [apply Rinv_0_lt_compat; exact Hpos|exact Hmx].
Qed.

Lemma last_norm (a : list R) (mx w : R) :
  np_max a = Ok mx → last a = Some w → last (norm a) = Some (w / mx).
Proof.
  intros Hmx Hw. rewrite (norm_eq a mx Hmx), fmap_last, Hw. reflexivity.
Qed.

(** Normalizing the factors first does not change the normalized
    product. *)
Lemma norm_pmul_norm (x y : list R) (mx my mxy : R) :
  np_max x = Ok mx → 0 < mx →
  np_max y = Ok my → 0 < my →
  np_max (pmul x y) = Ok mxy → 0 < mxy →
  norm (pmul (norm x) (norm y)) = norm (pmul x y).
Proof.
  intros Hx Hxpos Hy Hypos Hxy Hxypos.
  rewrite (norm_eq x mx Hx), (norm_eq y my Hy), pmul_scale_l, pmul_scale_r.
  assert (Hix : 0 < / mx) by (apply Rinv_0_lt_compat; exact Hxpos).
  assert (Hiy : 0 < / my) by (apply Rinv_0_lt_compat; exact Hypos).
  rewrite (norm_scale _ (mxy * / my) (/ mx)); [| exact Hix | |].
  - apply (norm_scale _ mxy); assumption.
  - apply np_max_scale; assumption.
  - apply Rmult_lt_0_compat; assumption.
Qed.

Lemma last_peak_full (m : R) (l : list R) (w : R) :
  last l = Some w → last_peak (full m l) = w.
Proof.
  intros Hw. unfold last_peak, full. cbn [fst snd].
  rewrite last_lookup in Hw.
  replace (Z.to_nat (Z.of_nat (length l) - 1)) with (Init.Nat.pred (length l)) by lia.
  rewrite Hw. reflexivity.
Qed.

(** A convolution that prunes nothing, on whole arrays: the normalized
    product. *)
Lemma conv_full (ma mb : R) (a b : list R) (wa wb : R) :
  last a = Some wa → last b = Some wb → f_prune <= wa * wb →
  conv (full ma a) (full mb b) = Ok (full (ma + mb) (norm (pmul a b))).
Proof.
  intros Ha Hb HP.
  assert (Hna : a ≠ []) by (intros ->; discriminate).
  assert (Hnb : b ≠ []) by (intros ->; discriminate).
  assert (Hla : (1 ≤ length a)%nat) by (destruct a; [contradiction|simpl; lia]).
  assert (Hlb : (1 ≤ length b)%nat) by (destruct b; [contradiction|simpl; lia]).
  destruct (np_max_total (pmul a b) (pmul_nil a b Hna Hnb)) as [mx Hmx].
  pose proof (pmul_last a b wa wb Ha Hb) as Hlast. rewrite last_lookup in Hlast.
  rewrite length_pmul in Hlast.
  unfold conv, full. cbn [fst snd]. unfold fast_add, np_zeros.
  destruct (Z.ltb_spec (Z.of_nat (length a) + Z.of_nat (length b) - 1) 0) as [?|_]; [lia|].
  cbn [res_bind].
  replace (Z.to_nat (Z.of_nat (length a) + Z.of_nat (length b) - 1))
    with (length a + length b - 1)%nat by lia.
  change (@f_zero R exact) with 0.
  rewrite (convolve_pmul a b Hna Hnb). cbn [res_bind]. rewrite Hmx. cbn [res_bind].
  rewrite length_pmul.
  replace (2 * (length a + length b - 1) + 2)%nat
    with (S (2 * (length a + length b - 1) + 1)) by lia.
  cbn [prune_loop]. unfold prune_test.
  rewrite (getitem_lookup (pmul a b) _ (wa * wb));
    [|lia|replace (Z.to_nat (Z.of_nat (length a) + (Z.of_nat (length b) - 1) - 1))
        with (Init.Nat.pred (length a + length b - 1)) by lia; exact Hlast].
  cbn [res_bind].
  destruct (f_ltb (wa * wb) f_prune) eqn:Hlt; [apply ltb_lt in Hlt; lra|].
  cbn [res_bind fst snd]. unfold norm. rewrite Hmx.
  rewrite length_fmap, length_pmul.
  replace (Z.of_nat (length a + length b - 1))
    with (Z.of_nat (length a) + (Z.of_nat (length b) - 1))%Z by lia.
  reflexivity.
Qed.

Lemma conv_entry_take (da db : Z) (ia ib : list R) (k : nat) :
  conv_entry da ia db ib k
  = conv_entry da (take (Z.to_nat da) ia) db (take (Z.to_nat db) ib) k.
Proof.
  unfold conv_entry. apply sumR_ext_in. intros i Hi. apply elem_of_range in Hi.
  apply sumR_ext_in. intros j Hj. apply elem_of_range in Hj.
  unfold conv_term. rewrite !lookup_take_lt by lia. reflexivity.
Qed.

Lemma convolve_take (da db : Z) (ia ib z : list R) :
  (0 ≤ da ≤ Z.of_nat (length ia))%Z →
  (0 ≤ db ≤ Z.of_nat (length ib))%Z →
  (da + db - 1 ≤ Z.of_nat (length z))%Z →
  convolve da ia db ib z
  = convolve da (take (Z.to_nat da) ia) db (take (Z.to_nat db) ib) z.
Proof.
  intros Hda Hdb Hz.
  destruct (convolve_entries da db ia ib z) as (ni & -> & Hl & Hent); try assumption.
  destruct (convolve_entries da db (take (Z.to_nat da) ia) (take (Z.to_nat db) ib) z)
    as (ni' & -> & Hl' & Hent'); [rewrite length_take; lia|rewrite length_take; lia|lia|].
  f_equal. apply list_eq. intros k.
  destruct (z !! k) as [v0|] eqn:Hzk.
  - rewrite (Hent k v0 Hzk), (Hent' k v0 Hzk), <- conv_entry_take. reflexivity.
  - apply lookup_ge_None in Hzk.
    rewrite (lookup_ge_None_2 ni), (lookup_ge_None_2 ni') by lia. reflexivity.
Qed.

(** A convolution reads the first [peak_count] entries of its arrays
    only. *)
Lemma conv_trunc (a b : R * Z * list R) :
  (0 ≤ a.1.2 ≤ Z.of_nat (length a.2))%Z →
  (0 ≤ b.1.2 ≤ Z.of_nat (length b.2))%Z →
  conv a b = conv (trunc a) (trunc b).
Proof.
  destruct a as [[ma da] ia], b as [[mb db] ib]. cbn [fst snd]. intros Hda Hdb.
  unfold conv, trunc, full. cbn [fst snd]. rewrite !length_take.
  replace (Z.of_nat (Z.to_nat da `min` length ia)) with da by lia.
  replace (Z.of_nat (Z.to_nat db `min` length ib)) with db by lia.
  f_equal. unfold fast_add.
  destruct (np_zeros (da + db - 1)) as [z| | |] eqn:Hz; cbn [res_bind]; try reflexivity.
  apply np_zeros_length in Hz as [Hlz Hpos].
  rewrite (convolve_take da db ia ib z) by (assumption || lia). reflexivity.
Qed.

Lemma trunc_full (m : R) (l : list R) : trunc (full m l) = full m l.
Proof.
  unfold trunc, full. cbn [fst snd]. rewrite Nat2Z.id, firstn_all. reflexivity.
Qed.

End Norm.

Section Powers.

Local Open Scope R_scope.

Lemma full_eq (m m' : R) (l l' : list R) : m = m' → l = l' → full m l = full m' l'.
Proof. intros -> ->. reflexivity. Qed.

Lemma last_peak_trunc (v : R * Z * list R) :
  (1 ≤ v.1.2 ≤ Z.of_nat (length v.2))%Z → last_peak (trunc v) = last_peak v.
Proof.
  destruct v as [[m d] l]. cbn [fst snd]. intros Hd.
  unfold last_peak, trunc, full. cbn [fst snd]. rewrite length_take.
  replace (Z.of_nat (Z.to_nat d `min` length l)) with d by lia.
  rewrite lookup_take_lt by lia. reflexivity.
Qed.

Lemma ppow_nil (a : list R) (k : nat) : a ≠ [] → ppow a k ≠ [].
Proof.
  intros Ha. induction k as [|k IH]; [discriminate|]. simpl. apply pmul_nil; assumption.
Qed.

Lemma ppow_1 (a : list R) : ppow a 1 = a.
Proof. simpl. apply pmul_one_l. Qed.

Lemma ppow_add (a : list R) (j k : nat) :
  a ≠ [] → pmul (ppow a j) (ppow a k) = ppow a (j + k).
Proof.
  intros Ha. induction k as [|k IH].
  - rewrite Nat.add_0_r. apply pmul_one_r.
  - replace (j + S k)%nat with (S (j + k)) by lia. simpl.
    rewrite <- pmul_assoc by (try apply ppow_nil; assumption).
    rewrite IH. reflexivity.
Qed.

Lemma last_ppow (a : list R) (w : R) (k : nat) :
  last a = Some w → last (ppow a k) = Some (w ^ k).
Proof.
  intros Hw. induction k as [|k IH]; [reflexivity|]. simpl.
  rewrite (pmul_last _ _ _ _ IH Hw). f_equal. ring.
Qed.

Variables (m : R) (dm : Z) (arr : list R).

Hypothesis Hdm : (1 ≤ dm ≤ Z.of_nat (length arr))%Z.
Hypothesis Hmax : np_max (take (Z.to_nat dm) arr) = Ok 1.

Variable N : nat.
Hypothesis HN : (1 ≤ N)%nat.
Hypothesis Hunp : unpruned (m, dm, arr) N.

Let vE : R * Z * list R := (m, dm, arr).
Let a : list R := take (Z.to_nat dm) arr.
Let Q (k : nat) : R * Z * list R := power_closed m a k.

Lemma a_nil : a ≠ [].
Proof.
  unfold a. intros Hnil. apply (f_equal length) in Hnil.
  rewrite length_take in Hnil. simpl in Hnil. lia.
Qed.

Lemma a_last : ∃ w, last a = Some w ∧ last_peak vE = w.
Proof.
  destruct (lookup_lt_is_Some_2 arr (Z.to_nat (dm - 1))) as [w Hw]; [lia|].
  exists w. split.
  - rewrite last_lookup. unfold a. rewrite length_take.
    replace (Init.Nat.pred (Z.to_nat dm `min` length arr)) with (Z.to_nat (dm - 1)) by lia.
    rewrite lookup_take_lt by lia. exact Hw.
  - unfold last_peak, vE. cbn [fst snd]. rewrite Hw. reflexivity.
Qed.

Lemma Q_0 : Q 0%nat = identity_value.
Proof.
  unfold Q, power_closed, identity_value. simpl ppow.
  rewrite (norm_one [1]) by reflexivity.
  unfold full. simpl. f_equal. f_equal. ring.
Qed.

Lemma Q_1 : Q 1%nat = trunc vE.
Proof.
  unfold Q, power_closed, trunc, vE. cbn [fst snd]. fold a.
  apply full_eq; [simpl; ring|]. rewrite ppow_1. apply norm_one, Hmax.
Qed.

(** The last significant intensity of [E] is positive. *)
Lemma w_pos (w : R) : last a = Some w → 0 < w.
Proof.
  intros Hw. destruct a_last as (w' & Hw' & Hlp). rewrite Hw in Hw'. injection Hw' as <-.
  assert (HP : f_prune <= last_peak identity_value * last_peak vE).
  { apply (Hunp 0%nat 1%nat); [lia|lia|reflexivity|reflexivity]. }
  rewrite Hlp in HP. unfold last_peak, identity_value in HP. simpl in HP. lra.
Qed.

Lemma ppow_max (k : nat) : ∃ mx, np_max (ppow a k) = Ok mx ∧ 0 < mx.
Proof.
  destruct (np_max_total (ppow a k) (ppow_nil a k a_nil)) as [mx Hmx].
  exists mx. split; [exact Hmx|].
  destruct a_last as (w & Hw & _).
  pose proof (np_max_last _ _ _ Hmx (last_ppow a w k Hw)) as Hle.
  pose proof (pow_lt w k (w_pos w Hw)). lra.
Qed.

Lemma Q_last (k : nat) : ∃ w, last (Q k).2 = Some w ∧ last_peak (Q k) = w.
Proof.
  destruct (ppow_max k) as (mx & Hmx & _).
  destruct a_last as (w & Hw & _).
  exists (w ^ k / mx). 
  assert (Hl : last (norm (ppow a k)) = Some (w ^ k / mx)).
  { apply last_norm; [exact Hmx|apply last_ppow, Hw]. }
  split; [exact Hl|]. apply last_peak_full, Hl.
Qed.

(** Two closed powers whose convolution prunes nothing convolve to the
    closed power of the sum. *)
Lemma Q_conv_raw (j k : nat) :
  f_prune <= last_peak (Q j) * last_peak (Q k) →
  conv (Q j) (Q k) = Ok (Q (j + k)).
Proof.
  intros HP.
  destruct (Q_last j) as (wj & Hwj & Hlj). destruct (Q_last k) as (wk & Hwk & Hlk).
  rewrite Hlj, Hlk in HP.
  unfold Q, power_closed in *. cbn [snd] in Hwj, Hwk.
  rewrite (conv_full _ _ _ _ wj wk Hwj Hwk HP). f_equal.
  apply full_eq; [rewrite plus_INR; ring|].
  destruct (ppow_max j) as (mj & Hmj & Hmjpos).
  destruct (ppow_max k) as (mk & Hmk & Hmkpos).
  destruct (ppow_max (j + k)) as (mjk & Hmjk & Hmjkpos).
  rewrite <- (ppow_add a j k a_nil) in Hmjk |- *.
  apply (norm_pmul_norm _ _ mj mk mjk); assumption.
Qed.

(** The powers of the naive path in closed form. *)
Lemma power_Q (k : nat) :
  (k ≤ N)%nat →
  ∃ v, power vE k = Ok v ∧ trunc v = Q k ∧
       (1 ≤ v.1.2 ≤ Z.of_nat (length v.2))%Z ∧
       ((2 ≤ k)%nat → v = Q k).
Proof.
  induction k as [|k IH]; intros Hk.
  - exists identity_value. split; [reflexivity|].
    split; [rewrite Q_0; reflexivity|]. split; [simpl; lia|lia].
  - destruct k as [|k].
    + exists vE. split; [reflexivity|]. split; [symmetry; apply Q_1|].
      split; [exact Hdm|lia].
    + destruct IH as (vk & Hvk & Htk & Hrk & _); [lia|].
      assert (HP : f_prune <= last_peak (Q (S k)) * last_peak (Q 1%nat)).
      { rewrite <- Htk, Q_1, (last_peak_trunc vk Hrk), (last_peak_trunc vE Hdm).
        apply (Hunp (S k) 1%nat); [lia|lia|exact Hvk|reflexivity]. }
      pose proof (Q_conv_raw (S k) 1%nat HP) as Hconv.
      replace (S k + 1)%nat with (S (S k)) in Hconv by lia.
      exists (Q (S (S k))). split.
      * rewrite power_succ by lia. rewrite Hvk. cbn [res_bind].
        rewrite (conv_trunc vk vE); [|lia|unfold vE; cbn [fst snd]; lia].
        rewrite Htk, <- Q_1. exact Hconv.
      * split; [apply trunc_full|]. split; [|reflexivity].
        unfold Q, power_closed, full. cbn [fst snd].
        pose proof (norm_nil _ (ppow_nil a (S (S k)) a_nil)) as Hnn.
        destruct (norm (ppow a (S (S k)))); [contradiction|simpl; lia].
Qed.

(** The product of two closed powers is the closed power of the sum. *)
Lemma Q_conv (j k : nat) :
  (1 ≤ k)%nat → (j + k ≤ N)%nat → conv (Q j) (Q k) = Ok (Q (j + k)).
Proof.
  intros Hk Hjk. apply Q_conv_raw.
  destruct (power_Q j) as (vj & Hvj & Htj & Hrj & _); [lia|].
  destruct (power_Q k) as (vk & Hvk & Htk & Hrk & _); [lia|].
  rewrite <- Htj, <- Htk, (last_peak_trunc vj), (last_peak_trunc vk).
  - apply (Hunp j k); assumption.
  - exact Hrk.
  - exact Hrj.
Qed.

End Powers.

Section MultClosed.

Local Open Scope R_scope.

Lemma add_value (self x r : IsotopeDistribution R) (h h' : heap R)
    (va vb : R * Z * list R) :
  add self x h = Ok (r, h') →
  value_of h self = Some va → value_of h x = Some vb →
  ∃ c, conv va vb = Ok c ∧ value_of h' r = Some c.
Proof.
  intros Hrun Ha Hb.
  apply add_Ok in Hrun as (ia & ib & mm & d & ints & Hia & Hib & Hf & -> & ->).
  unfold value_of in Ha, Hb. rewrite Hia in Ha. rewrite Hib in Hb.
  injection Ha as <-. injection Hb as <-.
  exists (mm, d, ints). split.
  - unfold conv. cbn [fst snd]. rewrite Hf. reflexivity.
  - unfold value_of. cbn [intensities]. rewrite lookup_alloc. reflexivity.
Qed.

Lemma sound_range (e : IsotopeDistribution R) (h : heap R) (v : R * Z * list R) :
  sound h e → value_of h e = Some v → (1 ≤ v.1.2 ≤ Z.of_nat (length v.2))%Z.
Proof.
  intros (ia & Hia & Hd & _) Hv. unfold value_of in Hv. rewrite Hia in Hv.
  injection Hv as <-. exact Hd.
Qed.

Lemma bits_value_nonneg (bits : list Z) :
  Forall (fun b => b = 0 ∨ b = 1)%Z bits → (0 ≤ bits_value bits)%Z.
Proof.
  induction 1 as [|b bits Hb _ IH]; simpl; [lia|]. destruct Hb; lia.
Qed.

Lemma bits_value_last (bits : list Z) :
  Forall (fun b => b = 0 ∨ b = 1)%Z bits → last bits = Some 1%Z →
  (1 ≤ bits_value bits)%Z.
Proof.
  induction 1 as [|b bits Hb Hbits IH]; [discriminate|]. intros Hlast.
  pose proof (bits_value_nonneg bits Hbits) as Hnn. simpl bits_value.
  destruct bits as [|b' bits'].
  - simpl in Hlast. injection Hlast as ->. simpl. lia.
  - assert (1 ≤ bits_value (b' :: bits'))%Z by (apply IH; exact Hlast).
    destruct Hb; lia.
Qed.

Variables (m : R) (dm : Z) (arr : list R).

Hypothesis Hdm : (1 ≤ dm ≤ Z.of_nat (length arr))%Z.
Hypothesis Hmax : np_max (take (Z.to_nat dm) arr) = Ok 1.

Variable N : nat.
Hypothesis HN : (1 ≤ N)%nat.
Hypothesis Hunp : unpruned (m, dm, arr) N.

Let Q (k : nat) : R * Z * list R := power_closed m (take (Z.to_nat dm) arr) k.

(** The loop of [mult] when nothing is pruned: with [i] holding the closed
    power [acc] and [multiples] the closed power [p], the digits left add
    [p] times their value to the exponent of [i]. *)
Lemma mult_loop_closed (bits : list Z) :
  Forall (fun b => b = 0 ∨ b = 1)%Z bits →
  bits = [] ∨ last bits = Some 1%Z →
  ∀ (acc p : nat) (i mm : IsotopeDistribution R) (h : heap R) vi vm,
    (1 ≤ p)%nat →
    (acc + p * Z.to_nat (bits_value bits) ≤ N)%nat →
    sound h i → sound h mm →
    value_of h i = Some vi → value_of h mm = Some vm →
    trunc vi = Q acc → trunc vm = Q p →
    ∃ s' h' v,
      M_for_each bits mult_body (i, mm) h = Ok (s', h') ∧
      value_of h' s'.1 = Some v ∧
      trunc v = Q (acc + p * Z.to_nat (bits_value bits)) ∧
      (bits ≠ [] → v = Q (acc + p * Z.to_nat (bits_value bits))).
Proof.
  induction 1 as [|b bits Hb Hbits IH];
    intros Hlast acc p i mm h vi vm Hp Hle Hsi Hsm Hi Hm Hti Htm.
  - exists (i, mm), h, vi. split; [reflexivity|]. split; [exact Hi|].
    simpl bits_value. rewrite Nat.mul_0_r, Nat.add_0_r. split; [exact Hti|].
    intros Hne. contradiction.
  - destruct Hlast as [Hnil|Hlast]; [discriminate|].
    pose proof (bits_value_nonneg bits Hbits) as Hnn.
    assert (Hb0 : (0 ≤ b)%Z) by (destruct Hb; lia).
    simpl bits_value in Hle |- *.
    assert (Hexp : (acc + p * Z.to_nat (b + 2 * bits_value bits)
                    = acc + p * Z.to_nat b + (p + p) * Z.to_nat (bits_value bits))%nat).
    { rewrite Z2Nat.inj_add, Z2Nat.inj_mul by lia. change (Z.to_nat 2) with 2%nat. lia. }
    rewrite Hexp in Hle |- *.
    pose proof (sound_range _ _ _ Hsi Hi) as Hri.
    pose proof (sound_range _ _ _ Hsm Hm) as Hrm.
    (* the first step *)
    assert (Hfirst : ∃ i1 h1 v1,
               (if (b =? 1)%Z then add i mm else M_ret i) h = Ok (i1, h1) ∧
               h `prefix_of` h1 ∧ sound h1 i1 ∧
               value_of h1 i1 = Some v1 ∧
               trunc v1 = Q (acc + p * Z.to_nat b) ∧
               (b = 1%Z → v1 = Q (acc + p * Z.to_nat b))).
    { destruct Hb as [-> | ->].
      - exists i, h, vi. simpl. split; [reflexivity|]. split; [reflexivity|].
        split; [exact Hsi|]. split; [exact Hi|].
        rewrite Nat.mul_0_r, Nat.add_0_r. split; [exact Hti|]. intros ?. lia.
      - change (Z.to_nat 1) with 1%nat in *. rewrite Nat.mul_1_r in *.
        simpl Z.eqb. cbv iota.
        destruct (add_sound i mm h Hsi Hsm) as (i1 & h1 & Hadd & Hpre & Hs1).
        destruct (add_value _ _ _ _ _ _ _ Hadd Hi Hm) as (c & Hc & Hv1).
        rewrite (conv_trunc vi vm) in Hc by lia. rewrite Hti, Htm in Hc.
        unfold Q in Hc.
        rewrite (Q_conv m dm arr Hdm Hmax N HN Hunp acc p) in Hc by lia.
        injection Hc as <-.
        exists i1, h1, (Q (acc + p)). split; [exact Hadd|]. split; [exact Hpre|].
        split; [exact Hs1|]. split; [exact Hv1|].
        split; [apply trunc_full|]. intros _. reflexivity. }
    destruct Hfirst as (i1 & h1 & v1 & Hrun1 & Hpre1 & Hs1 & Hv1 & Ht1 & Hex1).
    (* the squaring *)
    assert (Hsm1 : sound h1 mm) by (eapply sound_prefix; eassumption).
    assert (Hm1 : value_of h1 mm = Some vm) by (eapply value_of_prefix; eassumption).
    destruct (add_sound mm mm h1 Hsm1 Hsm1) as (m2 & h2 & Hadd2 & Hpre2 & Hs2).
    destruct (add_value _ _ _ _ _ _ _ Hadd2 Hm1 Hm1) as (c2 & Hc2 & Hv2).
    assert (Hstep : M_for_each (b :: bits) mult_body (i, mm) h
                    = M_for_each bits mult_body (i1, m2) h2).
    { cbn [M_for_each]. unfold M_bind at 1. unfold mult_body at 1.
      cbv iota beta. unfold M_bind at 1. rewrite Hrun1.
      unfold M_bind at 1. rewrite Hadd2. reflexivity. }
    rewrite Hstep.
    destruct bits as [|b' bits'] eqn:Hbits_eq.
    + (* the last digit *)
      simpl in Hlast. injection Hlast as ->.
      exists (i1, m2), h2, v1. split; [reflexivity|].
      split; [eapply value_of_prefix; eassumption|].
      simpl bits_value. rewrite Nat.mul_0_r, Nat.add_0_r.
      split; [exact Ht1|]. intros _. apply Hex1. reflexivity.
    + rewrite <- Hbits_eq in *.
      assert (Hlast' : last bits = Some 1%Z).
      { rewrite Hbits_eq. rewrite Hbits_eq in Hlast. exact Hlast. }
      pose proof (bits_value_last bits Hbits Hlast') as Hge.
      assert (Hpp : (p + p ≤ N)%nat).
      { assert (1 ≤ Z.to_nat (bits_value bits))%nat by lia. nia. }
      rewrite (conv_trunc vm vm) in Hc2 by lia. rewrite Htm in Hc2.
      unfold Q in Hc2.
      rewrite (Q_conv m dm arr Hdm Hmax N HN Hunp p p) in Hc2 by lia.
      injection Hc2 as <-.
      destruct (IH (or_intror Hlast') (acc + p * Z.to_nat b)%nat (p + p)%nat
                  i1 m2 h2 v1 (Q (p + p)))
        as (s' & h' & v & Hloop & Hs' & Htv & Hexv).
      * lia.
      * lia.
      * eapply sound_prefix; eassumption.
      * exact Hs2.
      * eapply value_of_prefix; eassumption.
      * exact Hv2.
      * exact Ht1.
      * apply trunc_full.
      * exists s', h', v. split; [exact Hloop|]. split; [exact Hs'|].
        split; [exact Htv|]. intros _. apply Hexv. rewrite Hbits_eq. discriminate.
Qed.

End MultClosed.

Lemma last_rev_head {A} (l : list A) : last (rev l) = head l.
Proof. destruct l as [|x l]; [reflexivity|]. simpl. apply last_snoc. Qed.

(** C3 (as amended): in exact arithmetic, for every sound envelope [E]
    (its peak count within its array, its significant intensities not
    negative, with maximum 1) and every [n] from 1 to [2^53] (where the
    halving step of [numba_bin] is exact) such that no convolution
    of two powers of [E] whose exponents add up to at most [n] prunes a
    peak ([unpruned]: the product of the last significant intensities of
    the two powers is not under the threshold), [E.mult(n)], by the binary
    digits of [numba_bin(n)], and the naive path, a copy of [E] and then
    [add] with [E] [n - 1] times, both return, with the same offset, the
    same peak count and the same intensities.  For [n >= 2] these are
    [n] times the offset of [E] and all the coefficients of the [n]-th
    power of the polynomial of the significant intensities of [E],
    divided by their maximum.  Where a convolution prunes, the two paths
    can end with different envelopes: [mult_naive_counterexample]. *)
Theorem mult_refines_naive (E : IsotopeDistribution R) (h : heap R) (arr : list R)
    (n : Z) :
  h !! intensities E = Some arr →
  sound h E →
  (1 ≤ n ≤ 2 ^ 53)%Z →
  unpruned (m0 E, dm E, arr) (Z.to_nat n) →
  ∃ r1 h1 r2 h2 v,
    mult E n h = Ok (r1, h1) ∧
    naive_mult E n h = Ok (r2, h2) ∧
    value_of h1 r1 = Some v ∧
    value_of h2 r2 = Some v ∧
    ((2 ≤ n)%Z →
     v = power_closed (m0 E) (take (Z.to_nat (dm E)) arr) (Z.to_nat n)).
Proof.
  intros Harr HsE [Hn _] Hunp.
  set (vE := (m0 E, dm E, arr)).
  assert (HE : value_of h E = Some vE) by (unfold value_of; rewrite Harr; reflexivity).
  assert (Hpre0 : h `prefix_of` h ++ [[f_one]]) by (apply prefix_app_r; reflexivity).
  destruct (Z.eq_dec n 1%Z) as [->|Hne].
  { exists E, (h ++ [[f_one]]), E, (h ++ [[f_one]]), vE.
    split; [unfold mult; apply copy_eq|].
    split; [unfold naive_mult, M_bind; rewrite copy_eq; reflexivity|].
    split; [eapply value_of_prefix; eassumption|].
    split; [eapply value_of_prefix; eassumption|]. intros ?. lia. }
  assert (Hsound := HsE).
  destruct HsE as (arr' & Harr' & Hdm & _ & Hmax).
  rewrite Harr in Harr'. injection Harr' as <-.
  set (N := Z.to_nat n).
  assert (HN : (1 ≤ N)%nat) by (unfold N; lia).
  destruct (power_Q (m0 E) (dm E) arr Hdm Hmax N HN Hunp N) as (v & Hv & _ & _ & Hvq);
    [lia|].
  specialize (Hvq ltac:(unfold N; lia)). fold vE in Hv. subst v.
  set (QN := power_closed (m0 E) (take (Z.to_nat (dm E)) arr) N) in *.
  assert (Hnaive : ∃ r2 h2, naive_mult E n h = Ok (r2, h2) ∧ value_of h2 r2 = Some QN).
  { unfold naive_mult, M_bind. rewrite copy_eq.
    destruct (naive_loop_power E vE (Z.to_nat (n - 1)) 1%nat E (h ++ [[f_one]]) vE QN)
      with (start := 0%nat) as (r2 & h2 & Hloop & _ & Hr2).
    - lia.
    - eapply value_of_prefix; eassumption.
    - eapply value_of_prefix; eassumption.
    - reflexivity.
    - replace (1 + Z.to_nat (n - 1))%nat with N by (unfold N; lia). exact Hv.
    - exists r2, h2. split; [exact Hloop|exact Hr2]. }
  destruct Hnaive as (r2 & h2 & Hnaive & Hr2).
  assert (Hmult : ∃ r1 h1, mult E n h = Ok (r1, h1) ∧ value_of h1 r1 = Some QN).
  { unfold mult.
    destruct (numba_bin_digits_length n) as (bs & Hbin & Hbits & Hval & _ & Hhead); [lia|].
    destruct Hhead as [Hhead _]; [lia|].
    unfold M_bind at 1. unfold lift. rewrite Hbin.
    destruct (Z.eqb_spec n 1%Z) as [?|_]; [contradiction|].
    destruct (init_sound h) as (i & h1 & Hinit & Hpre1 & Hsi).
    pose proof Hinit as Hinit'. rewrite init_eq in Hinit'. injection Hinit' as <- <-.
    unfold M_bind at 1. rewrite Hinit.
    unfold M_bind at 1. rewrite copy_eq.
    set (h2' := (h ++ [[f_one]]) ++ [[f_one]]).
    assert (Hpre2 : h `prefix_of` h2').
    { etrans; [exact Hpre0|]. apply prefix_app_r. reflexivity. }
    destruct (mult_loop_closed (m0 E) (dm E) arr Hdm Hmax N HN Hunp (rev bs))
      with (acc := 0%nat) (p := 1%nat)
           (i := {| m0 := f_zero; dm := 1; intensities := length h |}) (mm := E)
           (h := h2') (vi := identity_value) (vm := vE)
      as (s' & h' & v & Hloop & Hs' & _ & Hvq).
    - apply Forall_rev. exact Hbits.
    - right. rewrite last_rev_head. exact Hhead.
    - lia.
    - rewrite Hval. unfold N. lia.
    - eapply sound_prefix; [exact Hsi|]. apply prefix_app_r. reflexivity.
    - eapply sound_prefix; eassumption.
    - unfold value_of, h2'. cbn [intensities].
      rewrite (lookup_alloc_old _ _ _ _ (lookup_alloc h [f_one])). reflexivity.
    - eapply value_of_prefix; eassumption.
    - rewrite Q_0. reflexivity.
    - rewrite (Q_1 _ _ _ Hmax). reflexivity.
    - exists s'.1, h'. unfold M_bind.
      match goal with |- context [M_for_each ?a ?b ?c ?d] =>
        replace (M_for_each a b c d) with (Ok (A := (IsotopeDistribution R * IsotopeDistribution R) * heap R) (s', h'))
          by (symmetry; exact Hloop) end. split; [reflexivity|].
      rewrite Hs'. f_equal. rewrite Hvq.
      + rewrite Hval. unfold QN, N. f_equal. lia.
      + intros Hnil. destruct bs; [discriminate|].
        simpl in Hnil. apply app_eq_nil in Hnil as [_ ?]. discriminate. }
  destruct Hmult as (r1 & h1 & Hmult & Hr1).
  exists r1, h1, r2, h2, QN. repeat split; assumption || reflexivity.
Qed.

Section MultRefinesNaiveExample.

Local Open Scope R_scope.

Lemma pmul_example_2 : pmul [1; 1 / 2] [1; 1 / 2] = [1; 1; 1 / 4].
Proof.
  cbv -[Rplus Rmult Rdiv Rinv IZR Rminus Ropp].
  repeat f_equal; lra.
Qed.

Lemma pmul_example_3 : pmul [1; 1; 1 / 4] [1; 1 / 2] = [1; 3 / 2; 3 / 4; 1 / 8].
Proof.
  cbv -[Rplus Rmult Rdiv Rinv IZR Rminus Ropp].
  repeat f_equal; lra.
Qed.

Lemma np_max_example_2 : np_max [1; 1; 1 / 4] = Ok 1.
Proof.
  apply np_max_unique; [apply elem_of_cons; left; reflexivity|].
  intros v Hv. repeat (apply elem_of_cons in Hv as [->|Hv]; [lra|]).
  apply elem_of_nil in Hv. contradiction.
Qed.

Lemma np_max_example_3 : np_max [1; 3 / 2; 3 / 4; 1 / 8] = Ok (3 / 2).
Proof.
  apply np_max_unique; [apply elem_of_cons; right; apply elem_of_cons; left; reflexivity|].
  intros v Hv. repeat (apply elem_of_cons in Hv as [->|Hv]; [lra|]).
  apply elem_of_nil in Hv. contradiction.
Qed.

Lemma power_example_2 :
  power (12, 2%Z, [1; 1 / 2]) 2 = Ok (full (12 + 12) [1; 1; 1 / 4]).
Proof.
  change (power (12, 2%Z, [1; 1 / 2]) 2)
    with (conv (full 12 [1; 1 / 2]) (full 12 [1; 1 / 2])).
  rewrite (conv_full 12 12 [1; 1 / 2] [1; 1 / 2] (1 / 2) (1 / 2));
    [|reflexivity|reflexivity|unfold f_prune; simpl; lra].
  rewrite pmul_example_2, (norm_one _ np_max_example_2). reflexivity.
Qed.

Lemma power_example_3 :
  power (12, 2%Z, [1; 1 / 2]) 3
  = Ok (full (12 + 12 + 12) (norm [1; 3 / 2; 3 / 4; 1 / 8])).
Proof.
  rewrite power_succ by lia. rewrite power_example_2. cbn [res_bind].
  change (12, 2%Z, [1; 1 / 2]) with (full 12 [1; 1 / 2]).
  rewrite (conv_full (12 + 12) 12 [1; 1; 1 / 4] [1; 1 / 2] (1 / 4) (1 / 2));
    [|reflexivity|reflexivity|unfold f_prune; simpl; lra].
  rewrite pmul_example_3. reflexivity.
Qed.

Lemma unpruned_example : unpruned (12, 2%Z, [1; 1 / 2]) 3.
Proof.
  assert (H0 : last_peak (@identity_value R exact) = 1) by reflexivity.
  assert (H1 : last_peak (12, 2%Z, [1; 1 / 2]) = 1 / 2) by reflexivity.
  assert (H2 : last_peak (full (12 + 12) [1; 1; 1 / 4]) = 1 / 4) by reflexivity.
  assert (H3 : last_peak (full (12 + 12 + 12) (norm [1; 3 / 2; 3 / 4; 1 / 8]))
               = 1 / 8 / (3 / 2)).
  { apply last_peak_full. apply (last_norm _ _ _ np_max_example_3). reflexivity. }
  assert (P0 : power (12, 2%Z, [1; 1 / 2]) 0 = Ok identity_value) by reflexivity.
  assert (P1 : power (12, 2%Z, [1; 1 / 2]) 1 = Ok (12, 2%Z, [1; 1 / 2])) by reflexivity.
  intros j k p q Hk Hjk Hp Hq.
  assert (Hj : (j = 0 ∨ j = 1 ∨ j = 2)%nat) by lia.
  assert (Hk' : (k = 1 ∨ k = 2 ∨ k = 3)%nat) by lia.
  destruct Hj as [-> | [-> | ->]]; destruct Hk' as [-> | [-> | ->]]; try lia;
    rewrite ?P0, ?P1, ?power_example_2, ?power_example_3 in Hp;
    rewrite ?P0, ?P1, ?power_example_2, ?power_example_3 in Hq;
    injection Hp as <-; injection Hq as <-;
    rewrite ?H0, ?H1, ?H2, ?H3; unfold f_prune; simpl; lra.
Qed.

(** The third power of [1 + x/2] is [1 + 3/2 x + 3/4 x^2 + 1/8 x^3]; its
    largest coefficient is [3/2]. *)
Lemma power_closed_example :
  power_closed 12 [1; 1 / 2] 3 = (36, 4%Z, [2 / 3; 1; 1 / 2; 1 / 12]).
Proof.
  unfold power_closed. cbn [ppow]. rewrite pmul_one_l, pmul_example_2, pmul_example_3.
  rewrite (norm_eq _ _ np_max_example_3). unfold full. cbn [length fmap list_fmap].
  f_equal; [f_equal; simpl; lra|]. repeat f_equal; lra.
Qed.

(** The theorem at the envelope of offset 12 with the two peaks
    [[1, 1/2]], for [n = 3]: both paths return the offset 36 and the four
    peaks [[2/3, 1, 1/2, 1/12]]. *)
Lemma mult_refines_naive_witness :
  ∃ r1 h1 r2 h2,
    mult {| m0 := 12; dm := 2; intensities := 0%nat |} 3 [[1; 1 / 2]]
    = Ok (r1, h1) ∧
    naive_mult {| m0 := 12; dm := 2; intensities := 0%nat |} 3 [[1; 1 / 2]]
    = Ok (r2, h2) ∧
    value_of h1 r1 = Some (36, 4%Z, [2 / 3; 1; 1 / 2; 1 / 12]) ∧
    value_of h2 r2 = Some (36, 4%Z, [2 / 3; 1; 1 / 2; 1 / 12]).
Proof.
  destruct (mult_refines_naive {| m0 := 12; dm := 2; intensities := 0%nat |}
              [[1; 1 / 2]] [1; 1 / 2] 3 eq_refl sound_example
              ltac:(lia) unpruned_example)
    as (r1 & h1 & r2 & h2 & v & Hm & Hn & H1 & H2 & Hv).
  specialize (Hv ltac:(lia)). cbn [m0 dm] in Hv.
  change (take (Z.to_nat 2) [1; 1 / 2]) with [1; 1 / 2] in Hv.
  change (Z.to_nat 3) with 3%nat in Hv.
  rewrite power_closed_example in Hv. subst v.
  exists r1, h1, r2, h2. repeat split; assumption.
Defined.

End MultRefinesNaiveExample.
